(** * Classroom allocation: cost model, greedy, local search, genetic

    A shallow embedding of [classroom_allocation.py] and the properties
    of its three allocation strategies.

    Conventions of the embedding.
    - Python [int] is [Z]; a [dict] is a [gmap]; a [list] is a [list].
    - Python [float] costs are read as the rational numbers they denote
      and are added, scaled and compared exactly (type [Q], equality
      [==]); binary64 rounding, infinities and NaN are not modelled.
      [math.dist] is a library primitive and is a parameter of the
      development ([euclidean]).
    - Exceptions are values of [exn]; a computation that may raise
      returns a [result].
    - The pseudo-random generators are streams of raw draws threaded
      through a state monad; every outcome the library can produce is
      the image of some stream, so a statement over all streams covers
      every run. *)

From Stdlib Require Import QArith Qabs Qminmax Lqa.
From Stdlib Require Import Floats.
From stdpp Require Import gmap strings list fin_maps sorting.

(** ** Exceptions and results *)

Inductive exn : Type :=
  | RuntimeError (course : string) (timeslot : Z)
      (* "Sem sala disponível para disciplina {id} no horário {timeslot}" *)
  | ZeroDivisionError
  | IndexError
  | ValueError
  | KeyError (key : string).

Inductive result (A : Type) : Type :=
  | OK (a : A)
  | Err (e : exn).
Arguments OK {A} a.
Arguments Err {A} e.

Definition is_Err {A} (r : result A) : Prop := ∃ e, r = Err e.

(** ** A state-and-exception monad *)

Definition M (S A : Type) : Type := S → result (A * S).

Definition ret {S A} (a : A) : M S A := λ s, OK (a, s).
Definition raise {S A} (e : exn) : M S A := λ _, Err e.
Definition bind {S A B} (m : M S A) (f : A → M S B) : M S B :=
  λ s, match m s with
       | OK (a, s') => f a s'
       | Err e => Err e
       end.

Declare Scope monad_scope.
Delimit Scope monad_scope with monad.
Notation "x <- m ;; k" := (bind m (λ x, k))
  (at level 100, m at next level, right associativity) : monad_scope.
Open Scope monad_scope.

(** [[f(x) for x in xs]], evaluated left to right. *)
Fixpoint mapM {S A B} (f : A → M S B) (xs : list A) : M S (list B) :=
  match xs with
  | [] => ret []
  | x :: xs' => y <- f x ;; ys <- mapM f xs' ;; ret (y :: ys)
  end.

(** [[e for _ in range(n)]]. *)
Fixpoint replicateM {S A} (n : nat) (m : M S A) : M S (list A) :=
  match n with
  | O => ret []
  | S n' => x <- m ;; xs <- replicateM n' m ;; ret (x :: xs)
  end.

(** A [for] loop over [xs] that threads a loop state. *)
Fixpoint foldM {S A B} (f : B → A → M S B) (xs : list A) (b : B) : M S B :=
  match xs with
  | [] => ret b
  | x :: xs' => b' <- f b x ;; foldM f xs' b'
  end.

(** [for _ in range(n)] around a loop state. *)
Fixpoint iterM {S B} (n : nat) (f : B → M S B) (b : B) : M S B :=
  match n with
  | O => ret b
  | S n' => b' <- f b ;; iterM n' f b'
  end.

(** [d[k]] and [xs[i]] for [0 <= i]. *)
Definition getitem {S V} (d : gmap string V) (k : string) : M S V :=
  match d !! k with
  | Some v => ret v
  | None => raise (KeyError k)
  end.

Definition index {S A} (xs : list A) (i : nat) : M S A :=
  match xs !! i with
  | Some x => ret x
  | None => raise IndexError
  end.

(** Run a computation of the first component on a pair of states. *)
Definition on_fst {S T A} (m : M S A) : M (S * T) A :=
  λ st, match m st.1 with
        | OK (a, s') => OK (a, (s', st.2))
        | Err e => Err e
        end.
Definition on_snd {S T A} (m : M T A) : M (S * T) A :=
  λ st, match m st.2 with
        | OK (a, t') => OK (a, (st.1, t'))
        | Err e => Err e
        end.

(** ** The random source

    A generator is the stream of its future raw draws (an exhausted stream
    keeps yielding 0). *)

Definition rand : Type := list N.

Definition next_draw : M rand N :=
  λ g, match g with
       | [] => OK (0%N, [])
       | d :: g' => OK (d, g')
       end.

(** [_randbelow(n)], for [0 < n]. *)
Definition randbelow (n : nat) : M rand nat :=
  d <- next_draw ;; ret (N.to_nat (d mod N.of_nat n)).

(** [random()]: a multiple of 2^-53 in [[0, 1)]. *)
Definition random_float : M rand Q :=
  d <- next_draw ;; ret (Z.of_N (d mod 2 ^ 53) # 2 ^ 53)%Q.

(** [choice(seq)]: [IndexError] on an empty sequence. *)
Definition choice {A} (xs : list A) : M rand A :=
  match xs with
  | [] => raise IndexError
  | _ =>
      j <- randbelow (length xs) ;;
      match xs !! j with
      | Some x => ret x
      | None => raise IndexError
      end
  end.

(** [randrange(start, stop)]: [ValueError] on an empty range. *)
Definition randrange (start stop : nat) : M rand nat :=
  if (start <? stop)%nat
  then j <- randbelow (stop - start) ;; ret (start + j)%nat
  else raise ValueError.

(** [sample(population, k)]: [k] items at pairwise distinct positions; each
    draw takes one item out of the pool.  [ValueError] when the sample is
    larger than the population. *)
Fixpoint sample_pool {A} (pool : list A) (k : nat) : M rand (list A) :=
  match k with
  | O => ret []
  | S k' =>
      j <- randbelow (length pool) ;;
      match pool !! j with
      | Some x => rest <- sample_pool (delete j pool) k' ;; ret (x :: rest)
      | None => raise ValueError
      end
  end.

Definition sample {A} (population : list A) (k : nat) : M rand (list A) :=
  if (length population <? k)%nat then raise ValueError
  else sample_pool population k.

(** ** Entities *)

Definition coord : Type := Q * Q.

Record Room : Type := mkRoom {
  room_id : string;
  room_capacity : Z;
  room_coord : coord;
  room_schedule : gmap Z string   (* timeslot -> course_id *)
}.

Record Person : Type := mkPerson {
  person_id : string;
  person_coord : coord
}.

Record Course : Type := mkCourse {
  course_id : string;
  course_size : Z;
  course_teacher : Person;
  course_students : list Person;
  course_timeslot : Z
}.

(** [Room.is_available]: [timeslot not in self.schedule and
    self.capacity >= size]. *)
Definition is_available (r : Room) (timeslot : Z) (size : Z) : bool :=
  bool_decide (room_schedule r !! timeslot = None) && (size <=? room_capacity r)%Z.

(** In-place writes of Python. *)
Definition set_schedule (r : Room) (timeslot : Z) (cid : string) : Room :=
  mkRoom (room_id r) (room_capacity r) (room_coord r)
         (<[timeslot := cid]> (room_schedule r)).

(** [sum(xs)]: left to right from 0. *)
Definition sumQ (xs : list Q) : Q := fold_left Qplus xs 0%Q.

(** The least value of a list, if any. *)
Fixpoint least (xs : list Q) : option Q :=
  match xs with
  | [] => None
  | x :: xs' =>
      match least xs' with
      | None => Some x
      | Some m => Some (Qmin x m)
      end
  end.

(** [min(xs, key=key)] on a non-empty list whose first item is [best] with
    key [bestk]: the key of every item is computed once, in order, and a
    later item wins only with a strictly smaller key.  The keys are exact
    rationals here; [min_by_from64] compares them as the floats they are
    in the code. *)
Fixpoint min_by_from {S A} (key : A → M S Q) (best : A) (bestk : Q)
    (xs : list A) : M S A :=
  match xs with
  | [] => ret best
  | x :: xs' =>
      k <- key x ;;
      if Qlt_le_dec k bestk then min_by_from key x k xs'
      else min_by_from key best bestk xs'
  end.

Definition min_by {S A} (key : A → M S Q) (xs : list A) : M S A :=
  match xs with
  | [] => raise ValueError
  | x :: xs' => k <- key x ;; min_by_from key x k xs'
  end.

Section Allocation.

(** [math.dist]. *)
Variable euclidean : coord → coord → Q.

(** ** Cost model

    A cost is here an exact rational: the value of the code's expression
    before any rounding.  The code computes it in binary64; section 4
    below gives [travel_cost64] and the functions that compare or
    accumulate costs with the arithmetic of the code. *)

Definition sample_cap : nat := 30.

Definition travel_cost (course : Course) (room : Room) : M rand Q :=
  let teacher_cost := euclidean (person_coord (course_teacher course)) (room_coord room) in
  let n := length (course_students course) in
  let k := Nat.min sample_cap n in
  smp <- (if (k <? n)%nat then sample (course_students course) k
         else ret (course_students course)) ;;
  let total := sumQ (map (λ s, euclidean (person_coord s) (room_coord room)) smp) in
  if (k =? 0)%nat then raise ZeroDivisionError
  else
    let student_cost := (total * (inject_Z (Z.of_nat n) / inject_Z (Z.of_nat k)))%Q in
    ret (teacher_cost + student_cost)%Q.

(** ** 1. Greedy allocation

    The [Room] objects are mutated in place, so they live in a store and the
    argument [rooms] is a list of references into it: one object listed
    twice is one schedule. *)

Definition addr : Type := nat.
Definition store : Type := addr → Room.

Definition store_set (h : store) (a : addr) (r : Room) : store :=
  λ b, if decide (b = a) then r else h b.

(** [sorted(courses, key=lambda c: c.size, reverse=True)]: stable. *)
Fixpoint insert_by_size (c : Course) (l : list Course) : list Course :=
  match l with
  | [] => [c]
  | d :: l' =>
      if (course_size c <? course_size d)%Z then d :: insert_by_size c l'
      else c :: d :: l'
  end.

Definition sorted_by_size_desc (courses : list Course) : list Course :=
  foldr insert_by_size [] courses.

Record greedy_state : Type := mkGreedy {
  gs_store : store;
  gs_allocation : gmap string string
}.

Definition feasible (h : store) (rooms : list addr) (course : Course) : list addr :=
  filter (λ a, is_available (h a) (course_timeslot course) (course_size course)) rooms.

(** The body of the loop at lines 61-67. *)
Definition greedy_step (rooms : list addr) (st : greedy_state) (course : Course)
    : M rand greedy_state :=
  let h := gs_store st in
  match feasible h rooms course with
  | [] => raise (RuntimeError (course_id course) (course_timeslot course))
  | fs =>
      best_room <- min_by (λ a, travel_cost course (h a)) fs ;;
      ret (mkGreedy
             (store_set h best_room
                (set_schedule (h best_room) (course_timeslot course) (course_id course)))
             (<[course_id course := room_id (h best_room)]> (gs_allocation st)))
  end.

Definition greedy_loop (rooms : list addr) (courses : list Course)
    (st : greedy_state) : M rand greedy_state :=
  foldM (greedy_step rooms) courses st.

(** The whole call, with the store it leaves behind. *)
Definition greedy_run (courses : list Course) (rooms : list addr) (h : store)
    : M rand greedy_state :=
  greedy_loop rooms (sorted_by_size_desc courses) (mkGreedy h ∅).

Definition greedy_allocate (courses : list Course) (rooms : list addr) (h : store)
    : M rand (gmap string string) :=
  st <- greedy_run courses rooms h ;; ret (gs_allocation st).

(** ** 2. Local search

    The frame of a call: the two objects it receives ([allocation], the
    caller's dict, and [rooms]) and its locals. *)

Record ls_frame : Type := mkFrame {
  ls_allocation : gmap string string;
  ls_rooms : gmap string Room;
  ls_current : gmap string string;
  ls_current_cost : Q
}.

Definition cost_of_alloc (rooms : gmap string Room) (courses : list Course)
    (alloc : gmap string string) : M rand Q :=
  foldM (λ acc course,
           rid <- getitem alloc (course_id course) ;;
           room <- getitem rooms rid ;;
           t <- travel_cost course room ;;
           ret (acc + t)%Q)
        courses 0%Q.

(** One trial of the loop at lines 82-97, the delta and the running total
    being exact rationals; [ls_step64] computes them in binary64. *)
Definition ls_step (courses : list Course) (fr : ls_frame) : M rand ls_frame :=
  pair <- sample courses 2 ;;
  match pair with
  | [c1; c2] =>
      if bool_decide (course_timeslot c1 ≠ course_timeslot c2) then ret fr
      else
        rid1 <- getitem (ls_current fr) (course_id c1) ;;
        r1 <- getitem (ls_rooms fr) rid1 ;;
        rid2 <- getitem (ls_current fr) (course_id c2) ;;
        r2 <- getitem (ls_rooms fr) rid2 ;;
        if (room_capacity r1 <? course_size c2)%Z || (room_capacity r2 <? course_size c1)%Z
        then ret fr
        else
          t12 <- travel_cost c1 r2 ;;
          t21 <- travel_cost c2 r1 ;;
          t11 <- travel_cost c1 r1 ;;
          t22 <- travel_cost c2 r2 ;;
          let delta := (t12 + t21 - t11 - t22)%Q in
          if Qlt_le_dec delta 0 then
            ret (mkFrame (ls_allocation fr) (ls_rooms fr)
                   (<[course_id c2 := room_id r1]>
                      (<[course_id c1 := room_id r2]> (ls_current fr)))
                   (ls_current_cost fr + delta)%Q)
          else ret fr
  | _ => raise ValueError
  end.

Definition local_search_run (allocation : gmap string string) (courses : list Course)
    (rooms : gmap string Room) (max_iter : Z) : M rand ls_frame :=
  let current := allocation in   (* allocation.copy() *)
  current_cost <- cost_of_alloc rooms courses current ;;
  iterM (Z.to_nat max_iter) (ls_step courses)
        (mkFrame allocation rooms current current_cost).

Definition local_search (allocation : gmap string string) (courses : list Course)
    (rooms : gmap string Room) (max_iter : Z) : M rand (gmap string string) :=
  fr <- local_search_run allocation courses rooms max_iter ;; ret (ls_current fr).

(** ** 3. Genetic algorithm

    Two generators are in play: the module-level one (used by [travel_cost]
    and by the tournaments) and the local [rng = random.Random(42)].  The
    state is the pair of them, in this order. *)

Definition gen_state : Type := rand * rand.
Definition chrom : Type := list nat.

Section Genetic.

Variable courses : list Course.
Variable rooms : list Room.
Variable pop_size : Z.
Variable generations : Z.
Variable crossover_rate mutation_rate : Q.

Definition n_courses : nat := length courses.

Definition room_fits (course : Course) (r : Room) : bool :=
  (course_size course <=? room_capacity r)%Z
  && bool_decide (room_schedule r !! course_timeslot course = None).

(** [[i for i, r in enumerate(rooms) if ...]] for one course. *)
Definition feasible_for (course : Course) : list nat :=
  (filter (λ ir, room_fits course ir.2) (imap pair rooms)).*1.

Definition feasible_rooms : list (list nat) := map feasible_for courses.

Definition random_chrom : M gen_state chrom :=
  mapM (λ fr, on_snd (choice fr)) feasible_rooms.

Definition fitness (c : chrom) : M gen_state Q :=
  foldM (λ acc ig,
           course <- index courses ig.1 ;;
           room <- index rooms ig.2 ;;
           t <- on_fst (travel_cost course room) ;;
           ret (acc + t)%Q)
        (imap pair c) 0%Q.

(** [min(random.sample(population, 2), key=fitness)]. *)
Definition tournament (population : list chrom) : M gen_state chrom :=
  pair <- on_fst (sample population 2) ;; min_by fitness pair.

(** [range(0, n, 2)]. *)
Definition range_step2 (n : nat) : list nat :=
  map (λ j, 2 * j)%nat (seq 0 (Nat.div2 (n + 1))).

(** One turn of the loop at lines 128-136. *)
Definition crossover_pair (parents : list chrom) (offspring : list chrom) (i : nat)
    : M gen_state (list chrom) :=
  p1 <- index parents i ;;
  p2 <- index parents (i + 1) ;;
  u <- on_snd random_float ;;
  if Qlt_le_dec u crossover_rate then
    cut <- on_snd (randrange 1 n_courses) ;;
    let child1 := take cut p1 ++ drop cut p2 in
    let child2 := take cut p2 ++ drop cut p1 in
    ret (offspring ++ [child1; child2])
  else
    ret (offspring ++ [p1; p2]).

Definition reproduce (parents : list chrom) : M gen_state (list chrom) :=
  foldM (crossover_pair parents) (range_step2 (Z.to_nat pop_size)) [].

(** The body of the loop at lines 138-141, for one offspring. *)
Definition mutate (c : chrom) : M gen_state chrom :=
  u <- on_snd random_float ;;
  if Qlt_le_dec u mutation_rate then
    idx <- on_snd (randrange 0 n_courses) ;;
    fr <- index feasible_rooms idx ;;
    g <- on_snd (choice fr) ;;
    if (idx <? length c)%nat then ret (<[idx := g]> c) else raise IndexError
  else ret c.

(** [xs.sort(key=key)]: the keys are computed once, in order; stable. *)
Fixpoint insert_by_key {A} (x : Q * A) (l : list (Q * A)) : list (Q * A) :=
  match l with
  | [] => [x]
  | y :: l' =>
      if Qlt_le_dec y.1 x.1 then y :: insert_by_key x l'
      else x :: y :: l'
  end.

Definition sort_keyed {A} (l : list (Q * A)) : list (Q * A) :=
  foldr insert_by_key [] l.

Definition sort_by {A} (key : A → M gen_state Q) (xs : list A) : M gen_state (list A) :=
  ks <- mapM key xs ;; ret (sort_keyed (zip ks xs)).*2.

(** [xs[:n]], also for a negative [n]. *)
Definition slice_to {A} (n : Z) (xs : list A) : list A :=
  if (0 <=? n)%Z then take (Z.to_nat n) xs
  else take (length xs - Z.to_nat (- n)) xs.

(** What one generation computes. *)
Record generation : Type := mkGeneration {
  gen_parents : list chrom;
  gen_offspring : list chrom;   (* as the reproduction loop leaves it *)
  gen_mutated : list chrom;     (* the same list after the mutation loop *)
  gen_population : list chrom
}.

Definition evolve (population : list chrom) : M gen_state generation :=
  parents <- replicateM (Z.to_nat pop_size) (tournament population) ;;
  offspring <- reproduce parents ;;
  mutated <- mapM mutate offspring ;;
  merged <- sort_by fitness (population ++ mutated) ;;
  ret (mkGeneration parents offspring mutated (slice_to pop_size merged)).

Definition next_population (population : list chrom) : M gen_state (list chrom) :=
  g <- evolve population ;; ret (gen_population g).

Definition initial_population : M gen_state (list chrom) :=
  replicateM (Z.to_nat pop_size) random_chrom.

(** The initial population and the one left by the last generation. *)
Definition genetic_run : M gen_state (list chrom * list chrom) :=
  population0 <- initial_population ;;
  population <- iterM (Z.to_nat generations) next_population population0 ;;
  ret (population0, population).

(** [{course.id: rooms[idx].id for course, idx in zip(courses, best)}]. *)
Definition to_mapping (best : chrom) : M gen_state (gmap string string) :=
  foldM (λ (d : gmap string string) ci,
           room <- index rooms ci.2 ;;
           ret (<[course_id ci.1 := room_id room]> d))
        (zip courses best) ∅.

Definition genetic_allocate : M gen_state (gmap string string) :=
  pops <- genetic_run ;;
  best <- min_by fitness pops.2 ;;
  to_mapping best.

End Genetic.

(** ** 4. The cost arithmetic of the code

    The code computes costs in binary64, and where it compares or
    accumulates them (the [min] of the greedy loop, the delta test and the
    running total of the local search) rounding decides what it does.
    The functions concerned are given here as the code computes them:
    [+], [-], [*], [/] and [<] are those of binary64, [sum] adds from
    the integer 0, left to right, and [len(students) / k] divides the two
    integers as floats.  A coordinate stays an exact rational (every
    binary64 number is one); [math.dist] is a parameter that returns a
    float. *)

Section Binary64.

(** [math.dist]. *)
Variable euclidean64 : coord → coord → float.

(** [float(n)] for a length. *)
Definition f64_of_nat (n : nat) : float :=
  PrimFloat.of_uint63 (Uint63.of_Z (Z.of_nat n)).

Definition sum64 (xs : list float) : float :=
  fold_left PrimFloat.add xs PrimFloat.zero.

Definition travel_cost64 (course : Course) (room : Room) : M rand float :=
  let teacher_cost :=
    euclidean64 (person_coord (course_teacher course)) (room_coord room) in
  let n := length (course_students course) in
  let k := Nat.min sample_cap n in
  smp <- (if (k <? n)%nat then sample (course_students course) k
         else ret (course_students course)) ;;
  let total := sum64 (map (λ s, euclidean64 (person_coord s) (room_coord room)) smp) in
  if (k =? 0)%nat then raise ZeroDivisionError
  else
    let student_cost := (total * (f64_of_nat n / f64_of_nat k))%float in
    ret (teacher_cost + student_cost)%float.

(** [min(xs, key=key)]: a later item wins only when its key is [<] the
    key of the best so far; a comparison with a NaN is false. *)
Fixpoint min_by_from64 {S A} (key : A → M S float) (best : A) (bestk : float)
    (xs : list A) : M S A :=
  match xs with
  | [] => ret best
  | x :: xs' =>
      k <- key x ;;
      if (k <? bestk)%float then min_by_from64 key x k xs'
      else min_by_from64 key best bestk xs'
  end.

Definition min_by64 {S A} (key : A → M S float) (xs : list A) : M S A :=
  match xs with
  | [] => raise ValueError
  | x :: xs' => k <- key x ;; min_by_from64 key x k xs'
  end.

(** The body of the greedy loop, lines 61-67. *)
Definition greedy_step64 (rooms : list addr) (st : greedy_state) (course : Course)
    : M rand greedy_state :=
  let h := gs_store st in
  match feasible h rooms course with
  | [] => raise (RuntimeError (course_id course) (course_timeslot course))
  | fs =>
      best_room <- min_by64 (λ a, travel_cost64 course (h a)) fs ;;
      ret (mkGreedy
             (store_set h best_room
                (set_schedule (h best_room) (course_timeslot course) (course_id course)))
             (<[course_id course := room_id (h best_room)]> (gs_allocation st)))
  end.

Definition greedy_run64 (courses : list Course) (rooms : list addr) (h : store)
    : M rand greedy_state :=
  foldM (greedy_step64 rooms) (sorted_by_size_desc courses) (mkGreedy h ∅).

Definition greedy_allocate64 (courses : list Course) (rooms : list addr) (h : store)
    : M rand (gmap string string) :=
  st <- greedy_run64 courses rooms h ;; ret (gs_allocation st).

(** The frame of a call of [local_search], with its running total as the
    float it is. *)
Record ls_frame64 : Type := mkFrame64 {
  ls64_allocation : gmap string string;
  ls64_rooms : gmap string Room;
  ls64_current : gmap string string;
  ls64_current_cost : float
}.

Definition cost_of_alloc64 (rooms : gmap string Room) (courses : list Course)
    (alloc : gmap string string) : M rand float :=
  foldM (λ acc course,
           rid <- getitem alloc (course_id course) ;;
           room <- getitem rooms rid ;;
           t <- travel_cost64 course room ;;
           ret (acc + t)%float)
        courses PrimFloat.zero.

(** One trial of the loop at lines 82-97. *)
Definition ls_step64 (courses : list Course) (fr : ls_frame64) : M rand ls_frame64 :=
  pair <- sample courses 2 ;;
  match pair with
  | [c1; c2] =>
      if bool_decide (course_timeslot c1 ≠ course_timeslot c2) then ret fr
      else
        rid1 <- getitem (ls64_current fr) (course_id c1) ;;
        r1 <- getitem (ls64_rooms fr) rid1 ;;
        rid2 <- getitem (ls64_current fr) (course_id c2) ;;
        r2 <- getitem (ls64_rooms fr) rid2 ;;
        if (room_capacity r1 <? course_size c2)%Z || (room_capacity r2 <? course_size c1)%Z
        then ret fr
        else
          t12 <- travel_cost64 c1 r2 ;;
          t21 <- travel_cost64 c2 r1 ;;
          t11 <- travel_cost64 c1 r1 ;;
          t22 <- travel_cost64 c2 r2 ;;
          let delta := (t12 + t21 - t11 - t22)%float in
          if (delta <? PrimFloat.zero)%float then
            ret (mkFrame64 (ls64_allocation fr) (ls64_rooms fr)
                   (<[course_id c2 := room_id r1]>
                      (<[course_id c1 := room_id r2]> (ls64_current fr)))
                   (ls64_current_cost fr + delta)%float)
          else ret fr
  | _ => raise ValueError
  end.

Definition local_search_run64 (allocation : gmap string string) (courses : list Course)
    (rooms : gmap string Room) (max_iter : Z) : M rand ls_frame64 :=
  let current := allocation in   (* allocation.copy() *)
  current_cost <- cost_of_alloc64 rooms courses current ;;
  iterM (Z.to_nat max_iter) (ls_step64 courses)
        (mkFrame64 allocation rooms current current_cost).

Definition local_search64 (allocation : gmap string string) (courses : list Course)
    (rooms : gmap string Room) (max_iter : Z) : M rand (gmap string string) :=
  fr <- local_search_run64 allocation courses rooms max_iter ;; ret (ls64_current fr).

End Binary64.

(** * Specification vocabulary *)

(** Whenever [m] returns, the value satisfies [Q]. *)
Definition returns {S A} (m : M S A) (Q : A → Prop) : Prop :=
  ∀ s a s', m s = OK (a, s') → Q a.

(** [m] raises from every state. *)
Definition fails {S A} (m : M S A) : Prop := ∀ s, is_Err (m s).

(** Teacher distance plus the distance of every enrolled student. *)
Definition exact_travel_cost (course : Course) (room : Room) : Q :=
  (euclidean (person_coord (course_teacher course)) (room_coord room)
   + sumQ (map (λ s, euclidean (person_coord s) (room_coord room))
              (course_students course)))%Q.

Definition exact_mode (course : Course) : Prop :=
  (length (course_students course) ≤ sample_cap)%nat.

Definition by_size_desc (c d : Course) : Prop := (course_size d ≤ course_size c)%Z.

(** A room is infeasible for a course when it is occupied at the course's
    time-slot or too small. *)
Definition occupied_or_undersized (r : Room) (course : Course) : Prop :=
  is_Some (room_schedule r !! course_timeslot course)
  ∨ (room_capacity r < course_size course)%Z.

(** The state a successful turn leaves. *)
Definition commit (st : greedy_state) (course : Course) (a : addr) : greedy_state :=
  mkGreedy
    (store_set (gs_store st) a
       (set_schedule (gs_store st a) (course_timeslot course) (course_id course)))
    (<[course_id course := room_id (gs_store st a)]> (gs_allocation st)).

(** Only the schedule of a room object is ever written. *)
Definition same_rooms (h h' : store) : Prop :=
  ∀ a, room_id (h' a) = room_id (h a)
       ∧ room_capacity (h' a) = room_capacity (h a)
       ∧ room_coord (h' a) = room_coord (h a).

(** The invariant of the greedy loop, after the courses [processed]:
    every processed course has an entry, and every entry stands for a
    processed course seated in a listed room that is large enough and whose
    schedule records the course at its time-slot. *)
Definition greedy_inv (h : store) (rooms : list addr) (processed : list Course)
    (st : greedy_state) : Prop :=
  same_rooms h (gs_store st)
  ∧ (∀ c, c ∈ processed → is_Some (gs_allocation st !! course_id c))
  ∧ (∀ cid rid, gs_allocation st !! cid = Some rid →
       ∃ c a, c ∈ processed ∧ a ∈ rooms ∧ course_id c = cid
         ∧ room_id (h a) = rid
         ∧ (course_size c ≤ room_capacity (h a))%Z
         ∧ room_schedule (gs_store st a) !! course_timeslot c = Some cid).

(** Every entry of the mapping stands for a course of that identifier
    seated in a room of that identifier that is large enough. *)
Definition entries_fit (courses : list Course) (is_room : Room → Prop)
    (alloc : gmap string string) : Prop :=
  ∀ cid rid, alloc !! cid = Some rid →
    ∃ c r, c ∈ courses ∧ is_room r ∧ course_id c = cid ∧ room_id r = rid
      ∧ (course_size c ≤ room_capacity r)%Z.

(** Every course is mapped to a room that is large enough. *)
Definition courses_fit (courses : list Course) (is_room : Room → Prop)
    (alloc : gmap string string) : Prop :=
  ∀ c, c ∈ courses →
    ∃ r, is_room r ∧ alloc !! course_id c = Some (room_id r)
      ∧ (course_size c ≤ room_capacity r)%Z.

(** No two distinct courses of one time-slot are mapped to the same room. *)
Definition no_double_booking (courses : list Course)
    (alloc : gmap string string) : Prop :=
  ∀ c1 c2 rid, c1 ∈ courses → c2 ∈ courses → c1 ≠ c2 →
    course_timeslot c1 = course_timeslot c2 →
    alloc !! course_id c1 = Some rid → alloc !! course_id c2 ≠ Some rid.

Definition complete (courses : list Course) (alloc : gmap string string) : Prop :=
  ∀ c, c ∈ courses → is_Some (alloc !! course_id c).

(** Identifiers identify. *)
Definition distinct_ids (courses : list Course) : Prop :=
  NoDup (course_id <$> courses).

Definition listed (h : store) (rooms : list addr) (r : Room) : Prop :=
  ∃ a, a ∈ rooms ∧ r = h a.

(** Two listed room objects with one identifier are one object. *)
Definition room_ids_identify (h : store) (rooms : list addr) : Prop :=
  ∀ a b, a ∈ rooms → b ∈ rooms → room_id (h a) = room_id (h b) → a = b.

(** The room lookup maps each identifier to the room of that identifier
    (the caller builds it as [{r.id: r for r in rooms}]). *)
Definition rooms_by_id (rooms : gmap string Room) : Prop :=
  ∀ k r, rooms !! k = Some r → room_id r = k.

Definition in_dict (rooms : gmap string Room) (r : Room) : Prop :=
  ∃ k, rooms !! k = Some r.

(** An accepted swap: what a trial that changes the frame has seen and
    written.  [T course room t] is what is known of a value [t] returned by
    [travel_cost course room]. *)
Inductive ls_swap (T : Course → Room → Q → Prop) (courses : list Course)
    (fr : ls_frame) : ls_frame → Prop :=
  | LsSwap c1 c2 rest rid1 rid2 r1 r2 t12 t21 t11 t22 :
      courses ≡ₚ c1 :: c2 :: rest →
      course_timeslot c1 = course_timeslot c2 →
      ls_current fr !! course_id c1 = Some rid1 →
      ls_rooms fr !! rid1 = Some r1 →
      ls_current fr !! course_id c2 = Some rid2 →
      ls_rooms fr !! rid2 = Some r2 →
      (course_size c2 ≤ room_capacity r1)%Z →
      (course_size c1 ≤ room_capacity r2)%Z →
      T c1 r2 t12 → T c2 r1 t21 → T c1 r1 t11 → T c2 r2 t22 →
      (t12 + t21 - t11 - t22 < 0)%Q →
      ls_swap T courses fr
        (mkFrame (ls_allocation fr) (ls_rooms fr)
           (<[course_id c2 := room_id r1]>
              (<[course_id c1 := room_id r2]> (ls_current fr)))
           (ls_current_cost fr + (t12 + t21 - t11 - t22))%Q).

Definition any_cost (c : Course) (r : Room) (t : Q) : Prop := True.

(** The cost of an allocation when nothing is sampled. *)
Definition assignment_cost (rooms : gmap string Room) (alloc : gmap string string)
    (c : Course) : Q :=
  match alloc !! course_id c ≫= (rooms !!.) with
  | Some r => exact_travel_cost c r
  | None => 0%Q
  end.

Definition alloc_cost (rooms : gmap string Room) (courses : list Course)
    (alloc : gmap string string) : Q :=
  sumQ (assignment_cost rooms alloc <$> courses).

(** Every course has an entry that names a known room. *)
Definition assigned (rooms : gmap string Room) (courses : list Course)
    (alloc : gmap string string) : Prop :=
  ∀ c, c ∈ courses → ∃ rid r, alloc !! course_id c = Some rid ∧ rooms !! rid = Some r.

Definition cost_term (rooms : gmap string Room) (alloc : gmap string string)
    (acc : Q) (course : Course) : M rand Q :=
  rid <- getitem alloc (course_id course) ;;
  room <- getitem rooms rid ;;
  t <- travel_cost course room ;;
  ret (acc + t)%Q.

Definition forget_schedule (r : Room) : Room :=
  mkRoom (room_id r) (room_capacity r) (room_coord r) ∅.

Definition forget_frame (fr : ls_frame) : ls_frame :=
  mkFrame (ls_allocation fr) (forget_schedule <$> ls_rooms fr)
          (ls_current fr) (ls_current_cost fr).

Definition fmapM {S A B} (f : A → B) (m : M S A) : M S B :=
  λ s, match m s with
       | OK (a, s') => OK (f a, s')
       | Err e => Err e
       end.

(** The caller's room lookup, [{r.id: r for r in rooms}]. *)
Definition rooms_dict (rooms : list Room) : gmap string Room :=
  foldl (λ d r, <[room_id r := r]> d) ∅ rooms.

Section GeneticSpec.

Variable courses : list Course.
Variable rooms : list Room.

Local Abbreviation n_courses := (n_courses courses).
Local Abbreviation feasible_rooms := (feasible_rooms courses rooms).

(** One gene per course, each the index of a room of the course's list. *)
Definition valid_chrom (c : chrom) : Prop :=
  Forall2 (λ fr g, g ∈ fr) feasible_rooms c.

(** What the reproduction loop makes of a pair of parents. *)
Definition children_of (p1 p2 c1 c2 : chrom) : Prop :=
  (c1 = p1 ∧ c2 = p2)
  ∨ ∃ cut, (1 ≤ cut < n_courses)%nat
      ∧ c1 = take cut p1 ++ drop cut p2 ∧ c2 = take cut p2 ++ drop cut p1.

(** [paired parents starts offspring]: the offspring list holds, for each start
    index [i] of [starts] in turn, the two children of [parents[i]] and
    [parents[i + 1]]. *)
Inductive paired (parents : list chrom) : list nat → list chrom → Prop :=
  | paired_nil : paired parents [] []
  | paired_snoc starts offspring i p1 p2 c1 c2 :
      paired parents starts offspring →
      parents !! i = Some p1 → parents !! (i + 1)%nat = Some p2 →
      children_of p1 p2 c1 c2 →
      paired parents (starts ++ [i]) (offspring ++ [c1; c2]).

Definition key_le {A} (a b : Q * A) : Prop := (a.1 <= b.1)%Q.

Definition gene_fits (course : Course) (idx : nat) : Prop :=
  ∃ r, rooms !! idx = Some r ∧ (course_size course ≤ room_capacity r)%Z.

Definition gene_cost (ig : nat * nat) : Q :=
  match courses !! ig.1, rooms !! ig.2 with
  | Some c, Some r => exact_travel_cost c r
  | _, _ => 0%Q
  end.

(** The fitness of a chromosome when nothing is sampled. *)
Definition exact_fitness (c : chrom) : Q := sumQ (gene_cost <$> imap pair c).

Definition fitness_term (acc : Q) (ig : nat * nat) : M gen_state Q :=
  course <- index courses ig.1 ;;
  room <- index rooms ig.2 ;;
  t <- on_fst (travel_cost course room) ;;
  ret (acc + t)%Q.

(** Elitism: for each individual, the next population holds one that is
    at least as good. *)
Definition no_worse (pop pop' : list chrom) : Prop :=
  ∀ x, x ∈ pop → ∃ y, y ∈ pop' ∧ (exact_fitness y <= exact_fitness x)%Q.

(** The best (least) fitness of a population, if it has a member. *)
Definition best_fitness (pop : list chrom) : option Q :=
  least (exact_fitness <$> pop).

End GeneticSpec.

(** ** Vocabulary of the further properties *)

(** From [h] to [h']: the rooms that are not listed are untouched, and no
    schedule entry is lost or rewritten. *)
Definition schedules_grow (rooms : list addr) (h h' : store) : Prop :=
  (∀ a, a ∉ rooms → h' a = h a)
  ∧ (∀ a t v, room_schedule (h a) !! t = Some v →
              room_schedule (h' a) !! t = Some v).

(** What the greedy loop has done to the store after the courses
    [processed]: the schedules have grown by entries of processed courses
    only, and every entry of the mapping stands for a processed course
    seated in a listed room that was free at the course's time-slot and
    large enough before the call. *)
Definition greedy_trace (h : store) (rooms : list addr) (processed : list Course)
    (st : greedy_state) : Prop :=
  same_rooms h (gs_store st)
  ∧ schedules_grow rooms h (gs_store st)
  ∧ (∀ a t v, room_schedule (gs_store st a) !! t = Some v →
       room_schedule (h a) !! t = Some v
       ∨ ∃ c, c ∈ processed ∧ course_timeslot c = t ∧ course_id c = v)
  ∧ (∀ cid rid, gs_allocation st !! cid = Some rid →
       ∃ c a, c ∈ processed ∧ a ∈ rooms ∧ course_id c = cid
         ∧ room_id (h a) = rid
         ∧ is_available (h a) (course_timeslot c) (course_size c) = true).

(** A computation that neither reads nor advances its state: one outcome,
    from every state. *)
Definition stateless {S A} (m : M S A) : Prop :=
  ∃ r : A + exn, ∀ s, m s = match r with inl a => OK (a, s) | inr e => Err e end.

(** What the initial cost evaluation of [local_search] needs of a course:
    a student, an entry in the allocation and a room under that entry. *)
Definition costed (rooms : gmap string Room) (alloc : gmap string string)
    (c : Course) : Prop :=
  course_students c ≠ []
  ∧ ∃ rid r, alloc !! course_id c = Some rid ∧ rooms !! rid = Some r.

(** The room of each course next to the course's time-slot, in the order
    of the course list. *)
Definition slot_rooms (courses : list Course) (alloc : gmap string string)
    : list (Z * option string) :=
  (λ c, (course_timeslot c, alloc !! course_id c)) <$> courses.

(** Two room objects of the list with one identifier are one object. *)
Definition ids_identify_rooms (rooms : list Room) : Prop :=
  ∀ r r', r ∈ rooms → r' ∈ rooms → room_id r = room_id r' → r = r'.

(** The three calls of the demonstration (lines 196-202), on one course
    list and on the same room objects: [greedy_allocate], [local_search]
    from its result with the lookup [{r.id: r for r in rooms}], then
    [genetic_allocate] on the rooms as the greedy call has left them. *)
Record methods_run : Type := mkMethods {
  mr_greedy : greedy_state;   (* the greedy allocation and the room objects *)
  mr_local : gmap string string;
  mr_genetic : gmap string string
}.

Definition run_methods (courses : list Course) (rooms : list addr) (h : store)
    (max_iter pop_size generations : Z) (crossover_rate mutation_rate : Q)
    : M gen_state methods_run :=
  st <- on_fst (greedy_run courses rooms h) ;;
  let objects := gs_store st <$> rooms in
  local_alloc <- on_fst (local_search (gs_allocation st) courses
                           (rooms_dict objects) max_iter) ;;
  genetic_alloc <- genetic_allocate courses objects pop_size generations
                     crossover_rate mutation_rate ;;
  ret (mkMethods st local_alloc genetic_alloc).

(** The calls as the demonstration writes them, with the default
    parameters of the two searches. *)
Definition main_methods (courses : list Course) (rooms : list addr) (h : store)
    : M gen_state methods_run :=
  run_methods courses rooms h 10000 50 200 (4 # 5) (1 # 5).

(** [total_cost(alloc)] of lines 205-206. *)
Definition total_cost (courses : list Course) (rooms : list Room)
    (alloc : gmap string string) : M rand Q :=
  cost_of_alloc (rooms_dict rooms) courses alloc.

(** ** Vocabulary of the binary64 properties *)

Section Binary64Spec.

Variable euclidean64 : coord → coord → float.

(** What [travel_cost64] computes when the whole roster is summed. *)
Definition full_travel_cost64 (course : Course) (room : Room) : float :=
  let n := length (course_students course) in
  (euclidean64 (person_coord (course_teacher course)) (room_coord room)
   + sum64 (map (λ s, euclidean64 (person_coord s) (room_coord room))
              (course_students course))
     * (f64_of_nat n / f64_of_nat (Nat.min sample_cap n)))%float.

(** The delta of line 91-94 for courses [c1] in [r1] and [c2] in [r2], as
    the code computes it. *)
Definition swap_delta64 (c1 c2 : Course) (r1 r2 : Room) : float :=
  (full_travel_cost64 c1 r2 + full_travel_cost64 c2 r1
   - full_travel_cost64 c1 r1 - full_travel_cost64 c2 r2)%float.

(** An accepted swap of the binary64 loop: two courses of one time-slot
    whose rooms hold each other's course, a computed delta below zero, and
    the delta added to the running total. *)
Inductive ls_swap64 (courses : list Course) (fr : ls_frame64) : ls_frame64 → Prop :=
  | LsSwap64 c1 c2 rest rid1 rid2 r1 r2 :
      courses ≡ₚ c1 :: c2 :: rest →
      course_timeslot c1 = course_timeslot c2 →
      ls64_current fr !! course_id c1 = Some rid1 →
      ls64_rooms fr !! rid1 = Some r1 →
      ls64_current fr !! course_id c2 = Some rid2 →
      ls64_rooms fr !! rid2 = Some r2 →
      (course_size c2 ≤ room_capacity r1)%Z →
      (course_size c1 ≤ room_capacity r2)%Z →
      (swap_delta64 c1 c2 r1 r2 <? PrimFloat.zero)%float = true →
      ls_swap64 courses fr
        (mkFrame64 (ls64_allocation fr) (ls64_rooms fr)
           (<[course_id c2 := room_id r1]>
              (<[course_id c1 := room_id r2]> (ls64_current fr)))
           (ls64_current_cost fr + swap_delta64 c1 c2 r1 r2)%float).

End Binary64Spec.

(** A float that is not a NaN. *)
Definition is_number (x : float) : Prop := (x =? x)%float = true.

(** * Data of the concrete runs

    The runs place every point on the horizontal axis, where the
    Euclidean distance is the absolute difference of the abscissas. *)

Definition line_dist (a b : coord) : Q := Qabs (a.1 - b.1).

Definition at_x (name : string) (x : Z) : Person := mkPerson name (inject_Z x, 0%Q).

Definition room_at (name : string) (capacity x : Z) : Room :=
  mkRoom name capacity (inject_Z x, 0%Q) ∅.

(** Two rooms of capacities 50 and 100, two courses of sizes 40 and 90 in
    one time-slot. *)
Definition R1 : Room := room_at "R1" 50 0.

Definition R2 : Room := room_at "R2" 100 10.

Definition two_rooms : store := λ a, match a with O => R1 | _ => R2 end.

Definition course_A : Course :=
  mkCourse "A" 40 (at_x "T1" 0) [at_x "S1" 1; at_x "S2" 2] 0.

Definition course_B : Course :=
  mkCourse "B" 90 (at_x "T2" 0) [at_x "S3" 1; at_x "S4" 2] 0.

Definition A_in_R1_B_in_R2 : gmap string string := <["A" := "R1"]> (<["B" := "R2"]> ∅).

(** A course with no enrolled student, and one room that fits it. *)
Definition empty_course : Course := mkCourse "E" 0 (at_x "T1" 0) [] 0.

(** A course larger than every room. *)
Definition oversized_course : Course :=
  mkCourse "X" 200 (at_x "T1" 0) [at_x "S1" 1] 0.

(** Two courses of one time-slot, each seated far from its people: local
    search swaps them. *)
Definition course_C : Course :=
  mkCourse "C" 40 (at_x "T1" 10) [at_x "S1" 11; at_x "S2" 12] 0.

Definition course_D : Course :=
  mkCourse "D" 50 (at_x "T2" 0) [at_x "S3" 1; at_x "S4" 2] 0.

Definition C_in_R1_D_in_R2 : gmap string string := <["C" := "R1"]> (<["D" := "R2"]> ∅).

Definition C_in_R2_D_in_R1 : gmap string string := <["C" := "R2"]> (<["D" := "R1"]> ∅).

(** Four copies of the worse assignment; every mutation of the first
    generation moves course C to the nearer room. *)
Definition rng_draws : rand :=
  [0; 1; 0; 1; 0; 1; 0; 1;  0; 0; 0; 0;  0; 0; 1; 0; 0; 1; 0; 0; 1; 0; 0; 1]%N.

(** The same rooms with course D already on the schedule of R1. *)
Definition R1_busy : Room := set_schedule R1 0 "D".

(** A third room, between the two others. *)
Definition R3 : Room := room_at "R3" 100 5.

Definition three_rooms : store :=
  λ a, match a with O => R1 | S O => R2 | _ => R3 end.

(** A roster of 31, one more than the sample cap. *)
Definition crowded_course : Course :=
  mkCourse "M" 31 (at_x "T1" 0) (replicate 31 (at_x "S" 1)) 0.

(** Course C alone on the allocation: course D has no entry. *)
Definition C_in_R1 : gmap string string := <["C" := "R1"]> ∅.

(** A large course in a time-slot of its own. *)
Definition course_F : Course :=
  mkCourse "F" 90 (at_x "T2" 0) [at_x "S3" 1; at_x "S4" 2] 1.

(** Binary64 runs.  On the horizontal axis [math.dist] is the absolute
    value of the rounded difference of the abscissas. *)
Definition f64_of_Z (z : Z) : float :=
  match z with
  | Z0 => PrimFloat.zero
  | Zpos _ => PrimFloat.of_uint63 (Uint63.of_Z z)
  | Zneg p => (- PrimFloat.of_uint63 (Uint63.of_Z (Zpos p)))%float
  end.

Definition f64_of_Q (q : Q) : float :=
  (f64_of_Z (Qnum q) / f64_of_Z (Zpos (Qden q)))%float.

Definition line_dist64 (a b : coord) : float :=
  PrimFloat.abs (f64_of_Q a.1 - f64_of_Q b.1)%float.

(** Three rooms at 0, 1 and 100, and three courses of one time-slot with
    one student each: one whose people are at 0, one whose student is at
    -2^55, one with its teacher at 1 and its student at 3. *)
Definition Ra : Room := room_at "Ra" 100 0.
Definition Rb : Room := room_at "Rb" 100 1.
Definition Rc : Room := room_at "Rc" 100 100.

Definition near_course : Course :=
  mkCourse "N" 10 (at_x "T1" 0) [at_x "S1" 0] 0.

Definition far_course : Course :=
  mkCourse "F" 10 (at_x "T2" 0) [at_x "S2" (- 2 ^ 55)] 0.

Definition mid_course : Course :=
  mkCourse "K" 10 (at_x "T3" 1) [at_x "S3" 3] 0.

Definition N_in_Rc_F_in_Ra_K_in_Rb : gmap string string :=
  <["N" := "Rc"]> (<["F" := "Ra"]> (<["K" := "Rb"]> ∅)).

(** * Properties *)

(** ** Reasoning rules of the monad *)

Lemma bind_OK {S A B} (m : M S A) (f : A → M S B) s r :
  bind m f s = OK r ↔ ∃ a s', m s = OK (a, s') ∧ f a s' = OK r.
Proof.
  unfold bind. split.
  - destruct (m s) as [[a s']|e]; [eauto | discriminate].
  - intros (a & s' & -> & H). exact H.
Qed.

Lemma bind_Err {S A B} (m : M S A) (f : A → M S B) s e :
  bind m f s = Err e ↔
  m s = Err e ∨ ∃ a s', m s = OK (a, s') ∧ f a s' = Err e.
Proof.
  unfold bind. split.
  - destruct (m s) as [[a s']|e']; [right; eauto | left; congruence].
  - intros [-> | (a & s' & -> & H)]; [reflexivity | exact H].
Qed.

Lemma returns_ret {S A} (a : A) (Q : A → Prop) : Q a → returns (S:=S) (ret a) Q.
Proof. intros H s b s' [= <- <-]. exact H. Qed.

Lemma returns_raise {S A} e (Q : A → Prop) : returns (S:=S) (raise e) Q.
Proof. intros s b s' [=]. Qed.

Lemma returns_bind {S A B} (m : M S A) (f : A → M S B) (P : A → Prop) (Q : B → Prop) :
  returns m P → (∀ a, P a → returns (f a) Q) → returns (bind m f) Q.
Proof.
  intros Hm Hf s b s'' (a & s' & H1 & H2)%bind_OK.
  eapply Hf; [eapply Hm|]; eassumption.
Qed.

Lemma returns_weaken {S A} (m : M S A) (P Q : A → Prop) :
  returns m P → (∀ a, P a → Q a) → returns m Q.
Proof. intros Hm HPQ s a s' H. eapply HPQ, Hm, H. Qed.

Lemma returns_and {S A} (m : M S A) (P Q : A → Prop) :
  returns m P → returns m Q → returns m (λ a, P a ∧ Q a).
Proof. intros HP HQ s a s' H. split; [eapply HP | eapply HQ]; exact H. Qed.

Lemma returns_on_fst {S T A} (m : M S A) (Q : A → Prop) :
  returns m Q → returns (on_fst (T:=T) m) Q.
Proof.
  intros Hm [s t] a [s' t'] H. unfold on_fst in H. simpl in H.
  destruct (m s) as [[a0 s0]|e] eqn:E; [|discriminate].
  injection H as <- <- <-. eapply Hm, E.
Qed.

Lemma returns_on_snd {S T A} (m : M T A) (Q : A → Prop) :
  returns m Q → returns (on_snd (S:=S) m) Q.
Proof.
  intros Hm [s t] a [s' t'] H. unfold on_snd in H. simpl in H.
  destruct (m t) as [[a0 t0]|e] eqn:E; [|discriminate].
  injection H as <- <- <-. eapply Hm, E.
Qed.

Lemma returns_mapM {S A B} (f : A → M S B) (P : A → B → Prop) xs :
  (∀ x, x ∈ xs → returns (f x) (P x)) →
  returns (mapM f xs) (λ ys, Forall2 P xs ys).
Proof.
  induction xs as [|x xs IH]; intros Hf; simpl.
  - apply returns_ret. constructor.
  - eapply returns_bind; [apply Hf; left|]. intros y Hy.
    eapply returns_bind; [apply IH; intros; apply Hf; by right|].
    intros ys Hys. apply returns_ret. by constructor.
Qed.

Lemma returns_replicateM {S A} n (m : M S A) (P : A → Prop) :
  returns m P → returns (replicateM n m) (λ xs, length xs = n ∧ Forall P xs).
Proof.
  intros Hm. induction n as [|n IH]; simpl.
  - apply returns_ret. by split.
  - eapply returns_bind; [exact Hm|]. intros x Hx.
    eapply returns_bind; [exact IH|]. intros xs [Hl Hxs].
    apply returns_ret. split; [simpl; by f_equal | by constructor].
Qed.

(** A loop invariant indexed by the items already processed. *)
Lemma returns_foldM_prefix {S A B} (f : B → A → M S B) (I : list A → B → Prop)
    (done xs : list A) (b : B) :
  I done b →
  (∀ pre x post b, done ++ xs = pre ++ x :: post → I pre b →
     returns (f b x) (I (pre ++ [x]))) →
  returns (foldM f xs b) (I (done ++ xs)).
Proof.
  revert done b. induction xs as [|x xs IH]; intros done b Hb Hstep; simpl.
  - rewrite app_nil_r. by apply returns_ret.
  - eapply returns_bind; [apply (Hstep done x xs); [reflexivity | exact Hb]|].
    intros b' Hb'. replace (done ++ x :: xs) with ((done ++ [x]) ++ xs)
      by (by rewrite <- app_assoc).
    apply IH; [exact Hb'|]. intros pre y post b0 Heq. apply (Hstep pre y post).
    by rewrite <- Heq, <- app_assoc.
Qed.

Lemma returns_foldM {S A B} (f : B → A → M S B) (I : B → Prop) xs b :
  I b → (∀ b x, x ∈ xs → I b → returns (f b x) I) →
  returns (foldM f xs b) I.
Proof.
  intros Hb Hstep.
  apply (returns_foldM_prefix f (λ _, I) [] xs b Hb).
  intros pre x post b0 Heq Hb0. apply Hstep; [|exact Hb0]. simpl in Heq. rewrite Heq.
  apply elem_of_app. right. left.
Qed.

Lemma returns_iterM {S B} n (f : B → M S B) (I : B → Prop) b :
  I b → (∀ b, I b → returns (f b) I) → returns (iterM n f b) I.
Proof.
  intros Hb Hstep. revert b Hb. induction n as [|n IH]; intros b Hb; simpl.
  - by apply returns_ret.
  - eapply returns_bind; [by apply Hstep|]. intros b' Hb'. by apply IH.
Qed.

Lemma returns_getitem {S V} (d : gmap string V) k :
  returns (S:=S) (getitem d k) (λ v, d !! k = Some v).
Proof.
  unfold getitem. destruct (d !! k); [by apply returns_ret | apply returns_raise].
Qed.

Lemma returns_index {S A} (xs : list A) i :
  returns (S:=S) (index xs i) (λ x, xs !! i = Some x).
Proof.
  unfold index. destruct (xs !! i); [by apply returns_ret | apply returns_raise].
Qed.

Lemma fails_raise {S A} e : fails (S:=S) (A:=A) (raise e).
Proof. intros s. by exists e. Qed.

Lemma fails_bind_l {S A B} (m : M S A) (f : A → M S B) :
  fails m → fails (bind m f).
Proof. intros Hm s. destruct (Hm s) as [e He]. exists e. unfold bind. by rewrite He. Qed.

Lemma fails_bind_r {S A B} (m : M S A) (f : A → M S B) :
  (∀ a, fails (f a)) → fails (bind m f).
Proof.
  intros Hf s. unfold bind. destruct (m s) as [[a s']|e]; [apply Hf | by exists e].
Qed.

Lemma fails_bind_post {S A B} (m : M S A) (f : A → M S B) (P : A → Prop) :
  returns m P → (∀ a, P a → fails (f a)) → fails (bind m f).
Proof.
  intros Hm Hf s. unfold bind. destruct (m s) as [[a s']|e] eqn:E; [|by exists e].
  apply Hf. eapply Hm, E.
Qed.

(** ** The random source *)

Lemma next_draw_total g : ∃ d g', next_draw g = OK (d, g').
Proof. destruct g; simpl; eauto. Qed.

Lemma randbelow_total n g : ∃ j g', randbelow n g = OK (j, g').
Proof.
  unfold randbelow, bind, ret. destruct (next_draw_total g) as (d & g' & ->). eauto.
Qed.

Lemma returns_randbelow n : (0 < n)%nat → returns (randbelow n) (λ j, (j < n)%nat).
Proof.
  intros Hn g j g' H. unfold randbelow, bind, ret in H.
  destruct (next_draw_total g) as (d & g1 & E). rewrite E in H.
  injection H as <- <-.
  assert (d mod N.of_nat n < N.of_nat n)%N by (apply N.mod_lt; lia).
  cbv beta. lia.
Qed.

Lemma returns_choice {A} (xs : list A) : returns (choice xs) (λ x, x ∈ xs).
Proof.
  unfold choice. destruct xs as [|x0 xs0]; [apply returns_raise|].
  eapply returns_bind; [apply returns_randbelow; simpl; lia|].
  intros j _. destruct ((x0 :: xs0) !! j) as [x|] eqn:E.
  - apply returns_ret. eapply list_elem_of_lookup_2, E.
  - apply returns_raise.
Qed.

Lemma returns_randrange a b : returns (randrange a b) (λ j, (a ≤ j < b)%nat).
Proof.
  unfold randrange. destruct (a <? b)%nat eqn:E; [|apply returns_raise].
  apply Nat.ltb_lt in E.
  eapply returns_bind; [apply returns_randbelow; lia|].
  intros j Hj. apply returns_ret. cbv beta in Hj. lia.
Qed.

Lemma returns_sample_pool {A} (pool : list A) k :
  returns (sample_pool pool k)
          (λ l, length l = k ∧ ∃ rest, pool ≡ₚ l ++ rest).
Proof.
  revert pool. induction k as [|k IH]; intros pool; simpl.
  - apply returns_ret. split; [done|]. by exists pool.
  - eapply returns_bind with (P := λ _, True); [by intros ????|].
    intros j _. destruct (pool !! j) as [x|] eqn:E; [|apply returns_raise].
    eapply returns_bind; [apply IH|]. intros l [Hl [rest Hrest]].
    apply returns_ret. split; [simpl; by f_equal|].
    exists rest. simpl. rewrite <- Hrest. by apply delete_Permutation.
Qed.

Lemma returns_sample {A} (population : list A) k :
  returns (sample population k)
          (λ l, length l = k ∧ ∃ rest, population ≡ₚ l ++ rest).
Proof.
  unfold sample. destruct (length population <? k)%nat; [apply returns_raise|].
  apply returns_sample_pool.
Qed.

Lemma sample_pool_total {A} (pool : list A) k g :
  (k ≤ length pool)%nat → ∃ l g', sample_pool pool k g = OK (l, g').
Proof.
  revert pool g. induction k as [|k IH]; intros pool g Hk; simpl.
  - unfold ret. eauto.
  - unfold bind at 1. destruct (randbelow_total (length pool) g) as (j & g1 & E).
    rewrite E. assert (Hj : (j < length pool)%nat).
    { eapply (returns_randbelow (length pool)); [lia | exact E]. }
    destruct (lookup_lt_is_Some_2 pool j Hj) as [x ->].
    destruct (IH (delete j pool) g1) as (l & g' & E').
    { rewrite length_delete; [lia | by apply lookup_lt_is_Some_2]. }
    unfold bind, ret. rewrite E'. eauto.
Qed.

(** ** Cost model *)

Lemma travel_cost_empty course room g :
  course_students course = [] → travel_cost course room g = Err ZeroDivisionError.
Proof. intros H. unfold travel_cost. rewrite H. reflexivity. Qed.

Lemma scale_one (n : nat) (x : Q) :
  n ≠ 0%nat → (x * (inject_Z (Z.of_nat n) / inject_Z (Z.of_nat n)) == x)%Q.
Proof.
  intros Hn. assert (¬ (inject_Z (Z.of_nat n) == 0)%Q).
  { unfold Qeq, inject_Z. simpl. lia. }
  field. assumption.
Qed.

Lemma travel_cost_exact course room g :
  course_students course ≠ [] → exact_mode course →
  ∃ v, travel_cost course room g = OK (v, g) ∧ (v == exact_travel_cost course room)%Q.
Proof.
  unfold exact_mode, travel_cost, exact_travel_cost. intros Hne Hle.
  destruct (course_students course) as [|s0 ss] eqn:E; [done|].
  set (n := length (s0 :: ss)) in *.
  assert (Hn : n ≠ 0%nat) by (subst n; simpl; lia).
  rewrite Nat.min_r by exact Hle. rewrite Nat.ltb_irrefl.
  unfold bind, ret. destruct (Nat.eqb_spec n 0) as [?|_]; [done|].
  eexists. split; [reflexivity|]. by rewrite scale_one.
Qed.

Lemma travel_cost_total course room g :
  course_students course ≠ [] → ∃ v g', travel_cost course room g = OK (v, g').
Proof.
  intros Hne. unfold travel_cost.
  set (n := length (course_students course)).
  assert (Hn : n ≠ 0%nat) by (subst n; destruct (course_students course); simpl; done).
  assert (Hk : Nat.min sample_cap n ≠ 0%nat) by (unfold sample_cap; lia).
  unfold bind. destruct (Nat.min sample_cap n <? n)%nat.
  - unfold sample. fold n. destruct (Nat.ltb_spec n (Nat.min sample_cap n)); [lia|].
    destruct (sample_pool_total (course_students course) (Nat.min sample_cap n) g)
      as (l & g' & ->); [fold n; lia|].
    destruct (Nat.eqb_spec (Nat.min sample_cap n) 0); [done|]. unfold ret. eauto.
  - unfold ret. destruct (Nat.eqb_spec (Nat.min sample_cap n) 0); [done|]. eauto.
Qed.

Lemma travel_cost_Err course room g e :
  travel_cost course room g = Err e →
  e = ZeroDivisionError ∧ course_students course = [].
Proof.
  intros H. destruct (course_students course) as [|s0 ss] eqn:E.
  - rewrite travel_cost_empty in H by exact E. by injection H as <-.
  - destruct (travel_cost_total course room g) as (v & g' & H'); [by rewrite E|].
    congruence.
Qed.

Lemma fails_travel_cost course room :
  course_students course = [] → fails (travel_cost course room).
Proof. intros H g. exists ZeroDivisionError. by apply travel_cost_empty. Qed.

Lemma returns_travel_cost_exact course room :
  exact_mode course →
  returns (travel_cost course room) (λ v, (v == exact_travel_cost course room)%Q).
Proof.
  intros Hx g v g' H. destruct (course_students course) as [|s0 ss] eqn:E.
  - rewrite travel_cost_empty in H by exact E. discriminate.
  - destruct (travel_cost_exact course room g) as (v' & H' & Hv); [by rewrite E|done|].
    congruence.
Qed.

(** ** Loops and minima *)

Lemma foldM_app {S A B} (f : B → A → M S B) xs ys b s :
  foldM f (xs ++ ys) b s = bind (foldM f xs b) (foldM f ys) s.
Proof.
  revert b s. induction xs as [|x xs IH]; intros b s; simpl; [done|].
  unfold bind in *. destruct (f b x s) as [[b' s']|e]; [apply IH | done].
Qed.

Lemma foldM_Err_iff {S A B} (f : B → A → M S B) xs b s e :
  foldM f xs b s = Err e ↔
  ∃ pre x post b' s', xs = pre ++ x :: post ∧
    foldM f pre b s = OK (b', s') ∧ f b' x s' = Err e.
Proof.
  split.
  - revert b s. induction xs as [|x xs IH]; intros b s; simpl; [done|].
    intros [H | (b1 & s1 & H1 & H2)]%bind_Err.
    + exists [], x, xs, b, s. done.
    + destruct (IH _ _ H2) as (pre & y & post & b' & s' & -> & Hpre & Hy).
      exists (x :: pre), y, post, b', s'. split; [done|]. split; [|done].
      simpl. apply bind_OK. eauto.
  - intros (pre & x & post & b' & s' & -> & Hpre & Hx).
    rewrite foldM_app. apply bind_Err. right. exists b', s'. split; [done|].
    simpl. apply bind_Err. by left.
Qed.

Lemma returns_min_by_from {S A} (key : A → M S Q) best bestk xs :
  returns (min_by_from key best bestk xs) (λ x, x = best ∨ x ∈ xs).
Proof.
  revert best bestk. induction xs as [|x xs IH]; intros best bestk; simpl.
  - apply returns_ret. by left.
  - eapply returns_bind with (P := λ _, True); [by intros ????|]. intros k _.
    destruct (Qlt_le_dec k bestk).
    + eapply returns_weaken; [apply IH|]. intros y [->|Hy]; right; [left | by right].
    + eapply returns_weaken; [apply IH|]. intros y [->|Hy]; [by left | right; by right].
Qed.

Lemma returns_min_by {S A} (key : A → M S Q) xs :
  returns (min_by key xs) (λ x, x ∈ xs).
Proof.
  destruct xs as [|x xs]; simpl; [apply returns_raise|].
  eapply returns_bind with (P := λ _, True); [by intros ????|]. intros k _.
  eapply returns_weaken; [apply returns_min_by_from|].
  intros y [->|Hy]; [left | by right].
Qed.

Lemma min_by_from_total {S A} (key : A → M S Q) best bestk xs s :
  (∀ x s, x ∈ xs → ∃ v s', key x s = OK (v, s')) →
  ∃ y s', min_by_from key best bestk xs s = OK (y, s').
Proof.
  revert best bestk s. induction xs as [|x xs IH]; intros best bestk s Hkey; simpl.
  - unfold ret. eauto.
  - destruct (Hkey x s) as (v & s1 & E); [left|].
    unfold bind. rewrite E.
    destruct (Qlt_le_dec v bestk); apply IH; intros; apply Hkey; by right.
Qed.

Lemma min_by_total {S A} (key : A → M S Q) xs s :
  xs ≠ [] → (∀ x s, x ∈ xs → ∃ v s', key x s = OK (v, s')) →
  ∃ y s', min_by key xs s = OK (y, s').
Proof.
  destruct xs as [|x xs]; [done|]. intros _ Hkey. simpl.
  destruct (Hkey x s) as (v & s1 & E); [left|]. unfold bind. rewrite E.
  apply min_by_from_total. intros; apply Hkey; by right.
Qed.

Lemma min_by_from_Err {S A} (key : A → M S Q) best bestk xs s e :
  min_by_from key best bestk xs s = Err e → ∃ x s1, x ∈ xs ∧ key x s1 = Err e.
Proof.
  revert best bestk s. induction xs as [|x xs IH]; intros best bestk s; simpl; [done|].
  intros [H | (k & s1 & H1 & H2)]%bind_Err.
  - exists x, s. split; [left | done].
  - destruct (Qlt_le_dec k bestk); destruct (IH _ _ _ H2) as (y & s2 & Hy & E);
      exists y, s2; (split; [by right | done]).
Qed.

Lemma min_by_Err {S A} (key : A → M S Q) xs s e :
  min_by key xs s = Err e →
  (xs = [] ∧ e = ValueError) ∨ ∃ x s1, x ∈ xs ∧ key x s1 = Err e.
Proof.
  destruct xs as [|x xs]; simpl.
  - intros [= <-]. by left.
  - intros [H | (k & s1 & H1 & H2)]%bind_Err; right.
    + exists x, s. split; [left | done].
    + destruct (min_by_from_Err _ _ _ _ _ _ H2) as (y & s2 & Hy & E).
      exists y, s2. split; [by right | done].
Qed.

(** ** 1. Greedy allocation *)

Lemma insert_by_size_perm c l : insert_by_size c l ≡ₚ c :: l.
Proof.
  induction l as [|d l IH]; simpl; [done|].
  destruct (course_size c <? course_size d)%Z; [|done].
  rewrite IH. apply Permutation_swap.
Qed.

Lemma sorted_by_size_desc_perm courses : sorted_by_size_desc courses ≡ₚ courses.
Proof.
  induction courses as [|c l IH]; simpl; [done|].
  rewrite insert_by_size_perm. by rewrite IH.
Qed.

Lemma insert_by_size_sorted c l :
  StronglySorted by_size_desc l → StronglySorted by_size_desc (insert_by_size c l).
Proof.
  induction 1 as [|d l Hl IH Hd]; simpl; [repeat constructor|].
  destruct (Z.ltb_spec (course_size c) (course_size d)).
  - constructor; [exact IH|].
    rewrite insert_by_size_perm. constructor; [unfold by_size_desc; lia | exact Hd].
  - constructor; [by constructor|]. constructor; [exact H|].
    eapply Forall_impl; [exact Hd|]. unfold by_size_desc. intros; lia.
Qed.

Lemma sorted_by_size_desc_sorted courses :
  StronglySorted by_size_desc (sorted_by_size_desc courses).
Proof.
  induction courses as [|c l IH]; simpl; [constructor|].
  by apply insert_by_size_sorted.
Qed.

Lemma is_available_false r course :
  is_available r (course_timeslot course) (course_size course) = false ↔
  occupied_or_undersized r course.
Proof.
  unfold is_available, occupied_or_undersized.
  rewrite andb_false_iff, bool_decide_eq_false, Z.leb_gt.
  rewrite <- not_eq_None_Some. done.
Qed.

Lemma feasible_nil h rooms course :
  feasible h rooms course = [] ↔
  ∀ a, a ∈ rooms → occupied_or_undersized (h a) course.
Proof.
  unfold feasible. split.
  - intros Hnil a Ha. apply is_available_false.
    destruct (is_available _ _ _) eqn:E; [|done].
    exfalso. eapply (filter_nil_not_elem_of _ _ a Hnil); [|exact Ha].
    by rewrite E.
  - intros Hall. induction rooms as [|a rooms IH]; [done|].
    rewrite filter_cons.
    assert (Ha : is_available (h a) (course_timeslot course) (course_size course) = false).
    { apply is_available_false, Hall. left. }
    rewrite Ha. simpl. apply IH. intros b Hb. apply Hall. by right.
Qed.

Lemma returns_greedy_step rooms st course :
  returns (greedy_step rooms st course)
    (λ st', ∃ a, a ∈ rooms
       ∧ is_available (gs_store st a) (course_timeslot course) (course_size course) = true
       ∧ st' = commit st course a).
Proof.
  unfold greedy_step.
  destruct (feasible (gs_store st) rooms course) as [|a0 fs] eqn:E; [apply returns_raise|].
  eapply returns_bind; [apply returns_min_by|]. intros a Ha.
  apply returns_ret. exists a. rewrite <- E in Ha.
  apply list_elem_of_filter in Ha as [Hav Hin].
  split; [exact Hin|]. split; [by apply Is_true_true|done].
Qed.

Lemma greedy_step_infeasible rooms st course g :
  feasible (gs_store st) rooms course = [] →
  greedy_step rooms st course g
  = Err (RuntimeError (course_id course) (course_timeslot course)).
Proof. intros H. unfold greedy_step. by rewrite H. Qed.

Lemma greedy_step_Err rooms st course g e :
  greedy_step rooms st course g = Err e →
  (feasible (gs_store st) rooms course = []
   ∧ e = RuntimeError (course_id course) (course_timeslot course))
  ∨ (feasible (gs_store st) rooms course ≠ []
     ∧ e = ZeroDivisionError ∧ course_students course = []).
Proof.
  unfold greedy_step.
  destruct (feasible (gs_store st) rooms course) as [|a0 fs] eqn:E.
  - intros [= <-]. by left.
  - intros [H | (a & g1 & _ & [=])]%bind_Err. right. split; [done|].
    apply min_by_Err in H as [[[=] _] | (a & g1 & _ & H)].
    by apply travel_cost_Err in H.
Qed.

Lemma greedy_step_total rooms st course g :
  feasible (gs_store st) rooms course ≠ [] → course_students course ≠ [] →
  ∃ st' g', greedy_step rooms st course g = OK (st', g').
Proof.
  intros Hf Hs. unfold greedy_step.
  destruct (feasible (gs_store st) rooms course) as [|a0 fs] eqn:E; [done|].
  destruct (min_by_total (λ a, travel_cost course (gs_store st a)) (a0 :: fs) g)
    as (a & g' & Hmin); [done| |].
  { intros x s _. by apply travel_cost_total. }
  unfold bind. rewrite Hmin. unfold ret. eauto.
Qed.

Lemma greedy_inv_init h rooms : greedy_inv h rooms [] (mkGreedy h ∅).
Proof.
  split; [done|]. split.
  - intros c Hc. by apply elem_of_nil in Hc.
  - intros cid rid H. simpl in H. by rewrite lookup_empty in H.
Qed.

Lemma greedy_inv_commit h rooms processed st course a :
  greedy_inv h rooms processed st → a ∈ rooms →
  is_available (gs_store st a) (course_timeslot course) (course_size course) = true →
  greedy_inv h rooms (processed ++ [course]) (commit st course a).
Proof.
  intros (Hsame & Hdom & Hent) Ha Hav.
  unfold is_available in Hav. apply andb_true_iff in Hav as [Hfree Hcap].
  apply bool_decide_eq_true in Hfree. apply Z.leb_le in Hcap.
  destruct (Hsame a) as (Hid & Hc & _).
  split; [|split].
  - intros b. simpl. unfold store_set. destruct (decide (b = a)) as [->|]; [|apply Hsame].
    simpl. apply Hsame.
  - intros c [Hc'|Hc']%elem_of_app; simpl.
    + destruct (decide (course_id course = course_id c)) as [->|Hne].
      * rewrite lookup_insert_eq. eauto.
      * rewrite lookup_insert_ne by done. by apply Hdom.
    + apply list_elem_of_singleton in Hc' as ->. rewrite lookup_insert_eq. eauto.
  - intros cid rid. simpl.
    destruct (decide (course_id course = cid)) as [<-|Hne].
    + rewrite lookup_insert_eq. intros [= <-].
      exists course, a. split; [apply elem_of_app; right; left|].
      split; [done|]. split; [done|]. split; [done|]. split; [lia|].
      unfold store_set. rewrite decide_True by done. simpl. apply lookup_insert_eq.
    + rewrite lookup_insert_ne by done. intros H.
      destruct (Hent _ _ H) as (c & b & Hc' & Hb & Hcid & Hrid & Hsz & Hsch).
      exists c, b. split; [apply elem_of_app; by left|].
      do 4 (split; [done|]).
      unfold store_set. destruct (decide (b = a)) as [->|]; [|done].
      simpl. rewrite lookup_insert_ne; [done|]. intros Heq. congruence.
Qed.

Lemma returns_greedy_loop h rooms courses :
  returns (greedy_loop rooms courses (mkGreedy h ∅)) (greedy_inv h rooms courses).
Proof.
  apply (returns_foldM_prefix (greedy_step rooms) (greedy_inv h rooms) [] courses).
  - apply greedy_inv_init.
  - intros pre c post st _ Hinv.
    eapply returns_weaken; [apply returns_greedy_step|].
    intros st' (a & Ha & Hav & ->). by apply greedy_inv_commit.
Qed.

(** *** What a returned allocation satisfies *)

Lemma NoDup_fmap_eq {A B} (f : A → B) (l : list A) x y :
  NoDup (f <$> l) → x ∈ l → y ∈ l → f x = f y → x = y.
Proof.
  induction l as [|z l IH]; simpl; intros Hnd Hx Hy Hf.
  - by apply elem_of_nil in Hx.
  - apply NoDup_cons in Hnd as [Hz Hnd].
    apply elem_of_cons in Hx as [->|Hx]; apply elem_of_cons in Hy as [->|Hy].
    + done.
    + exfalso. apply Hz. rewrite Hf. apply list_elem_of_fmap. eauto.
    + exfalso. apply Hz. rewrite <- Hf. apply list_elem_of_fmap. eauto.
    + by apply IH.
Qed.

Lemma entries_fit_courses_fit courses is_room alloc :
  distinct_ids courses → complete courses alloc →
  entries_fit courses is_room alloc → courses_fit courses is_room alloc.
Proof.
  intros Hnd Hall Hent c Hc. destruct (Hall c Hc) as [rid Hrid].
  destruct (Hent _ _ Hrid) as (c' & r & Hc' & Hr & Hid & <- & Hsz).
  assert (c' = c) as -> by (eapply NoDup_fmap_eq; eauto).
  eauto.
Qed.

Lemma returns_greedy_allocate courses rooms h :
  returns (greedy_allocate courses rooms h)
    (λ alloc, ∃ st, gs_allocation st = alloc
                    ∧ greedy_inv h rooms (sorted_by_size_desc courses) st).
Proof.
  unfold greedy_allocate, greedy_run.
  eapply returns_bind; [apply returns_greedy_loop|].
  intros st Hst. apply returns_ret. eauto.
Qed.

Lemma greedy_complete courses rooms h :
  returns (greedy_allocate courses rooms h) (complete courses).
Proof.
  eapply returns_weaken; [apply returns_greedy_allocate|].
  intros alloc (st & <- & _ & Hdom & _) c Hc. apply Hdom.
  by rewrite sorted_by_size_desc_perm.
Qed.

Lemma greedy_entries_fit courses rooms h :
  returns (greedy_allocate courses rooms h) (entries_fit courses (listed h rooms)).
Proof.
  eapply returns_weaken; [apply returns_greedy_allocate|].
  intros alloc (st & <- & _ & _ & Hent) cid rid H.
  destruct (Hent _ _ H) as (c & a & Hc & Ha & Hcid & Hrid & Hsz & _).
  exists c, (h a). rewrite sorted_by_size_desc_perm in Hc.
  split; [done|]. split; [by exists a|]. done.
Qed.

Lemma greedy_no_double_booking courses rooms h :
  distinct_ids courses → room_ids_identify h rooms →
  returns (greedy_allocate courses rooms h) (no_double_booking courses).
Proof.
  intros Hc Hr. eapply returns_weaken; [apply returns_greedy_allocate|].
  intros alloc (st & <- & _ & _ & Hent) c1 c2 rid Hc1 Hc2 Hne Hts H1 H2.
  destruct (Hent _ _ H1) as (c1' & a1 & Hc1' & Ha1 & Hid1 & Hrid1 & _ & Hs1).
  destruct (Hent _ _ H2) as (c2' & a2 & Hc2' & Ha2 & Hid2 & Hrid2 & _ & Hs2).
  rewrite sorted_by_size_desc_perm in Hc1', Hc2'.
  assert (c1' = c1) as -> by (eapply NoDup_fmap_eq; eauto).
  assert (c2' = c2) as -> by (eapply NoDup_fmap_eq; eauto).
  assert (a1 = a2) as -> by (apply Hr; [done | done | congruence]).
  rewrite Hts in Hs1. rewrite Hs1 in Hs2. injection Hs2 as Hid.
  apply Hne. eapply NoDup_fmap_eq; eauto.
Qed.

(** *** Failure *)

(** The call raises the infeasibility error for a course exactly when the
    loop reaches that course, in descending order of size, with no feasible
    room left. *)
Lemma greedy_infeasible_iff courses rooms h g cid ts :
  greedy_allocate courses rooms h g = Err (RuntimeError cid ts) ↔
  ∃ pre course post st g',
    sorted_by_size_desc courses = pre ++ course :: post
    ∧ greedy_loop rooms pre (mkGreedy h ∅) g = OK (st, g')
    ∧ (∀ a, a ∈ rooms → occupied_or_undersized (gs_store st a) course)
    ∧ cid = course_id course ∧ ts = course_timeslot course.
Proof.
  unfold greedy_allocate, greedy_run, greedy_loop. split.
  - intros [H | (st & g1 & _ & [=])]%bind_Err.
    apply foldM_Err_iff in H as (pre & c & post & st & g' & Hsplit & Hpre & Hc).
    apply greedy_step_Err in Hc as [[Hnil [= -> ->]] | (_ & [=] & _)].
    exists pre, c, post, st, g'. rewrite feasible_nil in Hnil. done.
  - intros (pre & c & post & st & g' & Hsplit & Hpre & Hnil & -> & ->).
    apply bind_Err. left. apply foldM_Err_iff.
    exists pre, c, post, st, g'. split; [done|]. split; [done|].
    apply greedy_step_infeasible. by apply feasible_nil.
Qed.

(** With no empty roster, the call either returns or raises the
    infeasibility error. *)
Lemma greedy_outcome courses rooms h g :
  (∀ c, c ∈ courses → course_students c ≠ []) →
  (∃ alloc g', greedy_allocate courses rooms h g = OK (alloc, g'))
  ∨ (∃ cid ts, greedy_allocate courses rooms h g = Err (RuntimeError cid ts)).
Proof.
  intros Hne. destruct (greedy_allocate courses rooms h g) as [[alloc g']|e] eqn:E.
  - left. eauto.
  - right. unfold greedy_allocate, greedy_run, greedy_loop in E.
    apply bind_Err in E as [H | (st & g1 & _ & [=])].
    apply foldM_Err_iff in H as (pre & c & post & st & g' & Hsplit & Hpre & Hc).
    apply greedy_step_Err in Hc as [[_ ->] | (_ & _ & Hs)]; [eauto|].
    exfalso. apply (Hne c); [|done].
    rewrite <- sorted_by_size_desc_perm, Hsplit. apply elem_of_app. right. left.
Qed.

(** With an empty roster among the courses the call never returns. *)
Lemma greedy_fails_on_empty_roster courses rooms h c :
  c ∈ courses → course_students c = [] → fails (greedy_allocate courses rooms h).
Proof.
  intros Hc Hs g.
  destruct (greedy_allocate courses rooms h g) as [[alloc g']|e] eqn:E; [|by exists e].
  exfalso. unfold greedy_allocate, greedy_run, greedy_loop in E.
  apply bind_OK in E as (st & g1 & E & _).
  rewrite <- sorted_by_size_desc_perm in Hc.
  apply list_elem_of_split in Hc as (pre & post & Hsplit).
  rewrite Hsplit, foldM_app in E. apply bind_OK in E as (st1 & g2 & _ & E).
  simpl in E. apply bind_OK in E as (st2 & g3 & E & _).
  destruct (greedy_step rooms st1 c g2) as [[st3 g4]|e] eqn:E'; [|discriminate].
  unfold greedy_step in E'.
  destruct (feasible (gs_store st1) rooms c) as [|a0 fs]; [discriminate|].
  apply bind_OK in E' as (a & g5 & Hmin & _). simpl in Hmin.
  apply bind_OK in Hmin as (k & g6 & Hk & _).
  rewrite travel_cost_empty in Hk by done. discriminate.
Qed.

(** ** 2. Local search *)

Lemma sample_two {A} (xs : list A) :
  returns (sample xs 2) (λ l, ∃ x y rest, l = [x; y] ∧ xs ≡ₚ x :: y :: rest).
Proof.
  eapply returns_weaken; [apply returns_sample|].
  intros l [Hl [rest Hrest]].
  destruct l as [|x [|y [|z l]]]; simpl in Hl; try discriminate.
  exists x, y, rest. done.
Qed.

Lemma returns_ls_step (T : Course → Room → Q → Prop) courses fr :
  (∀ c r, c ∈ courses → returns (travel_cost c r) (T c r)) →
  returns (ls_step courses fr) (λ fr', fr' = fr ∨ ls_swap T courses fr fr').
Proof.
  intros HT. unfold ls_step.
  eapply returns_bind; [apply sample_two|].
  intros l (c1 & c2 & rest & -> & Hperm).
  assert (Hc1 : c1 ∈ courses) by (rewrite Hperm; left).
  assert (Hc2 : c2 ∈ courses) by (rewrite Hperm; right; left).
  case_bool_decide as Hts; [apply returns_ret; by left|].
  eapply returns_bind; [apply returns_getitem|]. intros rid1 Hrid1.
  eapply returns_bind; [apply returns_getitem|]. intros r1 Hr1.
  eapply returns_bind; [apply returns_getitem|]. intros rid2 Hrid2.
  eapply returns_bind; [apply returns_getitem|]. intros r2 Hr2.
  destruct (Z.ltb_spec (room_capacity r1) (course_size c2)) as [|Hcap1];
    [apply returns_ret; by left|].
  destruct (Z.ltb_spec (room_capacity r2) (course_size c1)) as [|Hcap2];
    [apply returns_ret; by left|].
  simpl.
  eapply returns_bind; [by apply HT|]. intros t12 H12.
  eapply returns_bind; [by apply HT|]. intros t21 H21.
  eapply returns_bind; [by apply HT|]. intros t11 H11.
  eapply returns_bind; [by apply HT|]. intros t22 H22.
  destruct (Qlt_le_dec _ 0) as [Hd|_]; apply returns_ret; [right | by left].
  cbv beta in *. eapply LsSwap; eassumption.
Qed.

Lemma swap_ids_differ courses c1 c2 rest :
  distinct_ids courses → courses ≡ₚ c1 :: c2 :: rest →
  course_id c1 ≠ course_id c2
  ∧ ∀ c, c ∈ courses → c ≠ c1 → c ≠ c2 →
      course_id c ≠ course_id c1 ∧ course_id c ≠ course_id c2.
Proof.
  unfold distinct_ids. intros Hnd Hperm.
  assert (Hc1 : c1 ∈ courses) by (rewrite Hperm; left).
  assert (Hc2 : c2 ∈ courses) by (rewrite Hperm; right; left).
  split.
  - rewrite Hperm in Hnd. simpl in Hnd.
    apply NoDup_cons in Hnd as [Hnot _]. intros Heq. apply Hnot. rewrite Heq. left.
  - intros c Hc Hn1 Hn2. split; intros Heq.
    + apply Hn1. eapply NoDup_fmap_eq; eauto.
    + apply Hn2. eapply NoDup_fmap_eq; eauto.
Qed.

(** *** Capacity *)

Lemma ls_swap_entries_fit T courses fr fr' :
  rooms_by_id (ls_rooms fr) → ls_swap T courses fr fr' →
  entries_fit courses (in_dict (ls_rooms fr)) (ls_current fr) →
  entries_fit courses (in_dict (ls_rooms fr)) (ls_current fr').
Proof.
  intros Hkey Hswap Hent. destruct Hswap as
    [c1 c2 rest rid1 rid2 r1 r2 t12 t21 t11 t22 Hperm Hts H1 Hr1 H2 Hr2 Hcap1 Hcap2].
  assert (Hc1 : c1 ∈ courses) by (rewrite Hperm; left).
  assert (Hc2 : c2 ∈ courses) by (rewrite Hperm; right; left).
  intros cid rid. simpl.
  destruct (decide (course_id c2 = cid)) as [<-|Hn2].
  { rewrite lookup_insert_eq. intros [= <-]. exists c2, r1.
    split; [done|]. split; [by exists rid1|]. done. }
  rewrite lookup_insert_ne by done.
  destruct (decide (course_id c1 = cid)) as [<-|Hn1].
  { rewrite lookup_insert_eq. intros [= <-]. exists c1, r2.
    split; [done|]. split; [by exists rid2|]. done. }
  rewrite lookup_insert_ne by done. apply Hent.
Qed.

Lemma ls_swap_courses_fit T courses fr fr' :
  distinct_ids courses → rooms_by_id (ls_rooms fr) → ls_swap T courses fr fr' →
  courses_fit courses (in_dict (ls_rooms fr)) (ls_current fr) →
  courses_fit courses (in_dict (ls_rooms fr)) (ls_current fr').
Proof.
  intros Hnd Hkey Hswap Hfit. destruct Hswap as
    [c1 c2 rest rid1 rid2 r1 r2 t12 t21 t11 t22 Hperm Hts H1 Hr1 H2 Hr2 Hcap1 Hcap2].
  destruct (swap_ids_differ courses c1 c2 rest Hnd Hperm) as [Hne Hother].
  intros c Hc. simpl.
  destruct (decide (course_id c = course_id c2)) as [Heq|Hn2].
  { exists r1. split; [by exists rid1|]. rewrite Heq, lookup_insert_eq.
    assert (c = c2) as ->; [|done].
    eapply NoDup_fmap_eq; eauto. rewrite Hperm; right; left. }
  rewrite lookup_insert_ne by done.
  destruct (decide (course_id c = course_id c1)) as [Heq|Hn1].
  { exists r2. split; [by exists rid2|]. rewrite Heq, lookup_insert_eq.
    assert (c = c1) as ->; [|done].
    eapply NoDup_fmap_eq; eauto. rewrite Hperm; left. }
  rewrite lookup_insert_ne by done. by apply Hfit.
Qed.

(** *** Double booking *)

Lemma ls_swap_no_double_booking T courses fr fr' :
  distinct_ids courses → rooms_by_id (ls_rooms fr) → ls_swap T courses fr fr' →
  no_double_booking courses (ls_current fr) →
  no_double_booking courses (ls_current fr').
Proof.
  intros Hnd Hkey Hswap Hndb. destruct Hswap as
    [c1 c2 rest rid1 rid2 r1 r2 t12 t21 t11 t22 Hperm Hts H1 Hr1 H2 Hr2 Hcap1 Hcap2].
  destruct (swap_ids_differ courses c1 c2 rest Hnd Hperm) as [Hne Hother].
  assert (Hc1 : c1 ∈ courses) by (rewrite Hperm; left).
  assert (Hc2 : c2 ∈ courses) by (rewrite Hperm; right; left).
  rewrite (Hkey _ _ Hr1), (Hkey _ _ Hr2).
  assert (Hid : ∀ c d, c ∈ courses → d ∈ courses → course_id c = course_id d → c = d).
  { intros c d Hc Hd Heq. eapply NoDup_fmap_eq; eauto. }
  intros a b rid Ha Hb Hab Htab. simpl. rewrite !lookup_insert.
  repeat case_decide;
    repeat match goal with
           | H : course_id _ = course_id _ |- _ => apply Hid in H; [|done|done]
           end;
    intros Ea Eb;
    first [ apply (Hndb c1 c2 rid1); (done || congruence)
          | apply (Hndb c1 b rid1); (done || congruence)
          | apply (Hndb c2 c1 rid2); (done || congruence)
          | apply (Hndb c2 b rid2); (done || congruence)
          | apply (Hndb a c1 rid1); (done || congruence)
          | apply (Hndb a c2 rid2); (done || congruence)
          | apply (Hndb a b rid); (done || congruence) ].
Qed.

(** *** Invariants of a run *)

Lemma returns_local_search_run (T : Course → Room → Q → Prop) (C : Q → Prop)
    (I : ls_frame → Prop) allocation courses rooms max_iter :
  (∀ c r, c ∈ courses → returns (travel_cost c r) (T c r)) →
  returns (cost_of_alloc rooms courses allocation) C →
  (∀ v, C v → I (mkFrame allocation rooms allocation v)) →
  (∀ fr fr', I fr → ls_swap T courses fr fr' → I fr') →
  returns (local_search_run allocation courses rooms max_iter) I.
Proof.
  intros HT HC Hinit Hstep. unfold local_search_run.
  eapply returns_bind; [exact HC|]. intros v Hv.
  apply returns_iterM; [by apply Hinit|].
  intros fr Hfr. eapply returns_weaken; [by apply (returns_ls_step T)|].
  intros fr' [->|Hswap]; [done | by eapply Hstep].
Qed.

Lemma returns_local_search (I : ls_frame → Prop) allocation courses rooms max_iter :
  returns (local_search_run allocation courses rooms max_iter) I →
  returns (local_search allocation courses rooms max_iter)
          (λ alloc, ∃ fr, I fr ∧ alloc = ls_current fr).
Proof.
  intros H. unfold local_search. eapply returns_bind; [exact H|].
  intros fr Hfr. apply returns_ret. eauto.
Qed.

Lemma returns_any_cost (courses : list Course) c r :
  c ∈ courses → returns (travel_cost c r) (any_cost c r).
Proof. by intros _ ???. Qed.

Lemma returns_True {S A} (m : M S A) : returns m (λ _, True).
Proof. by intros ????. Qed.

(** The two received objects are never written. *)
Lemma local_search_run_frame allocation courses rooms max_iter :
  returns (local_search_run allocation courses rooms max_iter)
          (λ fr, ls_allocation fr = allocation ∧ ls_rooms fr = rooms).
Proof.
  apply (returns_local_search_run any_cost (λ _, True)).
  - apply returns_any_cost.
  - apply returns_True.
  - done.
  - by intros fr fr' [? ?] [].
Qed.

Lemma local_search_entries_fit allocation courses rooms max_iter :
  rooms_by_id rooms → entries_fit courses (in_dict rooms) allocation →
  returns (local_search allocation courses rooms max_iter)
          (entries_fit courses (in_dict rooms)).
Proof.
  intros Hkey Hent.
  eapply returns_weaken; [apply returns_local_search|].
  - apply (returns_local_search_run any_cost (λ _, True)
             (λ fr, ls_rooms fr = rooms
                    ∧ entries_fit courses (in_dict rooms) (ls_current fr))).
    + apply returns_any_cost.
    + apply returns_True.
    + done.
    + intros fr fr' [Hr Hfit] Hswap. split; [by destruct Hswap|].
      rewrite <- Hr in *. by eapply ls_swap_entries_fit.
  - by intros alloc (fr & [_ Hfit] & ->).
Qed.

Lemma local_search_courses_fit allocation courses rooms max_iter :
  distinct_ids courses → rooms_by_id rooms →
  courses_fit courses (in_dict rooms) allocation →
  returns (local_search allocation courses rooms max_iter)
          (courses_fit courses (in_dict rooms)).
Proof.
  intros Hnd Hkey Hent.
  eapply returns_weaken; [apply returns_local_search|].
  - apply (returns_local_search_run any_cost (λ _, True)
             (λ fr, ls_rooms fr = rooms
                    ∧ courses_fit courses (in_dict rooms) (ls_current fr))).
    + apply returns_any_cost.
    + apply returns_True.
    + done.
    + intros fr fr' [Hr Hfit] Hswap. split; [by destruct Hswap|].
      rewrite <- Hr in *. by eapply ls_swap_courses_fit.
  - by intros alloc (fr & [_ Hfit] & ->).
Qed.

Lemma local_search_no_double_booking allocation courses rooms max_iter :
  distinct_ids courses → rooms_by_id rooms →
  no_double_booking courses allocation →
  returns (local_search allocation courses rooms max_iter)
          (no_double_booking courses).
Proof.
  intros Hnd Hkey Hent.
  eapply returns_weaken; [apply returns_local_search|].
  - apply (returns_local_search_run any_cost (λ _, True)
             (λ fr, ls_rooms fr = rooms
                    ∧ no_double_booking courses (ls_current fr))).
    + apply returns_any_cost.
    + apply returns_True.
    + done.
    + intros fr fr' [Hr Hfit] Hswap. split; [by destruct Hswap|].
      rewrite <- Hr in *. by eapply ls_swap_no_double_booking.
  - by intros alloc (fr & [_ Hfit] & ->).
Qed.

(** *** Cost *)

Lemma fold_left_Qplus (l : list Q) (a : Q) : (fold_left Qplus l a == a + sumQ l)%Q.
Proof.
  unfold sumQ. revert a. induction l as [|x l IH]; intros a; simpl.
  - ring.
  - rewrite (IH (a + x)%Q), (IH (0 + x)%Q). ring.
Qed.

Lemma sumQ_cons x l : (sumQ (x :: l) == x + sumQ l)%Q.
Proof. unfold sumQ at 1. simpl. rewrite fold_left_Qplus. ring. Qed.

Lemma sumQ_perm l l' : l ≡ₚ l' → (sumQ l == sumQ l')%Q.
Proof.
  induction 1 as [|x l l' _ IH|x y l|l l' l'' _ IH1 _ IH2].
  - reflexivity.
  - by rewrite !sumQ_cons, IH.
  - rewrite !sumQ_cons. ring.
  - by rewrite IH1.
Qed.

Lemma cost_of_alloc_eq rooms courses alloc :
  cost_of_alloc rooms courses alloc = foldM (cost_term rooms alloc) courses 0%Q.
Proof. reflexivity. Qed.

Lemma returns_cost_from rooms alloc courses acc :
  Forall exact_mode courses →
  returns (foldM (cost_term rooms alloc) courses acc)
    (λ v, (v == acc + alloc_cost rooms courses alloc)%Q
          ∧ assigned rooms courses alloc
          ∧ Forall (λ c, course_students c ≠ []) courses).
Proof.
  unfold alloc_cost. intros Hx. revert acc.
  induction Hx as [|c courses Hc Hx IH]; intros acc; cbn [foldM].
  - apply returns_ret. split; [unfold sumQ; simpl; ring|].
    split; [|done]. intros c Hc. by apply elem_of_nil in Hc.
  - unfold cost_term at 1.
    intros s v s' H.
    apply bind_OK in H as (acc' & s1 & H & Hrest).
    apply bind_OK in H as (rid & s2 & Hrid & H).
    apply bind_OK in H as (r & s3 & Hr & H).
    apply bind_OK in H as (t & s4 & Ht & [= <- <-]).
    apply returns_getitem in Hrid. apply returns_getitem in Hr.
    pose proof (returns_travel_cost_exact c r Hc _ _ _ Ht) as Hv.
    apply IH in Hrest as (Hsum & Hasg & Hne). cbv beta in *.
    split; [|split].
    + rewrite Hsum, fmap_cons, sumQ_cons, Hv. unfold assignment_cost at 2.
      rewrite Hrid. simpl. rewrite Hr. ring.
    + intros d [->|Hd]%elem_of_cons; [eauto | by apply Hasg].
    + constructor; [|done]. intros Hs.
      rewrite travel_cost_empty in Ht by done. discriminate.
Qed.

Lemma returns_cost_of_alloc rooms alloc courses :
  Forall exact_mode courses →
  returns (cost_of_alloc rooms courses alloc)
    (λ v, (v == alloc_cost rooms courses alloc)%Q
          ∧ assigned rooms courses alloc
          ∧ Forall (λ c, course_students c ≠ []) courses).
Proof.
  intros Hx. rewrite cost_of_alloc_eq.
  eapply returns_weaken; [by apply returns_cost_from|].
  intros v (Hv & ? & ?). split; [|done]. rewrite Hv. ring.
Qed.

(** In exact mode the cost of an allocation is a value: the call returns
    it from every state of the generator and leaves the generator alone. *)
Lemma cost_from_total rooms alloc courses acc s :
  Forall exact_mode courses → assigned rooms courses alloc →
  Forall (λ c, course_students c ≠ []) courses →
  ∃ v, foldM (cost_term rooms alloc) courses acc s = OK (v, s).
Proof.
  intros Hx. revert acc. induction Hx as [|c courses Hc Hx IH]; intros acc Hasg Hne; simpl.
  - unfold ret. eauto.
  - apply Forall_cons in Hne as [Hne1 Hne].
    destruct (Hasg c) as (rid & r & Hrid & Hr); [left|].
    destruct (travel_cost_exact c r s Hne1 Hc) as (t & Ht & _).
    destruct (IH (acc + t)%Q) as [v Hv]; [|done|].
    { intros d Hd. apply Hasg. by right. }
    exists v. unfold bind at 1. unfold cost_term, getitem.
    rewrite Hrid. unfold bind at 1. unfold ret at 1.
    rewrite Hr. unfold bind at 1. unfold ret at 1.
    unfold bind at 1. rewrite Ht. unfold ret at 1. exact Hv.
Qed.

Lemma cost_of_alloc_total rooms alloc courses s :
  Forall exact_mode courses → assigned rooms courses alloc →
  Forall (λ c, course_students c ≠ []) courses →
  ∃ v, cost_of_alloc rooms courses alloc s = OK (v, s)
       ∧ (v == alloc_cost rooms courses alloc)%Q.
Proof.
  intros Hx Hasg Hne.
  destruct (cost_from_total rooms alloc courses 0%Q s Hx Hasg Hne) as [v Hv].
  exists v. rewrite cost_of_alloc_eq. split; [done|].
  by eapply (returns_cost_of_alloc rooms alloc courses Hx).
Qed.

Lemma assignment_cost_lookup rooms alloc c rid r :
  alloc !! course_id c = Some rid → rooms !! rid = Some r →
  assignment_cost rooms alloc c = exact_travel_cost c r.
Proof. intros H1 H2. unfold assignment_cost. rewrite H1. simpl. by rewrite H2. Qed.

Lemma ls_swap_assigned T courses fr fr' :
  rooms_by_id (ls_rooms fr) → ls_swap T courses fr fr' →
  assigned (ls_rooms fr) courses (ls_current fr) →
  assigned (ls_rooms fr) courses (ls_current fr').
Proof.
  intros Hkey Hswap Hasg. destruct Hswap as
    [c1 c2 rest rid1 rid2 r1 r2 t12 t21 t11 t22 Hperm Hts H1 Hr1 H2 Hr2 Hcap1 Hcap2].
  intros c Hc. simpl. rewrite !lookup_insert.
  repeat case_decide.
  - exists (room_id r1), r1. by rewrite (Hkey _ _ Hr1).
  - exists (room_id r2), r2. by rewrite (Hkey _ _ Hr2).
  - by apply Hasg.
Qed.

(** *** The schedules are not read *)

Lemma travel_cost_forget c r :
  travel_cost c (forget_schedule r) = travel_cost c r.
Proof. reflexivity. Qed.

Lemma foldM_ext {S A B} (f g : B → A → M S B) xs b s :
  (∀ b x s, f b x s = g b x s) → foldM f xs b s = foldM g xs b s.
Proof.
  intros Hfg. revert b s. induction xs as [|x xs IH]; intros b s; simpl; [done|].
  unfold bind. rewrite Hfg. destruct (g b x s) as [[b' s']|e]; [apply IH | done].
Qed.

Ltac run_monad := unfold getitem, index; unfold bind, ret, raise; cbv beta iota.

Lemma cost_of_alloc_forget rooms courses alloc s :
  cost_of_alloc (forget_schedule <$> rooms) courses alloc s
  = cost_of_alloc rooms courses alloc s.
Proof.
  rewrite !cost_of_alloc_eq. apply foldM_ext. intros acc c s1.
  unfold cost_term. run_monad. destruct (alloc !! course_id c) as [rid|]; [|done].
  cbv beta iota. rewrite lookup_fmap.
  destruct (rooms !! rid) as [r|]; cbn [fmap option_fmap option_map]; [|done].
  cbv beta iota. by rewrite travel_cost_forget.
Qed.

Lemma ls_step_forget courses fr s :
  ls_step courses (forget_frame fr) s = fmapM forget_frame (ls_step courses fr) s.
Proof.
  unfold ls_step, fmapM. run_monad.
  destruct (sample courses 2 s) as [[l s1]|e]; [|done].
  destruct l as [|c1 [|c2 [|c3 l]]]; try done.
  case_bool_decide; [done|].
  cbn [forget_frame ls_current ls_rooms ls_allocation ls_current_cost].
  destruct (ls_current fr !! course_id c1) as [rid1|]; [|done].
  cbv beta iota. rewrite lookup_fmap.
  destruct (ls_rooms fr !! rid1) as [r1|]; cbn [fmap option_fmap option_map]; [|done].
  cbv beta iota.
  destruct (ls_current fr !! course_id c2) as [rid2|]; [|done].
  cbv beta iota. rewrite lookup_fmap.
  destruct (ls_rooms fr !! rid2) as [r2|]; cbn [fmap option_fmap option_map]; [|done].
  cbv beta iota. cbn [forget_schedule room_capacity room_id].
  destruct (_ || _); [done|].
  rewrite !travel_cost_forget.
  destruct (travel_cost c1 r2 s1) as [[t12 s2]|e]; [|done].
  destruct (travel_cost c2 r1 s2) as [[t21 s3]|e]; [|done].
  destruct (travel_cost c1 r1 s3) as [[t11 s4]|e]; [|done].
  destruct (travel_cost c2 r2 s4) as [[t22 s5]|e]; [|done].
  by destruct (Qlt_le_dec _ 0).
Qed.

Lemma iterM_forget courses n fr s :
  iterM n (ls_step courses) (forget_frame fr) s
  = fmapM forget_frame (iterM n (ls_step courses) fr) s.
Proof.
  revert fr s. induction n as [|n IH]; intros fr s; simpl; [reflexivity|].
  unfold bind. rewrite ls_step_forget. unfold fmapM.
  destruct (ls_step courses fr s) as [[fr' s']|e]; [|done].
  rewrite IH. reflexivity.
Qed.

Lemma local_search_forget allocation courses rooms max_iter s :
  local_search allocation courses (forget_schedule <$> rooms) max_iter s
  = local_search allocation courses rooms max_iter s.
Proof.
  unfold local_search, local_search_run, bind.
  rewrite cost_of_alloc_forget.
  destruct (cost_of_alloc rooms courses allocation s) as [[v s1]|e]; [|done].
  change (mkFrame allocation (forget_schedule <$> rooms) allocation v)
    with (forget_frame (mkFrame allocation rooms allocation v)).
  rewrite iterM_forget. unfold fmapM.
  by destruct (iterM _ _ _ s1) as [[fr s2]|e].
Qed.

(** ** 3. Genetic algorithm *)

Section GeneticProperties.

Variable courses : list Course.
Variable rooms : list Room.
Variable pop_size generations : Z.
Variable crossover_rate mutation_rate : Q.

Local Abbreviation n_courses := (n_courses courses).
Local Abbreviation feasible_rooms := (feasible_rooms courses rooms).
Local Abbreviation random_chrom := (random_chrom courses rooms).
Local Abbreviation fitness := (fitness courses rooms).
Local Abbreviation tournament := (tournament courses rooms).
Local Abbreviation crossover_pair := (crossover_pair courses crossover_rate).
Local Abbreviation reproduce := (reproduce courses pop_size crossover_rate).
Local Abbreviation mutate := (mutate courses rooms mutation_rate).
Local Abbreviation evolve := (evolve courses rooms pop_size crossover_rate mutation_rate).
Local Abbreviation next_population :=
  (next_population courses rooms pop_size crossover_rate mutation_rate).
Local Abbreviation initial_population := (initial_population courses rooms pop_size).
Local Abbreviation genetic_run :=
  (genetic_run courses rooms pop_size generations crossover_rate mutation_rate).
Local Abbreviation to_mapping := (to_mapping courses rooms).
Local Abbreviation genetic_allocate :=
  (genetic_allocate courses rooms pop_size generations crossover_rate mutation_rate).
Local Abbreviation valid_chrom := (valid_chrom courses rooms).
Local Abbreviation children_of := (children_of courses).
Local Abbreviation paired := (paired courses).
Local Abbreviation gene_fits := (gene_fits rooms).
Local Abbreviation gene_cost := (gene_cost courses rooms).
Local Abbreviation exact_fitness := (exact_fitness courses rooms).
Local Abbreviation fitness_term := (fitness_term courses rooms).
Local Abbreviation no_worse := (no_worse courses rooms).
Local Abbreviation best_fitness := (best_fitness courses rooms).

(** *** Chromosomes stay feasible *)

Lemma feasible_for_spec course idx :
  idx ∈ feasible_for rooms course ↔
  ∃ r, rooms !! idx = Some r ∧ room_fits course r = true.
Proof.
  unfold feasible_for. rewrite list_elem_of_fmap. split.
  - intros ([i r] & -> & [Hfit Hin]%list_elem_of_filter).
    apply elem_of_lookup_imap in Hin as (j & x & [= -> ->] & Hx).
    exists x. split; [done | by apply Is_true_true].
  - intros (r & Hr & Hfit). exists (idx, r). split; [done|].
    apply list_elem_of_filter. split; [by apply Is_true_true|].
    by apply (elem_of_lookup_imap_2 pair).
Qed.

Lemma valid_chrom_length c : valid_chrom c → length c = n_courses.
Proof.
  intros H. apply Forall2_length in H. unfold feasible_rooms in H.
  rewrite length_fmap in H. done.
Qed.

Lemma returns_random_chrom : returns random_chrom valid_chrom.
Proof.
  unfold random_chrom, valid_chrom. apply returns_mapM.
  intros fr _. apply returns_on_snd, returns_choice.
Qed.

Lemma returns_initial_population :
  returns initial_population
          (λ pop, length pop = Z.to_nat pop_size ∧ Forall valid_chrom pop).
Proof. apply returns_replicateM, returns_random_chrom. Qed.

Lemma returns_tournament population :
  returns (tournament population) (λ c, c ∈ population).
Proof.
  unfold tournament. eapply returns_bind; [apply returns_on_fst, sample_two|].
  intros l (x & y & rest & -> & Hperm).
  eapply returns_weaken; [apply returns_min_by|].
  intros c Hc. rewrite Hperm.
  apply elem_of_cons in Hc as [->|Hc]; [left|].
  apply list_elem_of_singleton in Hc as ->. right; left.
Qed.

Lemma valid_crossover cut p1 p2 :
  valid_chrom p1 → valid_chrom p2 → valid_chrom (take cut p1 ++ drop cut p2).
Proof.
  unfold valid_chrom. intros H1 H2.
  rewrite <- (take_drop cut feasible_rooms).
  apply Forall2_app; [by apply Forall2_take | by apply Forall2_drop].
Qed.

Lemma returns_crossover_pair parents offspring i :
  returns (crossover_pair parents offspring i)
    (λ offspring', ∃ p1 p2 c1 c2, parents !! i = Some p1
       ∧ parents !! (i + 1)%nat = Some p2 ∧ children_of p1 p2 c1 c2
       ∧ offspring' = offspring ++ [c1; c2]).
Proof.
  unfold crossover_pair.
  eapply returns_bind; [apply returns_index|]. intros p1 Hp1.
  eapply returns_bind; [apply returns_index|]. intros p2 Hp2.
  eapply returns_bind; [apply returns_True|]. intros u _.
  destruct (Qlt_le_dec u crossover_rate).
  - eapply returns_bind; [apply returns_on_snd, returns_randrange|].
    intros cut Hcut. apply returns_ret. exists p1, p2. do 2 eexists.
    split; [done|]. split; [done|]. split; [|done]. right. by exists cut.
  - apply returns_ret. exists p1, p2, p1, p2.
    split; [done|]. split; [done|]. split; [by left | done].
Qed.

Lemma returns_reproduce parents :
  returns (reproduce parents) (paired parents (range_step2 (Z.to_nat pop_size))).
Proof.
  unfold reproduce.
  apply (returns_foldM_prefix (crossover_pair parents) (paired parents) []).
  - constructor.
  - intros pre i post offspring _ Hpre.
    eapply returns_weaken; [apply returns_crossover_pair|].
    intros offspring' (p1 & p2 & c1 & c2 & Hp1 & Hp2 & Hch & ->).
    by econstructor.
Qed.

Lemma paired_length parents starts offspring :
  paired parents starts offspring →
  length offspring = (2 * length starts)%nat
  ∧ Forall (λ i, i + 1 < length parents)%nat starts.
Proof.
  induction 1 as [|starts offspring i p1 p2 c1 c2 _ [IHl IHf] Hp1 Hp2 _].
  - split; [done | constructor].
  - split; [rewrite !length_app; simpl; lia|].
    apply Forall_app. split; [done|]. constructor; [|constructor].
    by apply lookup_lt_Some in Hp2.
Qed.

Lemma paired_valid parents starts offspring :
  Forall valid_chrom parents → paired parents starts offspring →
  Forall valid_chrom offspring.
Proof.
  intros Hpar. induction 1 as [|starts offspring i p1 p2 c1 c2 _ IH Hp1 Hp2 Hch].
  - constructor.
  - apply Forall_app. split; [done|].
    assert (V1 : valid_chrom p1).
    { eapply Forall_forall in Hpar; [done|]. by eapply list_elem_of_lookup_2. }
    assert (V2 : valid_chrom p2).
    { eapply Forall_forall in Hpar; [done|]. by eapply list_elem_of_lookup_2. }
    destruct Hch as [[-> ->] | (cut & _ & -> & ->)].
    + by repeat constructor.
    + repeat constructor; by apply valid_crossover.
Qed.

Lemma range_step2_length n : length (range_step2 n) = Nat.div2 (n + 1).
Proof. unfold range_step2. by rewrite length_fmap, length_seq. Qed.

Lemma range_step2_last n :
  Nat.Odd n → (n - 1)%nat ∈ range_step2 n.
Proof.
  intros [k ->]. unfold range_step2. apply list_elem_of_fmap.
  exists k. split; [lia|]. apply elem_of_seq.
  replace (2 * k + 1 + 1)%nat with (2 * (S k))%nat by lia.
  rewrite Nat.div2_double. lia.
Qed.

(** A pass of the reproduction loop that returns has seen an even number
    of parents and made as many offspring. *)
Lemma paired_count parents offspring :
  length parents = Z.to_nat pop_size →
  paired parents (range_step2 (Z.to_nat pop_size)) offspring →
  Nat.Even (Z.to_nat pop_size) ∧ length offspring = length parents.
Proof.
  intros Hlen Hp. apply paired_length in Hp as [Hl Hf].
  rewrite range_step2_length in Hl. rewrite Hlen in *.
  destruct (Nat.Even_or_Odd (Z.to_nat pop_size)) as [Hev|Hodd].
  - split; [done|]. destruct Hev as [k Hk]. rewrite Hl, Hk.
    replace (2 * k + 1)%nat with (S (2 * k)) by lia.
    rewrite Nat.div2_succ_double. lia.
  - exfalso. apply range_step2_last in Hodd as Hin.
    eapply Forall_forall in Hf; [|exact Hin]. destruct Hodd as [k Hk]. lia.
Qed.

Lemma returns_mutate c : valid_chrom c → returns (mutate c) valid_chrom.
Proof.
  intros Hc. unfold mutate.
  eapply returns_bind; [apply returns_True|]. intros u _.
  destruct (Qlt_le_dec u mutation_rate); [|by apply returns_ret].
  eapply returns_bind; [apply returns_True|]. intros idx _.
  eapply returns_bind; [apply returns_index|]. intros fr Hfr.
  eapply returns_bind; [apply returns_on_snd, returns_choice|]. intros g Hg.
  destruct (idx <? length c)%nat; [|apply returns_raise].
  apply returns_ret. unfold valid_chrom.
  rewrite <- (list_insert_id feasible_rooms idx fr) by done.
  by apply Forall2_insert.
Qed.

Lemma returns_mutate_all offspring :
  Forall valid_chrom offspring →
  returns (mapM mutate offspring)
          (λ mutated, length mutated = length offspring ∧ Forall valid_chrom mutated).
Proof.
  intros Hoff. eapply returns_weaken.
  - apply (returns_mapM mutate (λ _ c', valid_chrom c')).
    intros c Hc. apply returns_mutate. by eapply Forall_forall in Hoff.
  - intros mutated H. split; [symmetry; by eapply Forall2_length|].
    by eapply Forall2_Forall_r; [exact H|apply Forall_forall].
Qed.

(** *** Sorting by key *)

Lemma insert_by_key_perm {A} (x : Q * A) l : insert_by_key x l ≡ₚ x :: l.
Proof.
  induction l as [|y l IH]; simpl; [done|].
  destruct (Qlt_le_dec y.1 x.1); [|done]. rewrite IH. apply Permutation_swap.
Qed.

Lemma sort_keyed_perm {A} (l : list (Q * A)) : sort_keyed l ≡ₚ l.
Proof.
  induction l as [|x l IH]; simpl; [done|].
  rewrite insert_by_key_perm. by rewrite IH.
Qed.

Lemma insert_by_key_sorted {A} (x : Q * A) l :
  StronglySorted key_le l → StronglySorted key_le (insert_by_key x l).
Proof.
  induction 1 as [|y l Hl IH Hy]; simpl; [repeat constructor|].
  destruct (Qlt_le_dec y.1 x.1) as [Hlt|Hle].
  - constructor; [exact IH|]. rewrite insert_by_key_perm.
    constructor; [unfold key_le; lra | exact Hy].
  - constructor; [by constructor|]. constructor; [exact Hle|].
    eapply Forall_impl; [exact Hy|]. unfold key_le. intros; lra.
Qed.

Lemma sort_keyed_sorted {A} (l : list (Q * A)) : StronglySorted key_le (sort_keyed l).
Proof.
  induction l as [|x l IH]; simpl; [constructor|]. by apply insert_by_key_sorted.
Qed.

(** The sorted list with its keys: a permutation of the input, in ascending
    order of key, each key a value returned by [key] for its item. *)
Lemma returns_sort_by {A} (key : A → M gen_state Q) (K : A → Q → Prop) xs :
  (∀ x, x ∈ xs → returns (key x) (K x)) →
  returns (sort_by key xs)
    (λ ys, ∃ kys, ys = kys.*2 ∧ kys.*2 ≡ₚ xs ∧ StronglySorted key_le kys
                  ∧ Forall (λ kx, K kx.2 kx.1) kys).
Proof.
  intros HK. unfold sort_by.
  eapply returns_bind; [by apply (returns_mapM key K)|]. intros ks Hks.
  apply returns_ret. exists (sort_keyed (zip ks xs)). split; [done|].
  split; [|split].
  - rewrite sort_keyed_perm. rewrite snd_zip; [done|].
    apply Forall2_length in Hks. lia.
  - apply sort_keyed_sorted.
  - rewrite sort_keyed_perm. clear HK.
    induction Hks; simpl; constructor; done.
Qed.

Lemma slice_to_take {A} n (xs : list A) : ∃ m, slice_to n xs = take m xs.
Proof. unfold slice_to. destruct (0 <=? n)%Z; eauto. Qed.

Lemma slice_to_length {A} n (xs : list A) :
  (Z.to_nat n ≤ length xs)%nat → (n < 0 → xs = [])%Z →
  length (slice_to n xs) = Z.to_nat n.
Proof.
  intros Hle Hneg. unfold slice_to. destruct (Z.leb_spec 0 n).
  - by rewrite length_take_le.
  - rewrite (Hneg ltac:(lia)). simpl. lia.
Qed.

(** *** One generation *)

Lemma returns_evolve (K : chrom → Q → Prop) population :
  (∀ c, valid_chrom c → returns (fitness c) (K c)) →
  Forall valid_chrom population →
  returns (evolve population)
    (λ g, length (gen_parents g) = Z.to_nat pop_size
          ∧ Forall valid_chrom (gen_parents g)
          ∧ paired (gen_parents g) (range_step2 (Z.to_nat pop_size)) (gen_offspring g)
          ∧ length (gen_mutated g) = length (gen_offspring g)
          ∧ Forall valid_chrom (gen_mutated g)
          ∧ ∃ kys, kys.*2 ≡ₚ population ++ gen_mutated g
              ∧ StronglySorted key_le kys
              ∧ Forall (λ kx, K kx.2 kx.1) kys
              ∧ gen_population g = slice_to pop_size kys.*2).
Proof.
  intros HK Hpop. unfold evolve.
  eapply returns_bind.
  { apply returns_replicateM. eapply returns_and; [apply returns_tournament|].
    apply returns_True. }
  intros parents [Hlen Hpar].
  assert (Hparv : Forall valid_chrom parents).
  { eapply Forall_impl; [exact Hpar|]. intros c [Hc _].
    by eapply Forall_forall in Hpop. }
  eapply returns_bind; [apply returns_reproduce|]. intros offspring Hoff.
  pose proof (paired_valid _ _ _ Hparv Hoff) as Hoffv.
  eapply returns_bind; [by apply returns_mutate_all|]. intros mutated [Hml Hmv].
  eapply returns_bind.
  { apply (returns_sort_by fitness K). intros c Hc. apply HK.
    apply elem_of_app in Hc as [Hc|Hc]; by eapply Forall_forall in Hc. }
  intros merged (kys & -> & Hperm & Hsort & Hkeys).
  apply returns_ret. simpl. do 5 (split; [done|]). by exists kys.
Qed.

Lemma returns_next_population population :
  Forall valid_chrom population → length population = Z.to_nat pop_size →
  returns (next_population population)
          (λ pop', length pop' = Z.to_nat pop_size ∧ Forall valid_chrom pop').
Proof.
  intros Hpop Hlen. unfold next_population.
  eapply returns_bind; [by apply (returns_evolve (λ _ _, True)), Hpop; intros; apply returns_True|].
  intros g (Hpl & _ & Hpair & Hml & Hmv & kys & Hperm & _ & _ & Hnew).
  apply returns_ret. rewrite Hnew. split.
  - apply slice_to_length.
    + rewrite Hperm, length_app. lia.
    + intros Hneg. apply paired_length in Hpair as [Hol _].
      rewrite range_step2_length in Hol.
      replace (Z.to_nat pop_size) with 0%nat in * by lia. simpl in Hol.
      apply nil_length_inv. rewrite Hperm, length_app. lia.
  - destruct (slice_to_take pop_size kys.*2) as [m ->]. apply Forall_take.
    rewrite Hperm. apply Forall_app. done.
Qed.

Lemma returns_genetic_run :
  returns genetic_run
    (λ pops, length pops.1 = Z.to_nat pop_size ∧ Forall valid_chrom pops.1
             ∧ length pops.2 = Z.to_nat pop_size ∧ Forall valid_chrom pops.2).
Proof.
  unfold genetic_run.
  eapply returns_bind; [apply returns_initial_population|]. intros pop0 [Hl0 Hv0].
  eapply returns_bind.
  { apply (returns_iterM _ next_population
             (λ pop, length pop = Z.to_nat pop_size ∧ Forall valid_chrom pop)).
    - done.
    - intros pop [Hl Hv]. by apply returns_next_population. }
  intros pop [Hl Hv]. by apply returns_ret.
Qed.

(** *** The returned mapping *)

Lemma valid_chrom_genes best :
  valid_chrom best →
  Forall (λ ci, ci.1 ∈ courses ∧ gene_fits ci.1 ci.2) (zip courses best).
Proof.
  unfold valid_chrom, feasible_rooms. intros H.
  apply Forall2_fmap_l in H.
  induction H as [|c g cs gs Hg _ IH]; simpl; constructor.
  - simpl. split; [left|]. apply feasible_for_spec in Hg as (r & Hr & Hfit).
    exists r. split; [done|]. unfold room_fits in Hfit.
    apply andb_true_iff in Hfit as [Hfit _]. by apply Z.leb_le.
  - eapply Forall_impl; [exact IH|]. intros ci [? ?]. split; [by right | done].
Qed.

Lemma returns_to_mapping best :
  valid_chrom best →
  returns (to_mapping best)
          (λ d, complete courses d ∧ entries_fit courses (.∈ rooms) d).
Proof.
  intros Hbest. pose proof (valid_chrom_genes best Hbest) as Hgenes.
  eapply returns_weaken.
  - unfold to_mapping.
    apply (returns_foldM_prefix _
             (λ pre (d : gmap string string),
                (∀ ci, ci ∈ pre → is_Some (d !! course_id ci.1))
                ∧ entries_fit courses (.∈ rooms) d) []).
    + split; [intros ci Hci; by apply elem_of_nil in Hci|].
      intros cid rid H. by rewrite lookup_empty in H.
    + intros pre [c idx] post d Hsplit [Hdom Hent]. simpl in Hsplit.
      assert (Hin : (c, idx) ∈ zip courses best).
      { rewrite Hsplit. apply elem_of_app. right. left. }
      eapply Forall_forall in Hgenes as [Hc (r & Hr & Hsz)]; [|exact Hin].
      simpl in *. eapply returns_bind; [apply returns_index|]. intros r' Hr'.
      apply returns_ret. cbv beta in Hr'. rewrite Hr in Hr'. injection Hr' as <-.
      split.
      * intros ci [Hci|Hci]%elem_of_app.
        -- destruct (decide (course_id c = course_id ci.1)) as [->|Hne].
           ++ rewrite lookup_insert_eq. eauto.
           ++ rewrite lookup_insert_ne by done. by apply Hdom.
        -- apply list_elem_of_singleton in Hci as ->. simpl.
           rewrite lookup_insert_eq. eauto.
      * intros cid rid. destruct (decide (course_id c = cid)) as [<-|Hne].
        -- rewrite lookup_insert_eq. intros [= <-]. exists c, r.
           split; [done|]. split; [by eapply list_elem_of_lookup_2|]. done.
        -- rewrite lookup_insert_ne by done. apply Hent.
  - intros d [Hdom Hent]. split; [|done]. intros c Hc.
    assert (Hfst : (zip courses best).*1 = courses).
    { apply fst_zip. rewrite (valid_chrom_length best Hbest). done. }
    rewrite <- Hfst in Hc. apply list_elem_of_fmap in Hc as (ci & -> & Hci).
    by apply Hdom.
Qed.

Lemma returns_genetic_allocate :
  returns genetic_allocate
          (λ d, complete courses d ∧ entries_fit courses (.∈ rooms) d).
Proof.
  unfold genetic_allocate.
  eapply returns_bind; [apply returns_genetic_run|].
  intros [pop0 pop] (_ & _ & _ & Hv). simpl in *.
  eapply returns_bind; [apply returns_min_by|]. intros best Hbest.
  apply returns_to_mapping. by eapply Forall_forall in Hv.
Qed.

(** *** Fitness in exact mode *)

Lemma fitness_eq c : fitness c = foldM fitness_term (imap pair c) 0%Q.
Proof. reflexivity. Qed.

Lemma returns_fitness_from (l : list (nat * nat)) acc :
  Forall exact_mode courses →
  returns (foldM fitness_term l acc) (λ v, (v == acc + sumQ (gene_cost <$> l))%Q).
Proof.
  intros Hx. revert acc. induction l as [|ig l IH]; intros acc; cbn [foldM].
  - apply returns_ret. unfold sumQ. simpl. ring.
  - eapply returns_bind with (P := λ acc', (acc' == acc + gene_cost ig)%Q).
    + unfold fitness_term.
      eapply returns_bind; [apply returns_index|]. intros c Hc.
      eapply returns_bind; [apply returns_index|]. intros r Hr.
      eapply returns_bind.
      { apply returns_on_fst, returns_travel_cost_exact.
        rewrite Forall_forall in Hx. apply Hx.
        cbv beta in Hc. by eapply list_elem_of_lookup_2. }
      intros t Ht. apply returns_ret. cbv beta in *.
      unfold gene_cost. rewrite Hc, Hr, Ht. ring.
    + intros acc' Hacc'. eapply returns_weaken; [apply IH|].
      intros v Hv. cbv beta in *. rewrite Hv, Hacc', fmap_cons, sumQ_cons. ring.
Qed.

Lemma returns_fitness_exact c :
  Forall exact_mode courses →
  returns (fitness c) (λ v, (v == exact_fitness c)%Q).
Proof.
  intros Hx. rewrite fitness_eq.
  eapply returns_weaken; [by apply returns_fitness_from|].
  intros v Hv. cbv beta in *. rewrite Hv. unfold exact_fitness. ring.
Qed.

Lemma no_worse_refl pop : no_worse pop pop.
Proof. intros x Hx. exists x. split; [done | lra]. Qed.

Lemma no_worse_trans pop1 pop2 pop3 :
  no_worse pop1 pop2 → no_worse pop2 pop3 → no_worse pop1 pop3.
Proof.
  intros H12 H23 x Hx. destruct (H12 x Hx) as (y & Hy & Hxy).
  destruct (H23 y Hy) as (z & Hz & Hyz). exists z. split; [done | lra].
Qed.

Lemma sorted_head_least (kys : list (Q * chrom)) kx :
  StronglySorted key_le kys → kx ∈ kys →
  ∃ ky kys', kys = ky :: kys' ∧ (ky.1 <= kx.1)%Q.
Proof.
  intros Hs Hin. destruct Hs as [|ky kys' _ Hall]; [by apply elem_of_nil in Hin|].
  exists ky, kys'. split; [done|].
  apply elem_of_cons in Hin as [->|Hin]; [lra|].
  by eapply Forall_forall in Hall.
Qed.

Lemma next_population_no_worse population :
  Forall exact_mode courses →
  Forall valid_chrom population → length population = Z.to_nat pop_size →
  returns (next_population population) (no_worse population).
Proof.
  intros Hx Hpop Hlen. unfold next_population.
  eapply returns_bind.
  { apply (returns_evolve (λ c v, (v == exact_fitness c)%Q)); [|done].
    intros c _. by apply returns_fitness_exact. }
  intros g (_ & _ & _ & _ & _ & kys & Hperm & Hsort & Hkeys & Hnew).
  apply returns_ret. rewrite Hnew. intros x Hin.
  assert (Hpos : (0 < pop_size)%Z).
  { destruct population; [by apply elem_of_nil in Hin | simpl in Hlen; lia]. }
  assert (Hx' : x ∈ kys.*2) by (rewrite Hperm; apply elem_of_app; by left).
  apply list_elem_of_fmap in Hx' as ([k x'] & -> & Hkx).
  destruct (sorted_head_least kys (k, x') Hsort Hkx) as ([k0 y] & kys' & -> & Hle).
  exists y. split.
  - unfold slice_to. destruct (Z.leb_spec 0 pop_size); [|lia].
    destruct (Z.to_nat pop_size) eqn:E; [lia|]. simpl. left.
  - eapply Forall_forall in Hkx as Hk; [|exact Hkeys].
    apply Forall_cons in Hkeys as [Hk0 _]. simpl in *. lra.
Qed.

Lemma genetic_run_no_worse :
  Forall exact_mode courses →
  returns genetic_run (λ pops, no_worse pops.1 pops.2).
Proof.
  intros Hx. unfold genetic_run.
  eapply returns_bind; [apply returns_initial_population|]. intros pop0 [Hl0 Hv0].
  eapply returns_bind.
  { apply (returns_iterM _ next_population
             (λ pop, length pop = Z.to_nat pop_size ∧ Forall valid_chrom pop
                     ∧ no_worse pop0 pop)).
    - split; [done|]. split; [done|]. apply no_worse_refl.
    - intros pop (Hl & Hv & Hnw).
      eapply returns_weaken.
      + eapply returns_and; [by apply returns_next_population|].
        by apply next_population_no_worse.
      + intros pop' [[Hl' Hv'] Hnw']. split; [done|]. split; [done|].
        by eapply no_worse_trans. }
  intros pop (_ & _ & Hnw). by apply returns_ret.
Qed.

Lemma returns_evolve_shape population :
  returns (evolve population)
    (λ g, length (gen_parents g) = Z.to_nat pop_size
          ∧ paired (gen_parents g) (range_step2 (Z.to_nat pop_size)) (gen_offspring g)).
Proof.
  unfold evolve.
  eapply returns_bind; [apply returns_replicateM, returns_True|].
  intros parents [Hlen _].
  eapply returns_bind; [apply returns_reproduce|]. intros offspring Hoff.
  eapply returns_bind; [apply returns_True|]. intros mutated _.
  eapply returns_bind; [apply returns_True|]. intros merged _.
  by apply returns_ret.
Qed.

(** *** Best fitness *)

Lemma least_le l m x : least l = Some m → x ∈ l → (m <= x)%Q.
Proof.
  revert m. induction l as [|y l IH]; intros m Hm Hx; [by apply elem_of_nil in Hx|].
  simpl in Hm. destruct (least l) as [m'|] eqn:E.
  - injection Hm as <-. apply elem_of_cons in Hx as [->|Hx].
    + apply Q.le_min_l.
    + eapply Qle_trans; [apply Q.le_min_r | by apply IH].
  - injection Hm as <-. apply elem_of_cons in Hx as [->|Hx]; [lra|].
    destruct l; [by apply elem_of_nil in Hx|]. simpl in E.
    destruct (least l); discriminate.
Qed.

Lemma least_attained l m : least l = Some m → ∃ x, x ∈ l ∧ (m == x)%Q.
Proof.
  revert m. induction l as [|y l IH]; intros m Hm; [discriminate|].
  simpl in Hm. destruct (least l) as [m'|] eqn:E.
  - injection Hm as <-. destruct (Q.min_spec y m') as [[_ H]|[_ H]].
    + exists y. split; [left | done].
    + destruct (IH m' eq_refl) as (x & Hx & Hmx). exists x.
      split; [by right|]. by rewrite H.
  - injection Hm as <-. exists y. split; [left | reflexivity].
Qed.

Lemma least_is_Some l : l ≠ [] → is_Some (least l).
Proof. destruct l as [|x l]; [done|]. intros _. simpl. destruct (least l); eauto. Qed.

Lemma least_Some_nonempty l m : least l = Some m → l ≠ [].
Proof. by destruct l. Qed.

Lemma no_worse_best pop pop' b b' :
  no_worse pop pop' → best_fitness pop = Some b → best_fitness pop' = Some b' →
  (b' <= b)%Q.
Proof.
  unfold best_fitness. intros Hnw Hb Hb'.
  apply least_attained in Hb as (v & Hv & Hbv).
  apply list_elem_of_fmap in Hv as (x & -> & Hx).
  destruct (Hnw x Hx) as (y & Hy & Hle).
  assert (b' <= exact_fitness y)%Q.
  { eapply least_le; [exact Hb'|]. apply list_elem_of_fmap. eauto. }
  lra.
Qed.

(** *** An empty roster *)

Lemma fails_foldM_at {S A B} (f : B → A → M S B) l1 x l2 b :
  (∀ b, fails (f b x)) → fails (foldM f (l1 ++ x :: l2) b).
Proof.
  intros Hx s. rewrite foldM_app. unfold bind.
  destruct (foldM f l1 b s) as [[b' s']|e]; [|by exists e].
  simpl. unfold bind. destruct (Hx b' s') as [e ->]. by exists e.
Qed.

Lemma fails_on_fst {S T A} (m : M S A) : fails m → fails (on_fst (T:=T) m).
Proof. intros Hm [s t]. unfold on_fst. simpl. destruct (Hm s) as [e ->]. by exists e. Qed.

Lemma fails_fitness c bad :
  bad ∈ courses → course_students bad = [] → length c = n_courses →
  fails (fitness c).
Proof.
  intros Hbad Hs Hlen. apply list_elem_of_lookup in Hbad as [i Hi].
  assert (Hlt : (i < length c)%nat).
  { rewrite Hlen. by eapply lookup_lt_Some. }
  apply lookup_lt_is_Some_2 in Hlt as [g Hg].
  assert (Hig : imap pair c !! i = Some (i, g)).
  { by rewrite list_lookup_imap, Hg. }
  apply list_elem_of_split_length in Hig as (l1 & l2 & Heq & _).
  rewrite fitness_eq, Heq. apply fails_foldM_at. intros acc.
  unfold fitness_term. simpl.
  eapply fails_bind_post; [apply returns_index|]. intros course Hc.
  cbv beta in Hc. rewrite Hi in Hc. injection Hc as <-.
  apply fails_bind_r. intros r.
  apply fails_bind_l, fails_on_fst. by apply fails_travel_cost.
Qed.

Lemma min_by_head_key {S A} (key : A → M S Q) xs s y s' :
  min_by key xs s = OK (y, s') → ∃ x xs' k s1, xs = x :: xs' ∧ key x s = OK (k, s1).
Proof.
  destruct xs as [|x xs']; [discriminate|]. simpl.
  intros (k & s1 & Hk & _)%bind_OK. eauto 6.
Qed.

Lemma fails_genetic_allocate bad :
  bad ∈ courses → course_students bad = [] → fails genetic_allocate.
Proof.
  intros Hbad Hs s.
  destruct (genetic_allocate s) as [[d s']|e] eqn:E; [|by exists e].
  exfalso. unfold genetic_allocate in E.
  apply bind_OK in E as ([pop0 pop] & s1 & Hrun & E).
  apply returns_genetic_run in Hrun as (_ & _ & _ & Hv). simpl in *.
  apply bind_OK in E as (best & s2 & Hmin & _).
  apply min_by_head_key in Hmin as (x & xs' & k & s3 & -> & Hk).
  apply Forall_cons in Hv as [Hx _].
  destruct (fails_fitness x bad Hbad Hs (valid_chrom_length x Hx) s1) as [e He].
  congruence.
Qed.

(** *** A course with no feasible room *)

Lemma choice_total {A} (xs : list A) g :
  xs ≠ [] → ∃ x g', choice xs g = OK (x, g').
Proof.
  intros Hne. unfold choice. destruct xs as [|x0 xs0]; [done|].
  destruct (randbelow_total (length (x0 :: xs0)) g) as (j & g1 & E).
  unfold bind. rewrite E.
  assert (Hj : (j < length (x0 :: xs0))%nat).
  { eapply (returns_randbelow (length (x0 :: xs0))); [simpl; lia | exact E]. }
  destruct (lookup_lt_is_Some_2 _ _ Hj) as [x ->]. unfold ret. eauto.
Qed.

Lemma random_chrom_gen (frs : list (list nat)) st :
  [] ∈ frs → mapM (λ fr, on_snd (S:=rand) (choice fr)) frs st = Err IndexError.
Proof.
  revert st. induction frs as [|fr frs IH]; intros st Hin;
    [by apply elem_of_nil in Hin|].
  simpl. unfold bind at 1. destruct fr as [|i fr].
  - reflexivity.
  - apply elem_of_cons in Hin as [[=]|Hin].
    unfold on_snd at 1.
    destruct (choice_total (i :: fr) st.2) as (x & g' & ->); [done|].
    unfold bind at 1. by rewrite IH.
Qed.

(** With a course that no room fits, building the first individual raises
    the [IndexError] of [rng.choice] on an empty list. *)
Lemma genetic_allocate_no_feasible_room bad st :
  (0 < pop_size)%Z → bad ∈ courses → feasible_for rooms bad = [] →
  genetic_allocate st = Err IndexError.
Proof.
  intros Hpos Hbad Hnil.
  unfold genetic_allocate, genetic_run, initial_population.
  destruct (Z.to_nat pop_size) as [|n] eqn:E; [lia|]. simpl.
  unfold bind at 1. unfold bind at 1. unfold bind at 1.
  unfold random_chrom. rewrite random_chrom_gen; [done|].
  unfold feasible_rooms. rewrite <- Hnil. apply list_elem_of_fmap. eauto.
Qed.

End GeneticProperties.

(** An empty roster makes local search fail on its first cost. *)
Lemma fails_local_search allocation courses rooms max_iter bad :
  bad ∈ courses → course_students bad = [] →
  fails (local_search allocation courses rooms max_iter).
Proof.
  intros Hbad Hs. unfold local_search, local_search_run.
  apply fails_bind_l, fails_bind_l.
  apply list_elem_of_split in Hbad as (l1 & l2 & ->).
  rewrite cost_of_alloc_eq. apply fails_foldM_at. intros acc.
  unfold cost_term.
  apply fails_bind_r. intros rid. apply fails_bind_r. intros r.
  apply fails_bind_l. by apply fails_travel_cost.
Qed.

Lemma ls_swap_dom T courses fr fr' :
  ls_swap T courses fr fr' → dom (ls_current fr') = dom (ls_current fr).
Proof.
  intros [c1 c2 rest rid1 rid2 r1 r2 t12 t21 t11 t22 _ _ H1 _ H2 _]. simpl.
  rewrite dom_insert_lookup_L.
  - apply dom_insert_lookup_L. eauto.
  - apply lookup_insert_is_Some'. right. eauto.
Qed.

Lemma local_search_run_dom allocation courses rooms max_iter :
  returns (local_search_run allocation courses rooms max_iter)
          (λ fr, dom (ls_current fr) = dom allocation).
Proof.
  apply (returns_local_search_run any_cost (λ _, True)).
  - apply returns_any_cost.
  - apply returns_True.
  - done.
  - intros fr fr' Hfr Hswap. by rewrite (ls_swap_dom _ _ _ _ Hswap).
Qed.

Lemma rooms_dict_by_id rooms : rooms_by_id (rooms_dict rooms).
Proof.
  unfold rooms_dict.
  assert (H : ∀ d, rooms_by_id d → rooms_by_id (foldl (λ d r, <[room_id r := r]> d) d rooms)).
  { induction rooms as [|r rooms IH]; intros d Hd; simpl; [done|].
    apply IH. intros k r'. rewrite lookup_insert. case_decide.
    - intros [= <-]. done.
    - apply Hd. }
  apply H. intros k r. by rewrite lookup_empty.
Qed.

Lemma travel_cost_sampled course room g smp g' :
  (sample_cap < length (course_students course))%nat →
  sample (course_students course) sample_cap g = OK (smp, g') →
  travel_cost course room g
  = OK ((euclidean (person_coord (course_teacher course)) (room_coord room)
         + sumQ (map (λ s, euclidean (person_coord s) (room_coord room)) smp)
           * (inject_Z (Z.of_nat (length (course_students course)))
              / inject_Z (Z.of_nat sample_cap)))%Q, g').
Proof.
  intros Hlt Hs. unfold travel_cost.
  rewrite Nat.min_l by lia.
  destruct (Nat.ltb_spec sample_cap (length (course_students course))); [|lia].
  unfold bind. rewrite Hs. reflexivity.
Qed.

(** ** Binary64 *)

(** *** The order of floats *)

Ltac sf_cases :=
  unfold SFltb, SFeqb, SFcompare;
  repeat match goal with s : bool |- _ => destruct s end;
  change (Pos.compare_cont Eq) with Pos.compare;
  repeat match goal with
  | |- context [Z.compare ?x ?y] => destruct (Z.compare_spec x y)
  | |- context [Pos.compare ?x ?y] => destruct (Pos.compare_spec x y)
  end; simpl; intros; subst; try done; try lia.

Lemma SFltb_trans a b c : SFltb a b = true → SFltb b c = true → SFltb a c = true.
Proof. destruct a, b, c; sf_cases. Qed.

Lemma SFltb_below a b c :
  SFltb a b = true → SFltb c b = false → SFeqb c c = true → SFltb a c = true.
Proof. destruct a, b, c; sf_cases. Qed.

Lemma ltb_trans (x y z : float) :
  (x <? y)%float = true → (y <? z)%float = true → (x <? z)%float = true.
Proof. rewrite !ltb_spec. apply SFltb_trans. Qed.

(** Whatever is not below [y] is above everything below [y], unless it is
    a NaN. *)
Lemma ltb_below (x y z : float) :
  (x <? y)%float = true → (z <? y)%float = false → is_number z →
  (x <? z)%float = true.
Proof. unfold is_number. rewrite !ltb_spec, FloatAxioms.eqb_spec. apply SFltb_below. Qed.

(** *** Minima *)

Lemma returns_min_by_from64_least {S A} (key : A → M S float) (K : A → float)
    best bestk xs :
  (∀ x, x ∈ xs → returns (key x) (λ k, k = K x)) →
  (∀ x, x ∈ xs → is_number (K x)) →
  bestk = K best →
  returns (min_by_from64 key best bestk xs)
    (λ y, (y = best ∧ ∀ x, x ∈ xs → (K x <? K best)%float = false)
          ∨ ∃ l1 l2, xs = l1 ++ y :: l2 ∧ (K y <? K best)%float = true
              ∧ (∀ x, x ∈ l1 → (K y <? K x)%float = true)
              ∧ (∀ x, x ∈ l2 → (K x <? K y)%float = false)).
Proof.
  revert best bestk. induction xs as [|x xs IH]; intros best bestk HK Hnum Hb; simpl.
  - apply returns_ret. left. split; [done|]. intros x Hx. by apply elem_of_nil in Hx.
  - eapply returns_bind; [apply HK; left|]. intros k Hk. cbv beta in Hk. subst k bestk.
    assert (HK' : ∀ z, z ∈ xs → returns (key z) (λ k, k = K z))
      by (intros; apply HK; by right).
    assert (Hnum' : ∀ z, z ∈ xs → is_number (K z)) by (intros; apply Hnum; by right).
    destruct (K x <? K best)%float eqn:Hlt.
    + eapply returns_weaken; [apply (IH x (K x) HK' Hnum' eq_refl)|].
      intros y [[-> Hall] | (l1 & l2 & -> & Hy & H1 & H2)]; right.
      * exists [], xs. split; [done|]. split; [done|]. split; [|done].
        intros z Hz. by apply elem_of_nil in Hz.
      * exists (x :: l1), l2. split; [done|].
        split; [by eapply ltb_trans|]. split; [|done].
        intros z [->|Hz]%elem_of_cons; [done | by apply H1].
    + eapply returns_weaken; [apply (IH best (K best) HK' Hnum' eq_refl)|].
      intros y [[-> Hall] | (l1 & l2 & -> & Hy & H1 & H2)].
      * left. split; [done|]. intros z [->|Hz]%elem_of_cons; [done | by apply Hall].
      * right. exists (x :: l1), l2. split; [done|]. split; [done|]. split; [|done].
        intros z [->|Hz]%elem_of_cons; [|by apply H1].
        eapply ltb_below; [exact Hy | exact Hlt | apply Hnum; left].
Qed.

Lemma returns_min_by64_least {S A} (key : A → M S float) (K : A → float) xs :
  (∀ x, x ∈ xs → returns (key x) (λ k, k = K x)) →
  (∀ x, x ∈ xs → is_number (K x)) →
  returns (min_by64 key xs)
    (λ y, ∃ l1 l2, xs = l1 ++ y :: l2
            ∧ (∀ x, x ∈ l1 → (K y <? K x)%float = true)
            ∧ (∀ x, x ∈ l2 → (K x <? K y)%float = false)).
Proof.
  destruct xs as [|x xs]; intros HK Hnum; simpl; [apply returns_raise|].
  eapply returns_bind; [apply HK; left|]. intros k Hk. cbv beta in Hk.
  eapply returns_weaken.
  - apply (returns_min_by_from64_least key K x k xs); [| |done].
    + intros; apply HK; by right.
    + intros; apply Hnum; by right.
  - intros y [[-> Hall] | (l1 & l2 & -> & Hy & H1 & H2)].
    + exists [], xs. split; [done|]. split; [|done].
      intros z Hz. by apply elem_of_nil in Hz.
    + exists (x :: l1), l2. split; [done|]. split; [|done].
      intros z [->|Hz]%elem_of_cons; [done | by apply H1].
Qed.

Section Binary64Properties.

Variable euclidean64 : coord → coord → float.

Local Abbreviation travel_cost64 := (travel_cost64 euclidean64).
Local Abbreviation full_travel_cost64 := (full_travel_cost64 euclidean64).
Local Abbreviation cost_of_alloc64 := (cost_of_alloc64 euclidean64).
Local Abbreviation ls_step64 := (ls_step64 euclidean64).
Local Abbreviation ls_swap64 := (ls_swap64 euclidean64).
Local Abbreviation local_search_run64 := (local_search_run64 euclidean64).
Local Abbreviation local_search64 := (local_search64 euclidean64).

(** *** Cost model *)

Lemma travel_cost64_empty course room g :
  course_students course = [] → travel_cost64 course room g = Err ZeroDivisionError.
Proof. intros H. unfold travel_cost64. rewrite H. reflexivity. Qed.

(** With at most 30 students nothing is drawn: the value is a function of
    the course and the room. *)
Lemma travel_cost64_full course room g :
  course_students course ≠ [] → exact_mode course →
  travel_cost64 course room g = OK (full_travel_cost64 course room, g).
Proof.
  unfold exact_mode, travel_cost64, full_travel_cost64. intros Hne Hle.
  destruct (course_students course) as [|s0 ss] eqn:E; [done|].
  set (n := length (s0 :: ss)) in *.
  assert (Hn : n ≠ 0%nat) by (subst n; simpl; lia).
  rewrite Nat.min_r by exact Hle. rewrite Nat.ltb_irrefl.
  unfold bind, ret. by destruct (Nat.eqb_spec n 0) as [?|_].
Qed.

Lemma returns_travel_cost64_full course room :
  exact_mode course →
  returns (travel_cost64 course room) (λ v, v = full_travel_cost64 course room).
Proof.
  intros Hx g v g' H. destruct (course_students course) as [|s0 ss] eqn:E.
  - rewrite travel_cost64_empty in H by exact E. discriminate.
  - rewrite travel_cost64_full in H; [|by rewrite E | done]. by injection H as <- _.
Qed.

Lemma travel_cost64_sampled course room g smp g' :
  (sample_cap < length (course_students course))%nat →
  sample (course_students course) sample_cap g = OK (smp, g') →
  travel_cost64 course room g
  = OK ((euclidean64 (person_coord (course_teacher course)) (room_coord room)
         + sum64 (map (λ s, euclidean64 (person_coord s) (room_coord room)) smp)
           * (f64_of_nat (length (course_students course)) / f64_of_nat sample_cap))%float,
        g').
Proof.
  intros Hlt Hs. unfold travel_cost64.
  rewrite Nat.min_l by lia.
  destruct (Nat.ltb_spec sample_cap (length (course_students course))); [|lia].
  unfold bind. rewrite Hs. reflexivity.
Qed.

(** *** Local search *)

Lemma returns_ls_step64 courses fr :
  Forall exact_mode courses →
  returns (ls_step64 courses fr) (λ fr', fr' = fr ∨ ls_swap64 courses fr fr').
Proof.
  intros Hx. rewrite Forall_forall in Hx. unfold ls_step64.
  eapply returns_bind; [apply sample_two|].
  intros l (c1 & c2 & rest & -> & Hperm).
  assert (Hc1 : exact_mode c1) by (apply Hx; rewrite Hperm; left).
  assert (Hc2 : exact_mode c2) by (apply Hx; rewrite Hperm; right; left).
  case_bool_decide as Hts; [apply returns_ret; by left|].
  eapply returns_bind; [apply returns_getitem|]. intros rid1 Hrid1.
  eapply returns_bind; [apply returns_getitem|]. intros r1 Hr1.
  eapply returns_bind; [apply returns_getitem|]. intros rid2 Hrid2.
  eapply returns_bind; [apply returns_getitem|]. intros r2 Hr2.
  destruct (Z.ltb_spec (room_capacity r1) (course_size c2)) as [|Hcap1];
    [apply returns_ret; by left|].
  destruct (Z.ltb_spec (room_capacity r2) (course_size c1)) as [|Hcap2];
    [apply returns_ret; by left|].
  simpl.
  eapply returns_bind; [by apply returns_travel_cost64_full|]. intros t12 ->.
  eapply returns_bind; [by apply returns_travel_cost64_full|]. intros t21 ->.
  eapply returns_bind; [by apply returns_travel_cost64_full|]. intros t11 ->.
  eapply returns_bind; [by apply returns_travel_cost64_full|]. intros t22 ->.
  fold (swap_delta64 euclidean64 c1 c2 r1 r2).
  destruct (swap_delta64 euclidean64 c1 c2 r1 r2 <? PrimFloat.zero)%float eqn:Hd;
    apply returns_ret; [right | by left].
  cbv beta in *. eapply LsSwap64; eassumption.
Qed.

Lemma iterM_rtc {S B} n (f : B → M S B) (R : relation B) b s b' s' :
  (∀ b, returns (f b) (λ b', b' = b ∨ R b b')) →
  iterM n f b s = OK (b', s') → rtc R b b'.
Proof.
  intros Hf. revert b s. induction n as [|n IH]; intros b s; simpl.
  - by intros [= <- _].
  - intros (b1 & s1 & H1 & H2)%bind_OK.
    destruct (Hf b _ _ _ H1) as [->|HR]; [by eapply IH|].
    eapply rtc_l; [exact HR | by eapply IH].
Qed.

Lemma local_search_run64_swaps allocation courses rooms max_iter g fr g' :
  Forall exact_mode courses →
  local_search_run64 allocation courses rooms max_iter g = OK (fr, g') →
  ∃ v0 g0,
    cost_of_alloc64 rooms courses allocation g = OK (v0, g0)
    ∧ rtc (ls_swap64 courses) (mkFrame64 allocation rooms allocation v0) fr.
Proof.
  intros Hx Hrun. unfold local_search_run64 in Hrun. cbv zeta in Hrun.
  apply bind_OK in Hrun as (v0 & g0 & Hcost & Hiter).
  exists v0, g0. split; [done|].
  eapply iterM_rtc; [|exact Hiter]. intros fr0. by apply returns_ls_step64.
Qed.

End Binary64Properties.

(** * Main theorems *)

(** C2.  Whenever one of the three allocators returns a mapping, every
    entry of the mapping seats a course in a room whose capacity is at
    least the size of the course; with pairwise distinct course
    identifiers this holds of every course.  For [local_search] the
    property is assumed of the allocation it receives, and its room lookup
    is keyed by room identifier. *)
Theorem capacity_respected :
  (∀ courses rooms h g alloc g',
     greedy_allocate courses rooms h g = OK (alloc, g') →
     entries_fit courses (listed h rooms) alloc
     ∧ (distinct_ids courses → courses_fit courses (listed h rooms) alloc))
  ∧ (∀ allocation courses rooms max_iter g alloc g',
       rooms_by_id rooms →
       local_search allocation courses rooms max_iter g = OK (alloc, g') →
       (entries_fit courses (in_dict rooms) allocation →
        entries_fit courses (in_dict rooms) alloc)
       ∧ (distinct_ids courses → courses_fit courses (in_dict rooms) allocation →
          courses_fit courses (in_dict rooms) alloc))
  ∧ (∀ courses rooms pop_size generations crossover_rate mutation_rate st alloc st',
       genetic_allocate courses rooms pop_size generations crossover_rate
         mutation_rate st = OK (alloc, st') →
       entries_fit courses (.∈ rooms) alloc
       ∧ (distinct_ids courses → courses_fit courses (.∈ rooms) alloc)).
Proof.
  split; [|split].
  - intros courses rooms h g alloc g' Hrun.
    pose proof (greedy_entries_fit courses rooms h _ _ _ Hrun) as Hent.
    split; [done|]. intros Hnd. apply entries_fit_courses_fit; [done| |done].
    by eapply greedy_complete.
  - intros allocation courses rooms max_iter g alloc g' Hkey Hrun. split.
    + intros Hent. by eapply local_search_entries_fit.
    + intros Hnd Hfit. by eapply local_search_courses_fit.
  - intros courses rooms pop_size generations cr mr st alloc st' Hrun.
    apply returns_genetic_allocate in Hrun as [Hdom Hent].
    split; [done|]. intros Hnd. by apply entries_fit_courses_fit.
Qed.

(** C3.  With pairwise distinct course identifiers, and room identifiers
    that tell the room objects apart, no two distinct courses of one
    time-slot are mapped to the same room by an allocation returned by
    [greedy_allocate]; and
    [local_search], with a room lookup keyed by identifier, returns an
    allocation with this property whenever it receives one. *)
Theorem one_course_per_room_and_slot :
  (∀ courses rooms h g alloc g',
     distinct_ids courses → room_ids_identify h rooms →
     greedy_allocate courses rooms h g = OK (alloc, g') →
     no_double_booking courses alloc)
  ∧ (∀ allocation courses rooms max_iter g alloc g',
       distinct_ids courses → rooms_by_id rooms →
       no_double_booking courses allocation →
       local_search allocation courses rooms max_iter g = OK (alloc, g') →
       no_double_booking courses alloc).
Proof.
  split.
  - intros courses rooms h g alloc g' Hc Hr Hrun.
    by eapply greedy_no_double_booking.
  - intros allocation courses rooms max_iter g alloc g' Hnd Hkey Hin Hrun.
    by eapply local_search_no_double_booking.
Qed.


(** C6.  In exact mode the fitness of a chromosome is a value, and when
    the generations have run, the best fitness of the final population is
    at most the best fitness of the initial population; a call of
    [genetic_allocate] that returns has had both populations non-empty, so
    both best fitnesses exist. *)
Theorem genetic_best_fitness_never_worse
    courses rooms pop_size generations crossover_rate mutation_rate :
  Forall exact_mode courses →
  (∀ c st v st', fitness courses rooms c st = OK (v, st') →
                 (v == exact_fitness courses rooms c)%Q)
  ∧ (∀ st pop0 pop st',
       genetic_run courses rooms pop_size generations crossover_rate
         mutation_rate st = OK ((pop0, pop), st') →
       ∀ b0, best_fitness courses rooms pop0 = Some b0 →
         ∃ b, best_fitness courses rooms pop = Some b ∧ (b <= b0)%Q)
  ∧ (∀ st alloc st',
       genetic_allocate courses rooms pop_size generations crossover_rate
         mutation_rate st = OK (alloc, st') →
       ∃ pop0 pop st1 b0 b,
         genetic_run courses rooms pop_size generations crossover_rate
           mutation_rate st = OK ((pop0, pop), st1)
         ∧ best_fitness courses rooms pop0 = Some b0
         ∧ best_fitness courses rooms pop = Some b ∧ (b <= b0)%Q).
Proof.
  intros Hx.
  assert (Hrun_best : ∀ st pop0 pop st',
    genetic_run courses rooms pop_size generations crossover_rate
      mutation_rate st = OK ((pop0, pop), st') →
    ∀ b0, best_fitness courses rooms pop0 = Some b0 →
      ∃ b, best_fitness courses rooms pop = Some b ∧ (b <= b0)%Q).
  { intros st pop0 pop st' Hrun b0 Hb0.
    pose proof (genetic_run_no_worse _ _ _ _ _ _ Hx _ _ _ Hrun) as Hnw.
    apply returns_genetic_run in Hrun as (Hl0 & _ & Hl & _). simpl in *.
    destruct (least_is_Some (exact_fitness courses rooms <$> pop)) as [b Hb].
    { apply least_Some_nonempty in Hb0. destruct pop0; [done|].
      destruct pop; [simpl in *; lia | done]. }
    exists b. split; [done|]. by eapply no_worse_best. }
  split; [|split].
  - intros c st v st' H. by eapply returns_fitness_exact.
  - exact Hrun_best.
  - intros st alloc st' Hcall. unfold genetic_allocate in Hcall.
    apply bind_OK in Hcall as ([pop0 pop] & st1 & Hrun & Hcall).
    apply bind_OK in Hcall as (best & st2 & Hmin & _). simpl in Hmin.
    apply min_by_head_key in Hmin as (x & xs & k & st3 & -> & _).
    pose proof (returns_genetic_run _ _ _ _ _ _ _ _ _ Hrun) as (Hl0 & _ & Hl & _).
    simpl in *.
    destruct (least_is_Some (exact_fitness courses rooms <$> pop0)) as [b0 Hb0].
    { destruct pop0; [simpl in *; lia | done]. }
    destruct (Hrun_best _ _ _ _ Hrun b0 Hb0) as (b & Hb & Hle).
    exists pop0, (x :: xs), st1, b0, b. done.
Qed.

(** C7.  [local_search] writes neither of the objects it receives: when
    it returns, the caller's allocation and the room lookup (schedules
    included) are as they were, the returned mapping has the keys of the
    allocation received, and the schedules are not read: the outcome is
    the same for room lookups that differ in schedules only. *)
Theorem local_search_leaves_inputs :
  (∀ allocation courses rooms max_iter g fr g',
     local_search_run allocation courses rooms max_iter g = OK (fr, g') →
     ls_allocation fr = allocation ∧ ls_rooms fr = rooms
     ∧ dom (ls_current fr) = dom allocation)
  ∧ (∀ allocation courses rooms rooms' max_iter g,
       forget_schedule <$> rooms = forget_schedule <$> rooms' →
       local_search allocation courses rooms max_iter g
       = local_search allocation courses rooms' max_iter g).
Proof.
  split.
  - intros allocation courses rooms max_iter g fr g' Hrun.
    destruct (local_search_run_frame _ _ _ _ _ _ _ Hrun) as [? ?].
    split; [done|]. split; [done|]. by eapply local_search_run_dom.
  - intros allocation courses rooms rooms' max_iter g Heq.
    rewrite <- (local_search_forget _ _ rooms), <- (local_search_forget _ _ rooms').
    by rewrite Heq.
Qed.

(** C8.  For a roster of 1 to 30 students [travel_cost] returns, from every
    state of the generator and without drawing from it, one value: the
    teacher's distance to the room plus the sum of the students' distances
    (the scale factor is 1).  Above 30 the value depends on the draws: as
    soon as two positions lie at different distances from the room, some
    roster of 31 gives two different values. *)
Theorem travel_cost_exact_up_to_cap :
  (∀ course room,
     (1 ≤ length (course_students course) ≤ sample_cap)%nat →
     ∃ v, (∀ g, travel_cost course room g = OK (v, g))
          ∧ (v == exact_travel_cost course room)%Q)
  ∧ (∀ room p1 p2,
       ¬ (euclidean p1 (room_coord room) == euclidean p2 (room_coord room))%Q →
       ∃ course g1 g2 v1 v2 g1' g2',
         (sample_cap < length (course_students course))%nat
         ∧ travel_cost course room g1 = OK (v1, g1')
         ∧ travel_cost course room g2 = OK (v2, g2')
         ∧ ¬ (v1 == v2)%Q).
Proof.
  split.
  - intros course room [Hlo Hhi].
    set (n := length (course_students course)) in *.
    exists (euclidean (person_coord (course_teacher course)) (room_coord room)
            + sumQ (map (λ s, euclidean (person_coord s) (room_coord room))
                        (course_students course))
              * (inject_Z (Z.of_nat n) / inject_Z (Z.of_nat n)))%Q.
    split.
    + intros g. unfold travel_cost. fold n.
      rewrite Nat.min_r by exact Hhi. rewrite Nat.ltb_irrefl.
      unfold bind, ret. destruct (Nat.eqb_spec n 0) as [?|_]; [lia | done].
    + unfold exact_travel_cost. rewrite scale_one by lia. reflexivity.
  - intros room p1 p2 Hne.
    set (far := mkPerson "s1" p1). set (near := mkPerson "s2" p2).
    set (course := mkCourse "c" 31 near (replicate 30 near ++ [far]) 0).
    assert (Hlen : (sample_cap < length (course_students course))%nat)
      by (unfold sample_cap; simpl; lia).
    exists course, [], [30%N].
    do 4 eexists. split; [exact Hlen|].
    split; [apply travel_cost_sampled; [exact Hlen | reflexivity]|].
    split; [apply travel_cost_sampled; [exact Hlen | reflexivity]|].
    change (inject_Z (Z.of_nat (length (course_students course)))
            / inject_Z (Z.of_nat sample_cap))%Q with ((31 # 1) / (30 # 1))%Q.
    assert (Hscale : ((31 # 1) / (30 # 1) == 31 # 30)%Q) by reflexivity.
    unfold sumQ. simpl.
    set (e1 := euclidean p1 (room_coord room)) in *.
    set (e2 := euclidean p2 (room_coord room)) in *.
    clearbody e1 e2. intros Heq. apply Hne. rewrite Hscale in Heq. lra.
Qed.

(** C9.  A generation that completes has selected [pop_size] parents, an
    even number; its reproduction loop has taken them in consecutive pairs
    [(0, 1), (2, 3), ...], each pair giving two children (the parents
    themselves, or their two single-point crossings), so the offspring are
    as many as the parents. *)
Theorem reproduction_pairs_parents
    courses rooms pop_size crossover_rate mutation_rate population st g st' :
  evolve courses rooms pop_size crossover_rate mutation_rate population st
  = OK (g, st') →
  length (gen_parents g) = Z.to_nat pop_size
  ∧ paired courses (gen_parents g) (range_step2 (Z.to_nat pop_size)) (gen_offspring g)
  ∧ length (gen_offspring g) = length (gen_parents g)
  ∧ Nat.Even (Z.to_nat pop_size).
Proof.
  intros Hrun. apply returns_evolve_shape in Hrun as [Hlen Hpair].
  destruct (paired_count courses pop_size _ _ Hlen Hpair) as [Hev Hcount].
  done.
Qed.

(** C10.  For a course with no enrolled student [travel_cost] raises
    [ZeroDivisionError]; hence a fitness evaluation over a course list
    holding such a course raises, and none of the three allocators returns
    when given such a course. *)
Theorem empty_roster_division_by_zero bad :
  course_students bad = [] →
  (∀ room g, travel_cost bad room g = Err ZeroDivisionError)
  ∧ (∀ courses rooms h, bad ∈ courses → fails (greedy_allocate courses rooms h))
  ∧ (∀ courses rooms c, bad ∈ courses → length c = n_courses courses →
       fails (fitness courses rooms c))
  ∧ (∀ courses rooms pop_size generations crossover_rate mutation_rate,
       bad ∈ courses →
       fails (genetic_allocate courses rooms pop_size generations
                crossover_rate mutation_rate))
  ∧ (∀ allocation courses rooms max_iter, bad ∈ courses →
       fails (local_search allocation courses rooms max_iter)).
Proof.
  intros Hs. split; [|split; [|split; [|split]]].
  - intros room g. by apply travel_cost_empty.
  - intros courses rooms h Hin. by eapply greedy_fails_on_empty_roster.
  - intros courses rooms c Hin Hlen. by eapply fails_fitness.
  - intros courses rooms pop_size generations cr mr Hin.
    by eapply fails_genetic_allocate.
  - intros allocation courses rooms max_iter Hin. by eapply fails_local_search.
Qed.

(** * Further properties *)

(** ** Minima *)

(** With keys that are values ([K]), [min] returns the first item of
    least key. *)
Lemma returns_min_by_from_least {S A} (key : A → M S Q) (K : A → Q) best bestk xs :
  (∀ x, x ∈ xs → returns (key x) (λ k, (k == K x)%Q)) →
  (bestk == K best)%Q →
  returns (min_by_from key best bestk xs)
    (λ y, (y = best ∧ ∀ x, x ∈ xs → (K best <= K x)%Q)
          ∨ ∃ l1 l2, xs = l1 ++ y :: l2 ∧ (K y < K best)%Q
              ∧ (∀ x, x ∈ l1 → (K y < K x)%Q)
              ∧ (∀ x, x ∈ l2 → (K y <= K x)%Q)).
Proof.
  revert best bestk. induction xs as [|x xs IH]; intros best bestk HK Hb; simpl.
  - apply returns_ret. left. split; [done|]. intros x Hx. by apply elem_of_nil in Hx.
  - eapply returns_bind; [apply HK; left|]. intros k Hk. cbv beta in Hk.
    assert (HK' : ∀ z, z ∈ xs → returns (key z) (λ k, (k == K z)%Q))
      by (intros; apply HK; by right).
    destruct (Qlt_le_dec k bestk) as [Hlt|Hle].
    + eapply returns_weaken; [apply (IH x k HK' Hk)|].
      intros y [[-> Hall] | (l1 & l2 & -> & Hy & H1 & H2)]; right.
      * exists [], xs. split; [done|]. split; [lra|]. split; [|done].
        intros z Hz. by apply elem_of_nil in Hz.
      * exists (x :: l1), l2. split; [done|]. split; [lra|]. split; [|done].
        intros z [->|Hz]%elem_of_cons; [done | by apply H1].
    + eapply returns_weaken; [apply (IH best bestk HK' Hb)|].
      intros y [[-> Hall] | (l1 & l2 & -> & Hy & H1 & H2)].
      * left. split; [done|]. intros z [->|Hz]%elem_of_cons; [lra | by apply Hall].
      * right. exists (x :: l1), l2. split; [done|]. split; [done|]. split; [|done].
        intros z [->|Hz]%elem_of_cons; [lra | by apply H1].
Qed.

Lemma returns_min_by_least {S A} (key : A → M S Q) (K : A → Q) xs :
  (∀ x, x ∈ xs → returns (key x) (λ k, (k == K x)%Q)) →
  returns (min_by key xs)
    (λ y, ∃ l1 l2, xs = l1 ++ y :: l2
            ∧ (∀ x, x ∈ l1 → (K y < K x)%Q)
            ∧ (∀ x, x ∈ l2 → (K y <= K x)%Q)).
Proof.
  destruct xs as [|x xs]; intros HK; simpl; [apply returns_raise|].
  eapply returns_bind; [apply HK; left|]. intros k Hk. cbv beta in Hk.
  eapply returns_weaken.
  - apply (returns_min_by_from_least key K x k xs); [|done].
    intros; apply HK; by right.
  - intros y [[-> Hall] | (l1 & l2 & -> & Hy & H1 & H2)].
    + exists [], xs. split; [done|]. split; [|done].
      intros z Hz. by apply elem_of_nil in Hz.
    + exists (x :: l1), l2. split; [done|]. split; [|done].
      intros z [->|Hz]%elem_of_cons; [done | by apply H1].
Qed.

Lemma least_of_split {A} (K : A → Q) (xs l1 l2 : list A) y :
  xs = l1 ++ y :: l2 →
  (∀ x, x ∈ l1 → (K y < K x)%Q) → (∀ x, x ∈ l2 → (K y <= K x)%Q) →
  y ∈ xs ∧ ∀ x, x ∈ xs → (K y <= K x)%Q.
Proof.
  intros -> H1 H2. split; [apply elem_of_app; right; left|].
  intros x [Hx|[->|Hx]%elem_of_cons]%elem_of_app.
  - apply Qlt_le_weak. by apply H1.
  - lra.
  - by apply H2.
Qed.

(** ** Greedy allocation *)

Lemma greedy_trace_init h rooms : greedy_trace h rooms [] (mkGreedy h ∅).
Proof.
  split; [done|]. split; [by split|]. split; [by left|].
  intros cid rid H. simpl in H. by rewrite lookup_empty in H.
Qed.

Lemma greedy_trace_commit h rooms processed st course a :
  greedy_trace h rooms processed st → a ∈ rooms →
  is_available (gs_store st a) (course_timeslot course) (course_size course) = true →
  greedy_trace h rooms (processed ++ [course]) (commit st course a).
Proof.
  intros (Hsame & [Hout Hkeep] & Hnew & Hent) Ha Hav.
  pose proof Hav as Hav'. unfold is_available in Hav'.
  apply andb_true_iff in Hav' as [Hfree Hcap].
  apply bool_decide_eq_true in Hfree.
  destruct (Hsame a) as (_ & Hc & _).
  split; [|split; [split|split]].
  - intros b. simpl. unfold store_set. destruct (decide (b = a)) as [->|]; [|apply Hsame].
    simpl. apply Hsame.
  - intros b Hb. simpl. unfold store_set.
    destruct (decide (b = a)) as [->|]; [done | by apply Hout].
  - intros b t v Hv. simpl. unfold store_set.
    destruct (decide (b = a)) as [->|]; [|by apply Hkeep]. simpl.
    apply Hkeep in Hv. rewrite lookup_insert_ne; [done|]. intros <-. congruence.
  - intros b t v. simpl. unfold store_set.
    destruct (decide (b = a)) as [->|]; simpl.
    + rewrite lookup_insert. case_decide as Ht.
      * intros [= <-]. right. exists course. split; [|done].
        apply elem_of_app. right. left.
      * intros Hv. destruct (Hnew _ _ _ Hv) as [?|(c & Hc' & ? & ?)]; [by left|].
        right. exists c. split; [apply elem_of_app; by left | done].
    + intros Hv. destruct (Hnew _ _ _ Hv) as [?|(c & Hc' & ? & ?)]; [by left|].
      right. exists c. split; [apply elem_of_app; by left | done].
  - intros cid rid. simpl.
    destruct (decide (course_id course = cid)) as [<-|Hne].
    + rewrite lookup_insert_eq. intros [= <-]. exists course, a.
      split; [apply elem_of_app; right; left|]. split; [done|]. split; [done|].
      split; [symmetry; apply Hsame|].
      unfold is_available. apply andb_true_iff. split; [|by rewrite <- Hc].
      apply bool_decide_eq_true.
      destruct (room_schedule (h a) !! course_timeslot course) as [v|] eqn:E; [|done].
      apply Hkeep in E. congruence.
    + rewrite lookup_insert_ne by done. intros H.
      destruct (Hent _ _ H) as (c & b & Hc' & Hb & ? & ? & ?).
      exists c, b. split; [apply elem_of_app; by left | done].
Qed.

Lemma returns_greedy_trace h rooms courses :
  returns (greedy_loop rooms courses (mkGreedy h ∅)) (greedy_trace h rooms courses).
Proof.
  apply (returns_foldM_prefix (greedy_step rooms) (greedy_trace h rooms) [] courses).
  - apply greedy_trace_init.
  - intros pre c post st _ Hinv.
    eapply returns_weaken; [apply returns_greedy_step|].
    intros st' (a & Ha & Hav & ->). by apply greedy_trace_commit.
Qed.

(** X1.  [greedy_allocate] raises the infeasibility error for a course and
    a time-slot exactly when its loop, having placed every course that
    precedes in descending order of size (each at least as large), reaches
    a course of the list with that identifier and time-slot for which
    every listed room is occupied at the time-slot or too small. *)
Theorem greedy_raises_infeasible_exactly courses rooms h g cid ts :
  greedy_allocate courses rooms h g = Err (RuntimeError cid ts) ↔
  ∃ pre course post st g',
    sorted_by_size_desc courses = pre ++ course :: post
    ∧ course ∈ courses
    ∧ Forall (λ d, (course_size course ≤ course_size d)%Z) pre
    ∧ greedy_loop rooms pre (mkGreedy h ∅) g = OK (st, g')
    ∧ (∀ a, a ∈ rooms → occupied_or_undersized (gs_store st a) course)
    ∧ cid = course_id course ∧ ts = course_timeslot course.
Proof.
  rewrite greedy_infeasible_iff. split.
  - intros (pre & c & post & st & g' & Hsplit & Hpre & Hnil & -> & ->).
    exists pre, c, post, st, g'. split; [done|]. split; [|split; [|done]].
    + rewrite <- sorted_by_size_desc_perm, Hsplit. apply elem_of_app. right. left.
    + pose proof (sorted_by_size_desc_sorted courses) as Hs. rewrite Hsplit in Hs.
      apply Forall_forall. intros d Hd.
      apply (StronglySorted_app_1_elem_of by_size_desc pre (c :: post) d c Hs Hd). left.
  - intros (pre & c & post & st & g' & Hsplit & _ & _ & Hpre & Hnil & -> & ->).
    exists pre, c, post, st, g'. done.
Qed.

(** X2.  The only exceptions [greedy_allocate] raises are the infeasibility
    error, naming a course of the list, and the [ZeroDivisionError] of a
    course with no enrolled student; with no such course the call returns
    a mapping with an entry for every course or raises the infeasibility
    error. *)
Theorem greedy_outcomes courses rooms h g :
  (∀ e, greedy_allocate courses rooms h g = Err e →
     (∃ c, c ∈ courses ∧ e = RuntimeError (course_id c) (course_timeslot c))
     ∨ (e = ZeroDivisionError ∧ ∃ c, c ∈ courses ∧ course_students c = []))
  ∧ ((∀ c, c ∈ courses → course_students c ≠ []) →
     (∃ alloc g', greedy_allocate courses rooms h g = OK (alloc, g')
                  ∧ complete courses alloc)
     ∨ (∃ c, c ∈ courses
          ∧ greedy_allocate courses rooms h g
            = Err (RuntimeError (course_id c) (course_timeslot c)))).
Proof.
  assert (Herr : ∀ e, greedy_allocate courses rooms h g = Err e →
     (∃ c, c ∈ courses ∧ e = RuntimeError (course_id c) (course_timeslot c))
     ∨ (e = ZeroDivisionError ∧ ∃ c, c ∈ courses ∧ course_students c = [])).
  { intros e E. unfold greedy_allocate, greedy_run, greedy_loop in E.
    apply bind_Err in E as [H | (st & g1 & _ & [=])].
    apply foldM_Err_iff in H as (pre & c & post & st & g' & Hsplit & Hpre & Hc).
    assert (Hin : c ∈ courses).
    { rewrite <- sorted_by_size_desc_perm, Hsplit. apply elem_of_app. right. left. }
    apply greedy_step_Err in Hc as [[_ ->] | (_ & -> & Hs)]; [left | right]; eauto. }
  split; [exact Herr|]. intros Hne.
  destruct (greedy_allocate courses rooms h g) as [[alloc g']|e] eqn:E.
  - left. exists alloc, g'. split; [done|]. by eapply greedy_complete.
  - right. destruct (Herr e eq_refl) as [(c & Hc & ->) | (_ & c & Hc & Hs)]; [eauto|].
    by destruct (Hne c Hc).
Qed.

(** X3.  When the greedy run returns, the store it leaves differs from the
    one it received in schedules of listed rooms only: identifier,
    capacity and position of every room are as before, no schedule entry
    is lost or rewritten, every new entry records a course of the list at
    the course's time-slot, and, with pairwise distinct course
    identifiers, the room mapped to each course records that course at the
    course's time-slot. *)
Theorem greedy_store_after_run courses rooms h g st g' :
  greedy_run courses rooms h g = OK (st, g') →
  same_rooms h (gs_store st)
  ∧ schedules_grow rooms h (gs_store st)
  ∧ (∀ a t v, room_schedule (gs_store st a) !! t = Some v →
       room_schedule (h a) !! t = Some v
       ∨ ∃ c, c ∈ courses ∧ course_timeslot c = t ∧ course_id c = v)
  ∧ (distinct_ids courses →
     ∀ c, c ∈ courses →
       ∃ a, a ∈ rooms ∧ gs_allocation st !! course_id c = Some (room_id (h a))
         ∧ room_schedule (gs_store st a) !! course_timeslot c = Some (course_id c)).
Proof.
  intros Hrun. unfold greedy_run in Hrun.
  pose proof (returns_greedy_trace _ _ _ _ _ _ Hrun) as (Hsame & Hgrow & Hnew & _).
  pose proof (returns_greedy_loop _ _ _ _ _ _ Hrun) as (_ & Hdom & Hent).
  split; [done|]. split; [done|]. split.
  - intros a t v Hv. destruct (Hnew _ _ _ Hv) as [?|(c & Hc & ? & ?)]; [by left|].
    right. exists c. by rewrite <- sorted_by_size_desc_perm.
  - intros Hnd c Hc.
    destruct (Hdom c) as [rid Hrid]; [by rewrite sorted_by_size_desc_perm|].
    destruct (Hent _ _ Hrid) as (c' & a & Hc' & Ha & Hid & <- & _ & Hsch).
    rewrite sorted_by_size_desc_perm in Hc'.
    assert (c' = c) as -> by (eapply NoDup_fmap_eq; eauto).
    exists a. done.
Qed.

(** X4.  A room that [greedy_allocate] maps to a course was available for
    that course before the call: large enough and free at the course's
    time-slot in the schedules received. *)
Theorem greedy_respects_schedules courses rooms h g alloc g' :
  greedy_allocate courses rooms h g = OK (alloc, g') →
  ∀ cid rid, alloc !! cid = Some rid →
    ∃ c a, c ∈ courses ∧ a ∈ rooms ∧ course_id c = cid ∧ room_id (h a) = rid
      ∧ is_available (h a) (course_timeslot c) (course_size c) = true.
Proof.
  intros Hrun cid rid Hrid. unfold greedy_allocate in Hrun.
  apply bind_OK in Hrun as (st & g1 & Hrun & [= <- <-]). unfold greedy_run in Hrun.
  pose proof (returns_greedy_trace _ _ _ _ _ _ Hrun) as (_ & _ & _ & Hent).
  destruct (Hent _ _ Hrid) as (c & a & Hc & Ha & ? & ? & ?).
  exists c, a. by rewrite <- sorted_by_size_desc_perm.
Qed.


(** ** Sampled travel cost *)


(** ** Local search *)

Lemma bind_step {S A B} (m : M S A) (f : A → M S B) s a s' :
  m s = OK (a, s') → bind m f s = f a s'.
Proof. intros H. unfold bind. by rewrite H. Qed.

Lemma bind_fail {S A B} (m : M S A) (f : A → M S B) s e :
  m s = Err e → bind m f s = Err e.
Proof. intros H. unfold bind. by rewrite H. Qed.

Lemma getitem_Some {S V} (d : gmap string V) k v (s : S) :
  d !! k = Some v → getitem d k s = OK (v, s).
Proof. intros H. unfold getitem. by rewrite H. Qed.

Lemma getitem_None {S V} (d : gmap string V) k (s : S) :
  d !! k = None → getitem d k s = Err (KeyError k).
Proof. intros H. unfold getitem. by rewrite H. Qed.

Lemma iterM_total {S B} n (f : B → M S B) (I : B → Prop) b s :
  I b → (∀ b s, I b → ∃ b' s', f b s = OK (b', s') ∧ I b') →
  ∃ b' s', iterM n f b s = OK (b', s') ∧ I b'.
Proof.
  intros Hb Hf. revert b s Hb. induction n as [|n IH]; intros b s Hb; simpl.
  - by exists b, s.
  - destruct (Hf b s Hb) as (b1 & s1 & E & Hb1).
    rewrite (bind_step _ _ _ _ _ E). by apply IH.
Qed.

Lemma cost_term_total rooms alloc acc c s :
  costed rooms alloc c → ∃ v s', cost_term rooms alloc acc c s = OK (v, s').
Proof.
  intros (Hne & rid & r & Hrid & Hr). unfold cost_term.
  rewrite (bind_step _ _ _ _ _ (getitem_Some _ _ _ _ Hrid)).
  rewrite (bind_step _ _ _ _ _ (getitem_Some _ _ _ _ Hr)).
  destruct (travel_cost_total c r s Hne) as (t & s' & Ht).
  rewrite (bind_step _ _ _ _ _ Ht). unfold ret. eauto.
Qed.

Lemma cost_from_returns rooms alloc courses acc s :
  (∀ c, c ∈ courses → costed rooms alloc c) →
  ∃ v s', foldM (cost_term rooms alloc) courses acc s = OK (v, s').
Proof.
  revert acc s. induction courses as [|c courses IH]; intros acc s Hc; simpl.
  - unfold ret. eauto.
  - destruct (cost_term_total rooms alloc acc c s) as (v & s1 & E); [apply Hc; left|].
    rewrite (bind_step _ _ _ _ _ E). apply IH. intros d Hd. apply Hc. by right.
Qed.

Lemma cost_of_alloc_fault rooms alloc pre c post e g :
  (∀ d, d ∈ pre → costed rooms alloc d) →
  (∀ acc s, cost_term rooms alloc acc c s = Err e) →
  cost_of_alloc rooms (pre ++ c :: post) alloc g = Err e.
Proof.
  intros Hpre Hc. rewrite cost_of_alloc_eq, foldM_app.
  destruct (cost_from_returns rooms alloc pre 0%Q g Hpre) as (v & s1 & E).
  rewrite (bind_step _ _ _ _ _ E). simpl. by apply bind_fail.
Qed.

Lemma sample_total {A} (xs : list A) k g :
  (k ≤ length xs)%nat → ∃ l g', sample xs k g = OK (l, g').
Proof.
  intros Hk. unfold sample. destruct (Nat.ltb_spec (length xs) k); [lia|].
  by apply sample_pool_total.
Qed.

Lemma ls_step_total courses fr g :
  (2 ≤ length courses)%nat →
  (∀ c, c ∈ courses → costed (ls_rooms fr) (ls_current fr) c) →
  ∃ fr' g', ls_step courses fr g = OK (fr', g').
Proof.
  intros Hlen Hc. unfold ls_step.
  destruct (sample_total courses 2 g Hlen) as (pair & g1 & Hs).
  destruct (sample_two courses _ _ _ Hs) as (c1 & c2 & rest & -> & Hperm).
  rewrite (bind_step _ _ _ _ _ Hs).
  case_bool_decide; [unfold ret; eauto|].
  destruct (Hc c1) as (Hn1 & rid1 & r1 & H1 & Hr1); [rewrite Hperm; left|].
  destruct (Hc c2) as (Hn2 & rid2 & r2 & H2 & Hr2); [rewrite Hperm; right; left|].
  rewrite (bind_step _ _ _ _ _ (getitem_Some _ _ _ _ H1)).
  rewrite (bind_step _ _ _ _ _ (getitem_Some _ _ _ _ Hr1)).
  rewrite (bind_step _ _ _ _ _ (getitem_Some _ _ _ _ H2)).
  rewrite (bind_step _ _ _ _ _ (getitem_Some _ _ _ _ Hr2)).
  destruct (_ || _); [unfold ret; eauto|].
  destruct (travel_cost_total c1 r2 g1 Hn1) as (t12 & g2 & E12).
  destruct (travel_cost_total c2 r1 g2 Hn2) as (t21 & g3 & E21).
  destruct (travel_cost_total c1 r1 g3 Hn1) as (t11 & g4 & E11).
  destruct (travel_cost_total c2 r2 g4 Hn2) as (t22 & g5 & E22).
  rewrite (bind_step _ _ _ _ _ E12), (bind_step _ _ _ _ _ E21),
    (bind_step _ _ _ _ _ E11), (bind_step _ _ _ _ _ E22).
  destruct (Qlt_le_dec _ _); unfold ret; eauto.
Qed.

Lemma ls_swap_costed T courses fr fr' :
  rooms_by_id (ls_rooms fr) → ls_swap T courses fr fr' →
  (∀ c, c ∈ courses → costed (ls_rooms fr) (ls_current fr) c) →
  ls_rooms fr' = ls_rooms fr
  ∧ ∀ c, c ∈ courses → costed (ls_rooms fr') (ls_current fr') c.
Proof.
  intros Hkey Hswap Hc.
  assert (Hasg : assigned (ls_rooms fr) courses (ls_current fr)).
  { intros c Hin. by destruct (Hc c Hin) as [_ ?]. }
  pose proof (ls_swap_assigned _ _ _ _ Hkey Hswap Hasg) as Hasg'.
  assert (Hr : ls_rooms fr' = ls_rooms fr) by (by destruct Hswap).
  split; [done|]. intros c Hin. split; [by destruct (Hc c Hin)|].
  rewrite Hr. by apply Hasg'.
Qed.

(** X7.  [local_search] returns whenever the room lookup is keyed by room
    identifier, every course has an enrolled student and an entry that
    names a room of the lookup, and there are two courses to draw (or no
    trial to run). *)
Theorem local_search_returns allocation courses rooms max_iter g :
  rooms_by_id rooms →
  (∀ c, c ∈ courses → costed rooms allocation c) →
  (2 ≤ length courses)%nat ∨ (max_iter ≤ 0)%Z →
  ∃ alloc g', local_search allocation courses rooms max_iter g = OK (alloc, g').
Proof.
  intros Hkey Hc Hsize. unfold local_search, local_search_run. cbv zeta.
  destruct (cost_from_returns rooms allocation courses 0%Q g Hc) as (v & g1 & E).
  rewrite <- cost_of_alloc_eq in E.
  destruct Hsize as [Hlen|Hneg].
  - destruct (iterM_total (Z.to_nat max_iter) (ls_step courses)
                (λ fr, ls_rooms fr = rooms
                       ∧ ∀ c, c ∈ courses → costed (ls_rooms fr) (ls_current fr) c)
                (mkFrame allocation rooms allocation v) g1)
      as (fr & g' & Hrun & _).
    + done.
    + intros fr s [Hr Hfr].
      destruct (ls_step_total courses fr s Hlen Hfr) as (fr' & s' & Hstep).
      exists fr', s'. split; [done|].
      destruct (returns_ls_step any_cost courses fr (returns_any_cost courses)
                  _ _ _ Hstep) as [->|Hswap]; [done|].
      rewrite <- Hr in Hkey.
      destruct (ls_swap_costed _ _ _ _ Hkey Hswap Hfr) as [Hr' Hfr'].
      split; [congruence | done].
    + exists (ls_current fr), g'.
      unfold bind. rewrite E. cbv beta iota. by rewrite Hrun.
  - exists allocation, g1. replace (Z.to_nat max_iter) with 0%nat by lia.
    unfold bind. by rewrite E.
Qed.

(** X8.  The first course of the list that the initial cost evaluation of
    [local_search] cannot cost decides the exception: [KeyError] with the
    course's identifier when the allocation has no entry for it,
    [KeyError] with the entry when the room lookup does not hold it, and
    [ZeroDivisionError] when the course has no enrolled student. *)
Theorem local_search_first_fault allocation courses rooms max_iter g pre c post :
  courses = pre ++ c :: post →
  (∀ d, d ∈ pre → costed rooms allocation d) →
  (allocation !! course_id c = None →
   local_search allocation courses rooms max_iter g = Err (KeyError (course_id c)))
  ∧ (∀ rid, allocation !! course_id c = Some rid → rooms !! rid = None →
     local_search allocation courses rooms max_iter g = Err (KeyError rid))
  ∧ (∀ rid r, allocation !! course_id c = Some rid → rooms !! rid = Some r →
     course_students c = [] →
     local_search allocation courses rooms max_iter g = Err ZeroDivisionError).
Proof.
  intros -> Hpre.
  assert (H : ∀ e, (∀ acc s, cost_term rooms allocation acc c s = Err e) →
            local_search allocation (pre ++ c :: post) rooms max_iter g = Err e).
  { intros e He. unfold local_search, local_search_run. cbv zeta.
    apply bind_fail, bind_fail. by apply cost_of_alloc_fault. }
  split; [|split].
  - intros Hnone. apply H. intros acc s. unfold cost_term.
    by apply bind_fail, getitem_None.
  - intros rid Hrid Hnone. apply H. intros acc s. unfold cost_term.
    rewrite (bind_step _ _ _ _ _ (getitem_Some _ _ _ _ Hrid)).
    by apply bind_fail, getitem_None.
  - intros rid r Hrid Hr Hs. apply H. intros acc s. unfold cost_term.
    rewrite (bind_step _ _ _ _ _ (getitem_Some _ _ _ _ Hrid)).
    rewrite (bind_step _ _ _ _ _ (getitem_Some _ _ _ _ Hr)).
    by apply bind_fail, travel_cost_empty.
Qed.

(** X9.  With every course costed, [local_search] called for no trial
    ([max_iter <= 0]) returns the allocation it received, and called for
    at least one trial on fewer than two courses raises [ValueError]. *)
Theorem local_search_trial_edges allocation courses rooms max_iter g :
  (∀ c, c ∈ courses → costed rooms allocation c) →
  ((max_iter ≤ 0)%Z →
   ∃ g', local_search allocation courses rooms max_iter g = OK (allocation, g'))
  ∧ ((0 < max_iter)%Z → (length courses < 2)%nat →
     local_search allocation courses rooms max_iter g = Err ValueError).
Proof.
  intros Hc. unfold local_search, local_search_run. cbv zeta.
  destruct (cost_from_returns rooms allocation courses 0%Q g Hc) as (v & g1 & E).
  rewrite <- cost_of_alloc_eq in E. split.
  - intros Hneg. exists g1. replace (Z.to_nat max_iter) with 0%nat by lia.
    unfold bind. by rewrite E.
  - intros Hpos Hlen. apply bind_fail. rewrite (bind_step _ _ _ _ _ E).
    destruct (Z.to_nat max_iter) as [|n] eqn:En; [lia|]. simpl.
    apply bind_fail. unfold ls_step. apply bind_fail. unfold sample.
    by destruct (Nat.ltb_spec (length courses) 2); [|lia].
Qed.

Lemma slot_rooms_swap courses cur c1 c2 rest rid1 rid2 :
  distinct_ids courses → courses ≡ₚ c1 :: c2 :: rest →
  course_timeslot c1 = course_timeslot c2 →
  cur !! course_id c1 = Some rid1 → cur !! course_id c2 = Some rid2 →
  slot_rooms courses (<[course_id c2 := rid1]> (<[course_id c1 := rid2]> cur))
  ≡ₚ slot_rooms courses cur.
Proof.
  intros Hnd Hperm Hts H1 H2.
  destruct (swap_ids_differ courses c1 c2 rest Hnd Hperm) as [Hne _].
  assert (Hrest : ∀ c, c ∈ rest →
            course_id c ≠ course_id c1 ∧ course_id c ≠ course_id c2).
  { unfold distinct_ids in Hnd. rewrite Hperm in Hnd. simpl in Hnd.
    apply NoDup_cons in Hnd as [Hn1 Hnd]. apply NoDup_cons in Hnd as [Hn2 _].
    intros c Hc. split; intros Heq.
    - apply Hn1. right. rewrite <- Heq. apply list_elem_of_fmap. eauto.
    - apply Hn2. rewrite <- Heq. apply list_elem_of_fmap. eauto. }
  unfold slot_rooms. rewrite !(fmap_Permutation _ _ _ Hperm), !fmap_cons.
  rewrite lookup_insert_ne by done. rewrite !lookup_insert_eq, H1, H2, Hts.
  assert (Heq : (λ c, (course_timeslot c,
                       <[course_id c2 := rid1]> (<[course_id c1 := rid2]> cur)
                         !! course_id c)) <$> rest
                = (λ c, (course_timeslot c, cur !! course_id c)) <$> rest).
  { apply list_fmap_ext. intros i c Hc. apply list_elem_of_lookup_2 in Hc.
    destruct (Hrest c Hc). by rewrite !lookup_insert_ne. }
  rewrite Heq. apply Permutation_swap.
Qed.

(** X10.  With pairwise distinct course identifiers and a room lookup
    keyed by room identifier, [local_search] only moves rooms around
    within a time-slot: the pairs (time-slot, room) of the courses in the
    returned mapping are a rearrangement of those in the mapping
    received. *)
Theorem local_search_permutes_within_slots allocation courses rooms max_iter g alloc g' :
  distinct_ids courses → rooms_by_id rooms →
  local_search allocation courses rooms max_iter g = OK (alloc, g') →
  slot_rooms courses alloc ≡ₚ slot_rooms courses allocation.
Proof.
  intros Hnd Hkey Hrun.
  apply (returns_local_search
           (λ fr, ls_rooms fr = rooms
                  ∧ slot_rooms courses (ls_current fr) ≡ₚ slot_rooms courses allocation))
    in Hrun as (fr & [_ Hfr] & ->); [done|].
  apply (returns_local_search_run any_cost (λ _, True)).
  - apply returns_any_cost.
  - apply returns_True.
  - done.
  - intros fr fr' [Hr Hfr] Hswap. destruct Hswap as
      [c1 c2 rest rid1 rid2 r1 r2 t12 t21 t11 t22 Hperm Hts H1 Hr1 H2 Hr2].
    split; [done|]. simpl. rewrite <- Hfr. rewrite Hr in Hr1, Hr2.
    rewrite (Hkey _ _ Hr1), (Hkey _ _ Hr2). by eapply slot_rooms_swap.
Qed.

(** ** Greedy allocation: a sufficient condition *)

Lemma greedy_loop_total h rooms todo :
  ∀ processed st g,
    greedy_trace h rooms processed st →
    (∀ c, c ∈ todo → course_students c ≠ []
        ∧ ∃ a, a ∈ rooms
            ∧ is_available (h a) (course_timeslot c) (course_size c) = true) →
    NoDup (course_timeslot <$> processed ++ todo) →
    ∃ st' g', greedy_loop rooms todo st g = OK (st', g').
Proof.
  unfold greedy_loop.
  induction todo as [|c todo IH]; intros processed st g Htr Hok Hnd; simpl.
  - unfold ret. eauto.
  - destruct (Hok c) as (Hne & a & Ha & Hav); [left|].
    pose proof Htr as (Hsame & [_ Hkeep] & Hnew & _).
    assert (Hav' : is_available (gs_store st a) (course_timeslot c) (course_size c) = true).
    { unfold is_available in *. apply andb_true_iff in Hav as [Hfree Hcap].
      apply bool_decide_eq_true in Hfree. destruct (Hsame a) as (_ & Hc & _).
      apply andb_true_iff. split; [|by rewrite Hc].
      apply bool_decide_eq_true.
      destruct (room_schedule (gs_store st a) !! course_timeslot c) as [v|] eqn:E; [|done].
      destruct (Hnew _ _ _ E) as [E'|(d & Hd & Hts & _)]; [congruence|].
      exfalso. rewrite fmap_app, fmap_cons in Hnd.
      apply NoDup_app in Hnd as (_ & Hnd & _).
      apply (Hnd (course_timeslot c)); [|left].
      rewrite <- Hts. apply list_elem_of_fmap. eauto. }
    destruct (greedy_step_total rooms st c g) as (st1 & g1 & Hstep); [|done|].
    { intros Hnil. eapply (filter_nil_not_elem_of _ _ a Hnil); [|exact Ha].
      by rewrite Hav'. }
    rewrite (bind_step _ _ _ _ _ Hstep).
    destruct (returns_greedy_step _ _ _ _ _ _ Hstep) as (b & Hb & Hbav & ->).
    apply (IH (processed ++ [c])).
    + by apply greedy_trace_commit.
    + intros d Hd. apply Hok. by right.
    + by rewrite <- app_assoc.
Qed.

(** X19.  [greedy_allocate] returns a mapping with an entry for every
    course whenever no two courses share a time-slot, every course has an
    enrolled student, and every course has a listed room that is large
    enough and free at the course's time-slot before the call. *)
Theorem greedy_succeeds_without_slot_conflicts courses rooms h g :
  NoDup (course_timeslot <$> courses) →
  (∀ c, c ∈ courses → course_students c ≠ []) →
  (∀ c, c ∈ courses →
     ∃ a, a ∈ rooms
       ∧ is_available (h a) (course_timeslot c) (course_size c) = true) →
  ∃ alloc g', greedy_allocate courses rooms h g = OK (alloc, g')
              ∧ complete courses alloc.
Proof.
  intros Hnd Hne Hav.
  destruct (greedy_loop_total h rooms (sorted_by_size_desc courses) []
              (mkGreedy h ∅) g) as (st & g' & Hrun).
  - apply greedy_trace_init.
  - intros c Hc. rewrite sorted_by_size_desc_perm in Hc. split; [by apply Hne | by apply Hav].
  - simpl. by rewrite sorted_by_size_desc_perm.
  - assert (Hcall : greedy_allocate courses rooms h g = OK (gs_allocation st, g')).
    { unfold greedy_allocate, greedy_run. by rewrite (bind_step _ _ _ _ _ Hrun). }
    exists (gs_allocation st), g'. split; [done|]. by eapply greedy_complete.
Qed.

(** ** The caller's room lookup *)

Lemma rooms_dict_snoc rooms r :
  rooms_dict (rooms ++ [r]) = <[room_id r := r]> (rooms_dict rooms).
Proof. unfold rooms_dict. by rewrite foldl_app. Qed.

Lemma rooms_dict_lookup rooms r :
  ids_identify_rooms rooms → r ∈ rooms → rooms_dict rooms !! room_id r = Some r.
Proof.
  induction rooms as [|x rooms IH] using rev_ind; intros Hid Hr.
  - by apply elem_of_nil in Hr.
  - rewrite rooms_dict_snoc.
    destruct (decide (room_id x = room_id r)) as [Heq|Hne].
    + rewrite Heq, lookup_insert_eq. f_equal. apply Hid; [| |done].
      * apply elem_of_app. right. left.
      * done.
    + rewrite lookup_insert_ne by done. apply IH.
      * intros r1 r2 H1 H2. apply Hid; apply elem_of_app; by left.
      * apply elem_of_app in Hr as [Hr|Hr]; [done|].
        apply list_elem_of_singleton in Hr. by subst.
Qed.

Lemma rooms_dict_in rooms k r : rooms_dict rooms !! k = Some r → r ∈ rooms.
Proof.
  revert k r. induction rooms as [|x rooms IH] using rev_ind; intros k r.
  - unfold rooms_dict. simpl. by rewrite lookup_empty.
  - rewrite rooms_dict_snoc, lookup_insert. case_decide.
    + intros [= <-]. apply elem_of_app. right. left.
    + intros H'. apply elem_of_app. left. by eapply IH.
Qed.

(** ** Genetic algorithm *)

Section GeneticFurther.

Variable courses : list Course.
Variable rooms : list Room.
Variable pop_size generations : Z.
Variable crossover_rate mutation_rate : Q.

Local Abbreviation fitness := (fitness courses rooms).
Local Abbreviation evolve := (evolve courses rooms pop_size crossover_rate mutation_rate).
Local Abbreviation next_population :=
  (next_population courses rooms pop_size crossover_rate mutation_rate).
Local Abbreviation genetic_run :=
  (genetic_run courses rooms pop_size generations crossover_rate mutation_rate).
Local Abbreviation to_mapping := (to_mapping courses rooms).
Local Abbreviation genetic_allocate :=
  (genetic_allocate courses rooms pop_size generations crossover_rate mutation_rate).
Local Abbreviation valid_chrom := (valid_chrom courses rooms).
Local Abbreviation exact_fitness := (exact_fitness courses rooms).

Lemma valid_chrom_lookup best i c :
  valid_chrom best → courses !! i = Some c →
  ∃ idx r, best !! i = Some idx ∧ rooms !! idx = Some r ∧ room_fits c r = true.
Proof.
  unfold valid_chrom, feasible_rooms. intros H Hc.
  eapply Forall2_lookup_l in H as (idx & Hidx & Hin).
  - apply feasible_for_spec in Hin as (r & Hr & Hfit). eauto.
  - change (map (feasible_for rooms) courses) with (feasible_for rooms <$> courses).
    by rewrite list_lookup_fmap, Hc.
Qed.

Lemma zip_lookup_inv (best : chrom) i c idx :
  zip courses best !! i = Some (c, idx) → courses !! i = Some c ∧ best !! i = Some idx.
Proof.
  rewrite lookup_zip_with_Some. by intros (x & y & [= -> ->] & ? & ?).
Qed.

Lemma returns_to_mapping_fits best :
  valid_chrom best →
  returns (to_mapping best)
    (λ d, ∀ cid rid, d !! cid = Some rid →
       ∃ c r, c ∈ courses ∧ r ∈ rooms ∧ course_id c = cid ∧ room_id r = rid
         ∧ room_fits c r = true).
Proof.
  intros Hbest. unfold to_mapping.
  eapply returns_weaken.
  - apply (returns_foldM_prefix _
             (λ (pre : list (Course * nat)) (d : gmap string string),
                ∀ cid rid, d !! cid = Some rid →
                  ∃ c r, c ∈ courses ∧ r ∈ rooms ∧ course_id c = cid ∧ room_id r = rid
                    ∧ room_fits c r = true) []).
    + intros cid rid H. by rewrite lookup_empty in H.
    + intros pre [c idx] post d Hsplit Hent. simpl.
      simpl in Hsplit.
      assert (Hin : zip courses best !! length pre = Some (c, idx)).
      { rewrite Hsplit. by rewrite list_lookup_middle. }
      apply zip_lookup_inv in Hin as [Hc Hidx].
      destruct (valid_chrom_lookup best _ c Hbest Hc) as (idx' & r & Hidx' & Hr & Hfit).
      assert (idx' = idx) as -> by congruence.
      eapply returns_bind; [apply returns_index|]. intros r' Hr'.
      apply returns_ret. cbv beta in Hr'. rewrite Hr in Hr'. injection Hr' as <-.
      intros cid rid. destruct (decide (course_id c = cid)) as [<-|Hne].
      * rewrite lookup_insert_eq. intros [= <-]. exists c, r.
        split; [by eapply list_elem_of_lookup_2|].
        split; [by eapply list_elem_of_lookup_2|]. done.
      * rewrite lookup_insert_ne by done. apply Hent.
  - done.
Qed.

Lemma returns_to_mapping_lookup best :
  distinct_ids courses → valid_chrom best →
  returns (to_mapping best)
    (λ d, ∀ i c, courses !! i = Some c →
       ∃ idx r, best !! i = Some idx ∧ rooms !! idx = Some r
         ∧ d !! course_id c = Some (room_id r)).
Proof.
  intros Hnd Hbest. unfold to_mapping.
  assert (Hfst : (zip courses best).*1 = courses).
  { apply fst_zip. by rewrite (valid_chrom_length courses rooms best Hbest). }
  eapply returns_weaken.
  - apply (returns_foldM_prefix _
             (λ (pre : list (Course * nat)) (d : gmap string string),
                ∀ ci, ci ∈ pre →
                  ∃ r, rooms !! ci.2 = Some r
                       ∧ d !! course_id ci.1 = Some (room_id r)) []).
    + intros ci Hci. by apply elem_of_nil in Hci.
    + intros pre [c idx] post d Hsplit Hent. simpl.
      simpl in Hsplit.
      assert (Hin : zip courses best !! length pre = Some (c, idx)).
      { rewrite Hsplit. by rewrite list_lookup_middle. }
      apply zip_lookup_inv in Hin as [Hc Hidx].
      destruct (valid_chrom_lookup best _ c Hbest Hc) as (idx' & r & Hidx' & Hr & Hfit).
      assert (idx' = idx) as -> by congruence.
      eapply returns_bind; [apply returns_index|]. intros r' Hr'.
      apply returns_ret. cbv beta in Hr'. rewrite Hr in Hr'. injection Hr' as <-.
      intros ci [Hci|Hci]%elem_of_app.
      * destruct (Hent ci Hci) as (r' & Hr' & Hd). exists r'. split; [done|].
        rewrite lookup_insert_ne; [done|]. intros Heq.
        unfold distinct_ids in Hnd. rewrite <- Hfst, Hsplit in Hnd.
        rewrite !fmap_app, !fmap_cons in Hnd. simpl in Hnd.
        apply NoDup_app in Hnd as (_ & Hnd & _). apply (Hnd (course_id c)).
        -- rewrite Heq. apply list_elem_of_fmap. exists ci.1. split; [done|].
           apply list_elem_of_fmap. eauto.
        -- left.
      * apply list_elem_of_singleton in Hci as ->. simpl.
        exists r. by rewrite lookup_insert_eq.
  - intros d Hd i c Hc.
    destruct (valid_chrom_lookup best _ c Hbest Hc) as (idx & r & Hidx & Hr & _).
    exists idx, r. split; [done|]. split; [done|].
    destruct (Hd (c, idx)) as (r' & Hr' & Hd').
    + apply (list_elem_of_lookup_2 _ i). apply lookup_zip_with_Some. eauto.
    + simpl in *. congruence.
Qed.

Lemma mapping_cost_is_fitness best d :
  ids_identify_rooms rooms → valid_chrom best →
  (∀ i c, courses !! i = Some c →
     ∃ idx r, best !! i = Some idx ∧ rooms !! idx = Some r
       ∧ d !! course_id c = Some (room_id r)) →
  (alloc_cost (rooms_dict rooms) courses d == exact_fitness best)%Q.
Proof.
  intros Hid Hbest Hd. unfold chrom in Hd. unfold alloc_cost, exact_fitness.
  assert (Heq : assignment_cost (rooms_dict rooms) d <$> courses
                = gene_cost courses rooms <$> imap pair best); [|by rewrite Heq].
  apply list_eq. intros i. rewrite !list_lookup_fmap, list_lookup_imap.
  destruct (courses !! i) as [c|] eqn:Hc; simpl.
  - destruct (Hd i c Hc) as (idx & r & Hidx & Hr & Hdc). rewrite Hidx. simpl.
    f_equal. unfold gene_cost. simpl. rewrite Hc, Hr.
    apply assignment_cost_lookup with (rid := room_id r); [done|].
    apply rooms_dict_lookup; [done|]. by eapply list_elem_of_lookup_2.
  - apply lookup_ge_None in Hc.
    pose proof (valid_chrom_length courses rooms best Hbest) as Hlen.
    unfold n_courses in Hlen.
    assert (Hnone : best !! i = None) by (apply lookup_ge_None; lia).
    unfold chrom in Hnone. by rewrite Hnone.
Qed.

Lemma evolve_empty s :
  (pop_size ≤ 0)%Z → next_population [] s = OK ([], s).
Proof.
  intros Hz. unfold next_population, evolve, reproduce, sort_by.
  replace (Z.to_nat pop_size) with 0%nat by lia. cbn.
  unfold slice_to. by destruct (0 <=? pop_size)%Z; rewrite take_nil.
Qed.

Lemma genetic_run_empty s :
  (pop_size ≤ 0)%Z → genetic_run s = OK (([], []), s).
Proof.
  intros Hz. unfold genetic_run, initial_population.
  replace (Z.to_nat pop_size) with 0%nat by lia. cbn [replicateM].
  unfold bind at 1. unfold ret at 1.
  assert (H : ∀ n, iterM n next_population [] s = OK ([], s)).
  { induction n as [|n IH]; [done|]. cbn [iterM].
    by rewrite (bind_step _ _ _ _ _ (evolve_empty s Hz)). }
  by rewrite (bind_step _ _ _ _ _ (H _)).
Qed.

(** X11.  Every room of a mapping returned by [genetic_allocate] is a
    room of the list that, in the schedules the call received, is free at
    the course's time-slot and large enough for the course. *)
Theorem genetic_rooms_free_and_large g alloc g' :
  genetic_allocate g = OK (alloc, g') →
  ∀ cid rid, alloc !! cid = Some rid →
    ∃ c r, c ∈ courses ∧ r ∈ rooms ∧ course_id c = cid ∧ room_id r = rid
      ∧ (course_size c ≤ room_capacity r)%Z
      ∧ room_schedule r !! course_timeslot c = None.
Proof.
  intros Hcall cid rid Hrid. unfold genetic_allocate in Hcall.
  apply bind_OK in Hcall as ([pop0 pop] & g1 & Hrun & Hcall).
  apply bind_OK in Hcall as (best & g2 & Hmin & Hmap). simpl in Hmin.
  apply returns_genetic_run in Hrun as (_ & _ & _ & Hv). simpl in Hv.
  assert (Hbest : valid_chrom best).
  { rewrite Forall_forall in Hv. apply Hv. by eapply returns_min_by. }
  destruct (returns_to_mapping_fits best Hbest _ _ _ Hmap _ _ Hrid)
    as (c & r & Hc & Hr & ? & ? & Hfit).
  exists c, r. unfold room_fits in Hfit. apply andb_true_iff in Hfit as [Hsz Hfree].
  apply Z.leb_le in Hsz. apply bool_decide_eq_true in Hfree. done.
Qed.

(** X12.  [genetic_allocate] does not keep courses apart: when the list
    holds a single room, every course of a returned mapping is seated in
    that room, whatever the time-slots. *)
Theorem genetic_single_room_shared r g alloc g' :
  rooms = [r] →
  genetic_allocate g = OK (alloc, g') →
  ∀ c, c ∈ courses → alloc !! course_id c = Some (room_id r).
Proof.
  intros Hrooms Hcall c Hc.
  destruct (returns_genetic_allocate _ _ _ _ _ _ _ _ _ Hcall) as [Hdom Hent].
  destruct (Hdom c Hc) as [rid Hrid]. rewrite Hrid. f_equal.
  destruct (Hent _ _ Hrid) as (c' & r' & _ & Hr' & _ & <- & _).
  rewrite Hrooms in Hr'. apply list_elem_of_singleton in Hr'. by subst.
Qed.

(** X13.  With a population size of zero or less [genetic_allocate]
    raises [ValueError], whatever the courses, the rooms and the number
    of generations: the population stays empty and the final [min] has
    nothing to choose from. *)
Theorem genetic_empty_population_value_error g :
  (pop_size ≤ 0)%Z → genetic_allocate g = Err ValueError.
Proof.
  intros Hz. unfold genetic_allocate.
  by rewrite (bind_step _ _ _ _ _ (genetic_run_empty g Hz)).
Qed.

(** X14.  In exact mode, with pairwise distinct course identifiers and
    room identifiers that tell the rooms apart, the mapping returned by
    [genetic_allocate] is that of a member of the final population, its
    total travel cost is that member's fitness, and this cost is at most
    the fitness of every member of the initial and of the final
    population. *)
Theorem genetic_returns_cheapest_individual g alloc g' :
  Forall exact_mode courses → distinct_ids courses → ids_identify_rooms rooms →
  genetic_allocate g = OK (alloc, g') →
  ∃ pop0 pop g1 best g2,
    genetic_run g = OK ((pop0, pop), g1)
    ∧ best ∈ pop
    ∧ to_mapping best g2 = OK (alloc, g')
    ∧ (alloc_cost (rooms_dict rooms) courses alloc == exact_fitness best)%Q
    ∧ ∀ x, x ∈ pop0 ++ pop →
        (alloc_cost (rooms_dict rooms) courses alloc <= exact_fitness x)%Q.
Proof.
  intros Hx Hnd Hid Hcall. unfold genetic_allocate in Hcall.
  apply bind_OK in Hcall as ([pop0 pop] & g1 & Hrun & Hcall).
  apply bind_OK in Hcall as (best & g2 & Hmin & Hmap). simpl in Hmin.
  pose proof (genetic_run_no_worse _ _ _ _ _ _ Hx _ _ _ Hrun) as Hnw.
  pose proof (returns_genetic_run _ _ _ _ _ _ _ _ _ Hrun) as (_ & _ & _ & Hv).
  simpl in Hnw, Hv.
  apply (returns_min_by_least _ exact_fitness) in Hmin as (l1 & l2 & Hsplit & H1 & H2);
    [|intros x _; by apply returns_fitness_exact].
  destruct (least_of_split exact_fitness pop l1 l2 best Hsplit H1 H2) as [Hin Hleast].
  assert (Hbest : valid_chrom best) by (rewrite Forall_forall in Hv; by apply Hv).
  pose proof (returns_to_mapping_lookup best Hnd Hbest _ _ _ Hmap) as Hlook.
  pose proof (mapping_cost_is_fitness best alloc Hid Hbest Hlook) as Hcost.
  exists pop0, pop, g1, best, g2. do 4 (split; [done|]).
  intros x [Hx0|Hx1]%elem_of_app; rewrite Hcost.
  - destruct (Hnw x Hx0) as (y & Hy & Hle).
    eapply Qle_trans; [by apply Hleast | done].
  - by apply Hleast.
Qed.

Lemma paired_copies parents starts offspring :
  (n_courses courses ≤ 1)%nat →
  paired courses parents starts offspring →
  (∀ j i, starts !! j = Some i → i = (2 * j)%nat) →
  offspring = take (2 * length starts) parents.
Proof.
  intros Hn. induction 1 as [|starts offspring i p1 p2 c1 c2 _ IH Hp1 Hp2 Hch];
    intros Hstarts.
  - done.
  - assert (Hi : i = (2 * length starts)%nat).
    { apply Hstarts. by rewrite list_lookup_middle. }
    rewrite IH.
    2:{ intros j k Hj. apply Hstarts. rewrite lookup_app_l; [done|].
        by eapply lookup_lt_Some. }
    destruct Hch as [[-> ->]|(cut & Hcut & _)]; [|lia].
    rewrite length_app. cbn [length].
    replace (2 * (length starts + 1))%nat with (S (S (2 * length starts))) by lia.
    subst i. replace (2 * length starts + 1)%nat with (S (2 * length starts)) in Hp2 by lia.
    rewrite (take_S_r _ _ _ Hp2), (take_S_r _ _ _ Hp1), <- app_assoc. done.
Qed.

(** X15.  With at most one course no crossover can succeed (its cut
    point would be drawn from an empty range), so a generation that
    completes has copied every parent: the offspring list, as the
    reproduction loop leaves it, is the list of parents. *)
Theorem single_course_generation_copies_parents population st g st' :
  (length courses ≤ 1)%nat →
  evolve population st = OK (g, st') →
  gen_offspring g = gen_parents g.
Proof.
  intros Hn Hgen.
  destruct (returns_evolve_shape _ _ _ _ _ _ _ _ _ Hgen) as [Hlen Hpair].
  destruct (paired_count _ _ _ _ Hlen Hpair) as [[k Hk] _].
  rewrite (paired_copies _ _ _ Hn Hpair).
  - rewrite range_step2_length, Hk.
    replace (2 * k + 1)%nat with (S (2 * k)) by lia.
    rewrite Nat.div2_succ_double. apply take_ge. lia.
  - intros j i. unfold range_step2.
    change (map (λ j0, (2 * j0)%nat)) with (fmap (M:=list) (λ j0, (2 * j0)%nat)).
    rewrite list_lookup_fmap. intros Hj.
    destruct (seq 0 _ !! j) as [x|] eqn:E; [|done].
    apply lookup_seq in E as [-> _]. simpl in Hj. by injection Hj as <-.
Qed.

End GeneticFurther.

(** ** No use of the generator in exact mode *)

Lemma stateless_ret {S A} (a : A) : stateless (S:=S) (ret a).
Proof. by exists (inl a). Qed.

Lemma stateless_raise {S A} e : stateless (S:=S) (A:=A) (raise e).
Proof. by exists (inr e). Qed.

Lemma stateless_bind {S A B} (m : M S A) (f : A → M S B) :
  stateless m → (∀ a, stateless (f a)) → stateless (bind m f).
Proof.
  intros [[a|e] Hm] Hf.
  - destruct (Hf a) as [r Hr]. exists r. intros s. unfold bind. by rewrite Hm.
  - exists (inr e). intros s. unfold bind. by rewrite Hm.
Qed.

Lemma stateless_foldM {S A B} (f : B → A → M S B) xs b :
  (∀ b x, x ∈ xs → stateless (f b x)) → stateless (S:=S) (foldM f xs b).
Proof.
  revert b. induction xs as [|x xs IH]; intros b Hf; simpl.
  - apply stateless_ret.
  - apply stateless_bind; [apply Hf; left|].
    intros b'. apply IH. intros b2 y Hy. apply Hf. by right.
Qed.

Lemma stateless_min_by_from {S A} (key : A → M S Q) best bestk xs :
  (∀ x, x ∈ xs → stateless (key x)) → stateless (min_by_from key best bestk xs).
Proof.
  revert best bestk. induction xs as [|x xs IH]; intros best bestk Hk; simpl.
  - apply stateless_ret.
  - apply stateless_bind; [apply Hk; left|]. intros k.
    destruct (Qlt_le_dec k bestk); apply IH; intros y Hy; apply Hk; by right.
Qed.

Lemma stateless_min_by {S A} (key : A → M S Q) xs :
  (∀ x, x ∈ xs → stateless (key x)) → stateless (min_by key xs).
Proof.
  destruct xs as [|x xs]; intros Hk; simpl.
  - apply stateless_raise.
  - apply stateless_bind; [apply Hk; left|]. intros k.
    apply stateless_min_by_from. intros y Hy. apply Hk. by right.
Qed.

Lemma stateless_getitem {S V} (d : gmap string V) k : stateless (S:=S) (getitem d k).
Proof.
  unfold getitem. destruct (d !! k); [apply stateless_ret | apply stateless_raise].
Qed.

Lemma stateless_travel_cost course room :
  exact_mode course → stateless (travel_cost course room).
Proof.
  unfold exact_mode, travel_cost. intros Hle.
  rewrite Nat.min_r by exact Hle. rewrite Nat.ltb_irrefl.
  apply stateless_bind; [apply stateless_ret|]. intros smp.
  destruct (_ =? _)%nat; [apply stateless_raise | apply stateless_ret].
Qed.

Lemma stateless_greedy_step rooms st course :
  exact_mode course → stateless (greedy_step rooms st course).
Proof.
  intros Hx. unfold greedy_step.
  destruct (feasible (gs_store st) rooms course) as [|a0 fs]; [apply stateless_raise|].
  apply stateless_bind; [|intros a; apply stateless_ret].
  apply stateless_min_by. intros a _. by apply stateless_travel_cost.
Qed.

Lemma stateless_greedy_allocate courses rooms h :
  Forall exact_mode courses → stateless (greedy_allocate courses rooms h).
Proof.
  intros Hx. unfold greedy_allocate, greedy_run, greedy_loop.
  apply stateless_bind; [|intros st; apply stateless_ret].
  apply stateless_foldM. intros st c Hc. apply stateless_greedy_step.
  rewrite Forall_forall in Hx. apply Hx. by rewrite <- sorted_by_size_desc_perm.
Qed.

Lemma stateless_cost_of_alloc rooms courses alloc :
  Forall exact_mode courses → stateless (cost_of_alloc rooms courses alloc).
Proof.
  intros Hx. unfold cost_of_alloc. apply stateless_foldM. intros acc c Hc.
  apply stateless_bind; [apply stateless_getitem|]. intros rid.
  apply stateless_bind; [apply stateless_getitem|]. intros r.
  apply stateless_bind; [|intros t; apply stateless_ret].
  apply stateless_travel_cost. rewrite Forall_forall in Hx. by apply Hx.
Qed.

(** X18.  On courses in exact mode [greedy_allocate] and the cost of an
    allocation make no use of the random generator: each has one
    outcome (a value or an exception), the same from every state of the
    generator, and leaves the generator as it found it. *)
Theorem greedy_and_cost_ignore_generator courses rooms h lookup alloc :
  Forall exact_mode courses →
  stateless (greedy_allocate courses rooms h)
  ∧ stateless (cost_of_alloc lookup courses alloc)
  ∧ (∀ g result g', greedy_allocate courses rooms h g = OK (result, g') →
       g' = g ∧ ∀ g2, greedy_allocate courses rooms h g2 = OK (result, g2))
  ∧ (∀ g e, greedy_allocate courses rooms h g = Err e →
       ∀ g2, greedy_allocate courses rooms h g2 = Err e).
Proof.
  intros Hx.
  pose proof (stateless_greedy_allocate courses rooms h Hx) as Hg.
  split; [done|]. split; [by apply stateless_cost_of_alloc|].
  destruct Hg as [[a|e] Hr]; split.
  - intros g result g'. rewrite Hr. intros [= <- <-]. split; [done|].
    intros g2. by rewrite Hr.
  - intros g e. by rewrite Hr.
  - intros g result g'. by rewrite Hr.
  - intros g e'. rewrite Hr. intros [= <-] g2. by rewrite Hr.
Qed.

(** ** The three methods in sequence *)

Lemma on_fst_OK {S T A} (m : M S A) (st : S * T) a st' :
  on_fst m st = OK (a, st') → ∃ s', m st.1 = OK (a, s') ∧ st' = (s', st.2).
Proof.
  unfold on_fst. destruct (m st.1) as [[a' s']|e]; [|done].
  intros [= <- <-]. eauto.
Qed.

Lemma objects_identify h h' rooms :
  room_ids_identify h rooms → same_rooms h h' → ids_identify_rooms (h' <$> rooms).
Proof.
  intros Hid Hsame r r' Hr Hr' Heq.
  apply list_elem_of_fmap in Hr as (a & -> & Ha).
  apply list_elem_of_fmap in Hr' as (b & -> & Hb).
  destruct (Hsame a) as [Ha' _]. destruct (Hsame b) as [Hb' _].
  rewrite (Hid a b); [done..|]. congruence.
Qed.

Lemma greedy_run_seats courses rooms h g st g' :
  distinct_ids courses →
  greedy_run courses rooms h g = OK (st, g') →
  ∀ c, c ∈ courses →
    ∃ a, a ∈ rooms
      ∧ gs_allocation st !! course_id c = Some (room_id (h a))
      ∧ (course_size c ≤ room_capacity (h a))%Z
      ∧ room_schedule (gs_store st a) !! course_timeslot c = Some (course_id c).
Proof.
  intros Hnd Hrun c Hc. unfold greedy_run in Hrun.
  pose proof (returns_greedy_loop _ _ _ _ _ _ Hrun) as (_ & Hdom & Hent).
  destruct (Hdom c) as [rid Hrid]; [by rewrite sorted_by_size_desc_perm|].
  destruct (Hent _ _ Hrid) as (c' & a & Hc' & Ha & Hid & <- & Hsz & Hsch).
  rewrite sorted_by_size_desc_perm in Hc'.
  assert (c' = c) as -> by (eapply NoDup_fmap_eq; eauto).
  exists a. done.
Qed.

Lemma greedy_run_same_rooms courses rooms h g st g' :
  greedy_run courses rooms h g = OK (st, g') → same_rooms h (gs_store st).
Proof.
  intros Hrun. unfold greedy_run in Hrun.
  by pose proof (returns_greedy_loop _ _ _ _ _ _ Hrun) as (? & _).
Qed.

Lemma greedy_run_fits_lookup courses rooms h g st g' :
  distinct_ids courses → room_ids_identify h rooms →
  greedy_run courses rooms h g = OK (st, g') →
  courses_fit courses (in_dict (rooms_dict (gs_store st <$> rooms))) (gs_allocation st).
Proof.
  intros Hnd Hid Hrun c Hc.
  pose proof (greedy_run_same_rooms _ _ _ _ _ _ Hrun) as Hsame.
  destruct (greedy_run_seats _ _ _ _ _ _ Hnd Hrun c Hc) as (a & Ha & Hal & Hsz & _).
  destruct (Hsame a) as (Hi & Hcap & _).
  exists (gs_store st a). split; [|split].
  - exists (room_id (gs_store st a)). apply rooms_dict_lookup.
    + by eapply objects_identify.
    + apply list_elem_of_fmap. eauto.
  - by rewrite Hi.
  - by rewrite Hcap.
Qed.

Lemma courses_fit_assigned rooms courses alloc :
  rooms_by_id rooms → courses_fit courses (in_dict rooms) alloc →
  assigned rooms courses alloc.
Proof.
  intros Hkey Hfit c Hc. destruct (Hfit c Hc) as (r & [k Hk] & Hal & _).
  exists (room_id r), r. split; [done|]. by rewrite (Hkey _ _ Hk).
Qed.

(** X16.  When the three methods have run in sequence on courses of at
    most 30 students with pairwise distinct identifiers and rooms told
    apart by their identifiers, the mapping of the local search still
    seats every course in a listed room that is large enough and still
    books no room twice at a time-slot, and [total_cost] raises nothing on
    the greedy mapping and on the local-search mapping, from every state
    of the generator, which it leaves as it found it.  (Nothing is said of
    how the two totals compare: the swaps follow rounded deltas.) *)
Theorem methods_local_keeps_constraints courses rooms h max_iter pop_size generations
    crossover_rate mutation_rate st0 run st1 :
  Forall exact_mode courses → distinct_ids courses → room_ids_identify h rooms →
  run_methods courses rooms h max_iter pop_size generations crossover_rate
    mutation_rate st0 = OK (run, st1) →
  let objects := gs_store (mr_greedy run) <$> rooms in
  courses_fit courses (.∈ objects) (mr_local run)
  ∧ no_double_booking courses (mr_local run)
  ∧ ∀ s, ∃ vg vl,
      total_cost courses objects (gs_allocation (mr_greedy run)) s = OK (vg, s)
      ∧ total_cost courses objects (mr_local run) s = OK (vl, s).
Proof.
  intros Hx Hnd Hid Hrun objects. unfold run_methods in Hrun.
  apply bind_OK in Hrun as (st & s1 & Hg & Hrun).
  apply on_fst_OK in Hg as (g1 & Hg & ->). cbv zeta in Hrun.
  apply bind_OK in Hrun as (local_alloc & s2 & Hl & Hrun).
  apply on_fst_OK in Hl as (g2 & Hl & ->). simpl in Hl.
  apply bind_OK in Hrun as (genetic_alloc & s3 & _ & [= <- <-]).
  subst objects. simpl.
  set (objects := gs_store st <$> rooms) in *.
  pose proof (rooms_dict_by_id objects) as Hkey.
  pose proof (greedy_run_fits_lookup _ _ _ _ _ _ Hnd Hid Hg) as Hfit.
  fold objects in Hfit.
  assert (Hga : greedy_allocate courses rooms h st0.1 = OK (gs_allocation st, g1)).
  { unfold greedy_allocate. by rewrite (bind_step _ _ _ _ _ Hg). }
  pose proof (greedy_no_double_booking _ _ _ Hnd Hid _ _ _ Hga) as Hndb.
  pose proof (local_search_courses_fit _ _ _ max_iter Hnd Hkey Hfit _ _ _ Hl) as Hfit'.
  pose proof (local_search_no_double_booking _ _ _ max_iter Hnd Hkey Hndb _ _ _ Hl)
    as Hndb'.
  split; [|split; [done|]].
  - intros c Hc. destruct (Hfit' c Hc) as (r & [k Hk] & Hal & Hsz).
    exists r. split; [by eapply rooms_dict_in | done].
  - unfold local_search in Hl. apply bind_OK in Hl as (fr & g3 & Hl & [= <- <-]).
    assert (Hne : Forall (λ c, course_students c ≠ []) courses).
    { unfold local_search_run in Hl. apply bind_OK in Hl as (v0 & g4 & Hcost & _).
      by apply (returns_cost_of_alloc _ _ _ Hx) in Hcost as (_ & _ & ?). }
    assert (Hasg : assigned (rooms_dict objects) courses (ls_current fr))
      by (by apply courses_fit_assigned).
    pose proof (courses_fit_assigned _ _ _ Hkey Hfit) as Hasg0.
    intros s. unfold total_cost.
    destruct (cost_of_alloc_total (rooms_dict objects) (gs_allocation st) courses s
                Hx Hasg0 Hne) as (vg & Hvg & _).
    destruct (cost_of_alloc_total (rooms_dict objects) (ls_current fr) courses s
                Hx Hasg Hne) as (vl & Hvl & _).
    exists vg, vl. split; done.
Qed.

(** X17.  When the three methods have run in sequence on courses with
    pairwise distinct identifiers, the genetic mapping seats no course in
    the room object the greedy mapping gave it: the greedy call has
    written the course into that room's schedule, and the genetic call
    only draws rooms that are free at the course's time-slot.  So every
    course has two distinct listed rooms that are large enough, and the
    two mappings disagree on every course when identifiers tell the rooms
    apart. *)
Theorem methods_genetic_avoids_greedy_rooms courses rooms h max_iter pop_size
    generations crossover_rate mutation_rate st0 run st1 :
  distinct_ids courses →
  run_methods courses rooms h max_iter pop_size generations crossover_rate
    mutation_rate st0 = OK (run, st1) →
  ∀ c, c ∈ courses →
    ∃ a b, a ∈ rooms ∧ b ∈ rooms ∧ a ≠ b
      ∧ gs_allocation (mr_greedy run) !! course_id c = Some (room_id (h a))
      ∧ mr_genetic run !! course_id c = Some (room_id (h b))
      ∧ (course_size c ≤ room_capacity (h a))%Z
      ∧ (course_size c ≤ room_capacity (h b))%Z
      ∧ (room_ids_identify h rooms →
         gs_allocation (mr_greedy run) !! course_id c ≠ mr_genetic run !! course_id c).
Proof.
  intros Hnd Hrun c Hc. unfold run_methods in Hrun.
  apply bind_OK in Hrun as (st & s1 & Hg & Hrun).
  apply on_fst_OK in Hg as (g1 & Hg & ->). cbv zeta in Hrun.
  apply bind_OK in Hrun as (local_alloc & s2 & _ & Hrun).
  apply bind_OK in Hrun as (genetic_alloc & s3 & Hgen & [= <- <-]). simpl.
  pose proof (greedy_run_same_rooms _ _ _ _ _ _ Hg) as Hsame.
  destruct (greedy_run_seats _ _ _ _ _ _ Hnd Hg c Hc) as (a & Ha & Hal & Hsz & Hsch).
  destruct (returns_genetic_allocate _ _ _ _ _ _ _ _ _ Hgen) as [Hdom _].
  destruct (Hdom c Hc) as [rid Hrid].
  unfold genetic_allocate in Hgen.
  apply bind_OK in Hgen as ([pop0 pop] & s4 & Hpops & Hgen).
  apply bind_OK in Hgen as (best & s5 & Hmin & Hmap). simpl in Hmin.
  apply returns_genetic_run in Hpops as (_ & _ & _ & Hv). simpl in Hv.
  assert (Hbest : valid_chrom courses (gs_store st <$> rooms) best).
  { rewrite Forall_forall in Hv. apply Hv. by eapply returns_min_by. }
  destruct (returns_to_mapping_fits _ _ best Hbest _ _ _ Hmap _ _ Hrid)
    as (c' & r & Hc' & Hr & Hcid & <- & Hfit).
  assert (c' = c) as -> by (eapply NoDup_fmap_eq; eauto).
  apply list_elem_of_fmap in Hr as (b & -> & Hb).
  unfold room_fits in Hfit. apply andb_true_iff in Hfit as [Hszb Hfree].
  apply Z.leb_le in Hszb. apply bool_decide_eq_true in Hfree.
  destruct (Hsame b) as (Hib & Hcb & _).
  assert (Hab : a ≠ b) by (intros ->; congruence).
  exists a, b. rewrite Hrid, Hal, Hib.
  do 5 (split; [done|]). split; [done|]. split; [by rewrite <- Hcb|].
  intros Hid [= Heq]. apply Hab. by apply Hid.
Qed.

End Allocation.

(** * Concrete runs *)

(** The scenario of the specification: the course of 90 is placed first
    and takes the room of 100, the course of 40 takes the room of 50. *)
Example greedy_two_rooms :
  greedy_allocate line_dist [course_A; course_B] [0; 1]%nat two_rooms []
  = OK (A_in_R1_B_in_R2, []).
Proof. vm_compute. reflexivity. Qed.

(** C1.  At a course with an empty roster and a free room that is large
    enough, no room is occupied or undersized at the course's turn, and
    [greedy_allocate] raises [ZeroDivisionError]: neither the
    infeasibility error nor a mapping. *)
Theorem greedy_empty_roster_zero_division :
  ∀ euclidean g,
    feasible two_rooms [0%nat] empty_course = [0%nat]
    ∧ greedy_allocate euclidean [empty_course] [0%nat] two_rooms g
      = Err ZeroDivisionError.
Proof. intros euclidean g. split; reflexivity. Qed.

(** C4.  With a single course larger than every room, [genetic_allocate]
    with its default parameters raises the [IndexError] of [rng.choice] on
    the empty list of feasible rooms, while drawing the first individual:
    the code has no check of its own. *)
Theorem genetic_oversized_course_index_error :
  ∀ euclidean st,
    feasible_rooms [oversized_course] [R1; R2] = [[]]
    ∧ genetic_allocate euclidean [oversized_course] [R1; R2] 50 200 (4 # 5) (1 # 5) st
      = Err IndexError.
Proof.
  intros euclidean st. split; [reflexivity|].
  apply (genetic_allocate_no_feasible_room euclidean _ _ _ _ _ _ oversized_course);
    [lia | left | reflexivity].
Qed.

Example local_search_swaps :
  local_search line_dist C_in_R1_D_in_R2 [course_C; course_D] (rooms_dict [R1; R2]) 3 []
  = OK (C_in_R2_D_in_R1, []).
Proof. vm_compute. reflexivity. Qed.

Example genetic_two_rooms :
  genetic_allocate line_dist [course_A; course_B] [R1; R2] 2 1 (4 # 5) (1 # 5) ([], [])
  = OK (A_in_R1_B_in_R2, ([], [])).
Proof. vm_compute. reflexivity. Qed.

Lemma courses_fit_cons c cs is_room alloc r :
  is_room r → alloc !! course_id c = Some (room_id r) →
  (course_size c ≤ room_capacity r)%Z →
  courses_fit cs is_room alloc → courses_fit (c :: cs) is_room alloc.
Proof.
  intros Hr Hl Hsz Hcs d [->|Hd]%elem_of_cons; [eauto | by apply Hcs].
Qed.

Lemma courses_fit_nil is_room alloc : courses_fit [] is_room alloc.
Proof. intros d Hd. by apply elem_of_nil in Hd. Qed.

Lemma C_D_fit :
  courses_fit [course_C; course_D] (in_dict (rooms_dict [R1; R2])) C_in_R1_D_in_R2.
Proof.
  apply (courses_fit_cons _ _ _ _ R1);
    [by exists "R1" | done | done |].
  apply (courses_fit_cons _ _ _ _ R2);
    [by exists "R2" | done | done |].
  apply courses_fit_nil.
Qed.

Lemma C_D_not_double_booked :
  no_double_booking [course_C; course_D] C_in_R1_D_in_R2.
Proof.
  intros c1 c2 rid H1 H2 Hne _ E1 E2.
  apply elem_of_cons in H1 as [->|H1]; apply elem_of_cons in H2 as [->|H2];
    try apply list_elem_of_singleton in H1 as ->;
    try apply list_elem_of_singleton in H2 as ->;
    try done; vm_compute in E1, E2; congruence.
Qed.

Lemma capacity_respected_witness :
  courses_fit [course_A; course_B] (listed two_rooms [0; 1]%nat) A_in_R1_B_in_R2
  ∧ courses_fit [course_C; course_D] (in_dict (rooms_dict [R1; R2])) C_in_R2_D_in_R1
  ∧ courses_fit [course_A; course_B] (.∈ [R1; R2]) A_in_R1_B_in_R2.
Proof.
  destruct (capacity_respected line_dist) as (Hgreedy & Hlocal & Hgenetic).
  split; [|split].
  - apply (Hgreedy _ _ _ _ _ _ greedy_two_rooms). unfold distinct_ids. compute_done.
  - apply (Hlocal _ _ _ _ _ _ _ (rooms_dict_by_id [R1; R2]) local_search_swaps).
    + unfold distinct_ids. compute_done.
    + exact C_D_fit.
  - apply (Hgenetic _ _ _ _ _ _ _ _ _ genetic_two_rooms). unfold distinct_ids. compute_done.
Defined.

Lemma one_course_per_room_and_slot_witness :
  no_double_booking [course_A; course_B] A_in_R1_B_in_R2
  ∧ no_double_booking [course_C; course_D] C_in_R2_D_in_R1.
Proof.
  destruct (one_course_per_room_and_slot line_dist) as (Hgreedy & Hlocal).
  split.
  - apply (Hgreedy [course_A; course_B] [0; 1]%nat two_rooms [] _ []).
    + unfold distinct_ids. compute_done.
    + intros a b Ha Hb. apply (NoDup_fmap_eq (λ a, room_id (two_rooms a)) [0; 1]%nat);
        [compute_done | done | done].
    + exact greedy_two_rooms.
  - apply (Hlocal C_in_R1_D_in_R2 [course_C; course_D] (rooms_dict [R1; R2]) 3%Z [] _ []).
    + unfold distinct_ids. compute_done.
    + apply rooms_dict_by_id.
    + exact C_D_not_double_booked.
    + exact local_search_swaps.
Defined.

Lemma C_D_exact : Forall exact_mode [course_C; course_D].
Proof. repeat constructor; unfold exact_mode, sample_cap; simpl; lia. Qed.

Lemma N_F_K_exact : Forall exact_mode [near_course; far_course; mid_course].
Proof. repeat constructor; unfold exact_mode, sample_cap; simpl; lia. Qed.



Lemma genetic_best_fitness_never_worse_witness :
  ∃ pop0 pop st' b0 b,
    genetic_run line_dist [course_C; course_D] [R1; R2] 4 1 (4 # 5) (1 # 5)
      ([], rng_draws) = OK ((pop0, pop), st')
    ∧ best_fitness line_dist [course_C; course_D] [R1; R2] pop0 = Some b0
    ∧ best_fitness line_dist [course_C; course_D] [R1; R2] pop = Some b
    ∧ (b <= b0)%Q.
Proof.
  pose (pop0 := [[0; 1]; [0; 1]; [0; 1]; [0; 1]]%nat).
  pose (pop := [[1; 1]; [1; 1]; [1; 1]; [1; 1]]%nat).
  assert (Hrun : genetic_run line_dist [course_C; course_D] [R1; R2] 4 1 (4 # 5) (1 # 5)
                   ([], rng_draws) = OK ((pop0, pop), ([], [])))
    by (vm_compute; reflexivity).
  assert (Hb0 : ∃ b0, best_fitness line_dist [course_C; course_D] [R1; R2] pop0 = Some b0)
    by (eexists; vm_compute; reflexivity).
  destruct Hb0 as [b0 Hb0].
  destruct (genetic_best_fitness_never_worse line_dist [course_C; course_D] [R1; R2]
              4 1 (4 # 5) (1 # 5) C_D_exact) as (_ & Hbest & _).
  destruct (Hbest _ _ _ _ Hrun b0 Hb0) as (b & Hb & Hle).
  exists pop0, pop, ([], []), b0, b.
  split; [exact Hrun|]. split; [exact Hb0|]. split; [exact Hb | exact Hle].
Defined.

Lemma local_search_leaves_inputs_witness :
  (∃ fr g',
     local_search_run line_dist C_in_R1_D_in_R2 [course_C; course_D]
       (rooms_dict [R1; R2]) 3 [] = OK (fr, g')
     ∧ ls_allocation fr = C_in_R1_D_in_R2 ∧ ls_rooms fr = rooms_dict [R1; R2]
     ∧ dom (ls_current fr) = dom C_in_R1_D_in_R2)
  ∧ local_search line_dist C_in_R1_D_in_R2 [course_C; course_D]
      (rooms_dict [R1; R2]) 3 []
    = local_search line_dist C_in_R1_D_in_R2 [course_C; course_D]
        (rooms_dict [R1_busy; R2]) 3 [].
Proof.
  destruct (local_search_leaves_inputs line_dist) as [Hframe Hread]. split.
  - assert (Hrun : ∃ fr g',
      local_search_run line_dist C_in_R1_D_in_R2 [course_C; course_D]
        (rooms_dict [R1; R2]) 3 [] = OK (fr, g'))
      by (eexists _, _; vm_compute; reflexivity).
    destruct Hrun as (fr & g' & Hrun). exists fr, g'. split; [exact Hrun|].
    exact (Hframe _ _ _ _ _ _ _ Hrun).
  - apply Hread. vm_compute. reflexivity.
Defined.

Lemma travel_cost_exact_up_to_cap_witness :
  (∃ v, (∀ g, travel_cost line_dist course_A R1 g = OK (v, g))
        ∧ (v == exact_travel_cost line_dist course_A R1)%Q)
  ∧ (∃ course g1 g2 v1 v2 g1' g2',
       (sample_cap < length (course_students course))%nat
       ∧ travel_cost line_dist course R1 g1 = OK (v1, g1')
       ∧ travel_cost line_dist course R1 g2 = OK (v2, g2')
       ∧ ¬ (v1 == v2)%Q).
Proof.
  destruct (travel_cost_exact_up_to_cap line_dist) as [Hexact Hvaries]. split.
  - apply Hexact. unfold sample_cap. simpl. lia.
  - apply (Hvaries R1 (1, 0)%Q (0, 0)%Q). vm_compute. discriminate.
Defined.

Lemma reproduction_pairs_parents_witness :
  ∃ g st',
    evolve line_dist [course_C; course_D] [R1; R2] 4 (4 # 5) (1 # 5)
      [[0; 1]; [1; 1]; [1; 0]; [0; 0]]%nat ([], []) = OK (g, st')
    ∧ length (gen_parents g) = 4%nat
    ∧ paired [course_C; course_D] (gen_parents g) [0; 2]%nat (gen_offspring g)
    ∧ length (gen_offspring g) = length (gen_parents g)
    ∧ Nat.Even 4.
Proof.
  assert (Hrun : ∃ g st',
    evolve line_dist [course_C; course_D] [R1; R2] 4 (4 # 5) (1 # 5)
      [[0; 1]; [1; 1]; [1; 0]; [0; 0]]%nat ([], []) = OK (g, st'))
    by (eexists _, _; vm_compute; reflexivity).
  destruct Hrun as (g & st' & Hrun). exists g, st'. split; [exact Hrun|].
  exact (reproduction_pairs_parents line_dist _ _ _ _ _ _ _ _ _ Hrun).
Defined.

Lemma empty_roster_division_by_zero_witness :
  travel_cost line_dist empty_course R1 [] = Err ZeroDivisionError
  ∧ fails (greedy_allocate line_dist [course_A; empty_course] [0; 1]%nat two_rooms).
Proof.
  destruct (empty_roster_division_by_zero line_dist empty_course eq_refl)
    as (Hcost & Hgreedy & _).
  split; [apply Hcost|]. apply Hgreedy. right. left.
Defined.

(** ** Runs of the further properties *)

Lemma A_B_exact : Forall exact_mode [course_A; course_B].
Proof. repeat constructor; unfold exact_mode, sample_cap; simpl; lia. Qed.

Lemma C_D_distinct : distinct_ids [course_C; course_D].
Proof. unfold distinct_ids. compute_done. Qed.

Lemma C_D_costed c :
  c ∈ [course_C; course_D] → costed (rooms_dict [R1; R2]) C_in_R1_D_in_R2 c.
Proof.
  intros [->|Hc]%elem_of_cons; [|apply list_elem_of_singleton in Hc as ->].
  - split; [done|]. exists "R1", R1. split; reflexivity.
  - split; [done|]. exists "R2", R2. split; reflexivity.
Qed.

Lemma C_costed c : c ∈ [course_C] → costed (rooms_dict [R1; R2]) C_in_R1 c.
Proof.
  intros Hc. apply list_elem_of_singleton in Hc as ->.
  split; [done|]. exists "R1", R1. split; reflexivity.
Qed.

Lemma R1_R2_identified : ids_identify_rooms [R1; R2].
Proof.
  intros r r' [->|Hr]%elem_of_cons [->|Hr']%elem_of_cons;
    try apply list_elem_of_singleton in Hr as ->;
    try apply list_elem_of_singleton in Hr' as ->; done.
Qed.

Lemma three_rooms_identified : room_ids_identify three_rooms [0; 1; 2]%nat.
Proof.
  intros a b Ha Hb.
  repeat (apply elem_of_cons in Ha as [->|Ha]);
    try (by apply elem_of_nil in Ha);
    repeat (apply elem_of_cons in Hb as [->|Hb]);
    try (by apply elem_of_nil in Hb); done.
Qed.

Lemma greedy_raises_infeasible_exactly_witness :
  ∃ pre course post st g',
    sorted_by_size_desc [course_A; oversized_course] = pre ++ course :: post
    ∧ course ∈ [course_A; oversized_course]
    ∧ Forall (λ d, (course_size course ≤ course_size d)%Z) pre
    ∧ greedy_loop line_dist [0; 1]%nat pre (mkGreedy two_rooms ∅) [] = OK (st, g')
    ∧ (∀ a, a ∈ [0; 1]%nat → occupied_or_undersized (gs_store st a) course)
    ∧ "X" = course_id course ∧ 0%Z = course_timeslot course.
Proof.
  apply (proj1 (greedy_raises_infeasible_exactly line_dist
                  [course_A; oversized_course] [0; 1]%nat two_rooms [] "X" 0)).
  vm_compute. reflexivity.
Defined.

Lemma greedy_outcomes_witness :
  (∃ alloc g', greedy_allocate line_dist [course_A; course_B] [0; 1]%nat two_rooms []
               = OK (alloc, g')
               ∧ complete [course_A; course_B] alloc)
  ∨ (∃ c, c ∈ [course_A; course_B]
       ∧ greedy_allocate line_dist [course_A; course_B] [0; 1]%nat two_rooms []
         = Err (RuntimeError (course_id c) (course_timeslot c))).
Proof.
  destruct (greedy_outcomes line_dist [course_A; course_B] [0; 1]%nat two_rooms [])
    as [_ H].
  apply H. intros c [->|Hc]%elem_of_cons; [done|].
  apply list_elem_of_singleton in Hc as ->. done.
Defined.

Lemma greedy_store_after_run_witness :
  ∃ st g',
    greedy_run line_dist [course_A; course_B] [0; 1]%nat two_rooms [] = OK (st, g')
    ∧ same_rooms two_rooms (gs_store st)
    ∧ schedules_grow [0; 1]%nat two_rooms (gs_store st).
Proof.
  assert (Hrun : ∃ st g',
    greedy_run line_dist [course_A; course_B] [0; 1]%nat two_rooms [] = OK (st, g'))
    by (eexists _, _; vm_compute; reflexivity).
  destruct Hrun as (st & g' & Hrun). exists st, g'. split; [exact Hrun|].
  destruct (greedy_store_after_run line_dist _ _ _ _ _ _ Hrun) as (Hs & Hg & _).
  split; [exact Hs | exact Hg].
Defined.

Lemma greedy_respects_schedules_witness :
  ∃ c a, c ∈ [course_A; course_B] ∧ a ∈ [0; 1]%nat ∧ course_id c = "B"
    ∧ room_id (two_rooms a) = "R2"
    ∧ is_available (two_rooms a) (course_timeslot c) (course_size c) = true.
Proof.
  apply (greedy_respects_schedules line_dist _ _ _ _ _ _ greedy_two_rooms "B" "R2").
  reflexivity.
Defined.



Lemma local_search_returns_witness :
  ∃ alloc g',
    local_search line_dist C_in_R1_D_in_R2 [course_C; course_D] (rooms_dict [R1; R2])
      3 [] = OK (alloc, g').
Proof.
  apply local_search_returns.
  - apply rooms_dict_by_id.
  - exact C_D_costed.
  - left. simpl. lia.
Defined.

Lemma local_search_first_fault_witness :
  local_search line_dist C_in_R1 [course_C; course_D] (rooms_dict [R1; R2]) 3 []
  = Err (KeyError "D").
Proof.
  destruct (local_search_first_fault line_dist C_in_R1 [course_C; course_D]
              (rooms_dict [R1; R2]) 3 [] [course_C] course_D [] eq_refl C_costed)
    as (H & _ & _).
  apply H. reflexivity.
Defined.

Lemma local_search_trial_edges_witness :
  local_search line_dist C_in_R1 [course_C] (rooms_dict [R1; R2]) 3 [] = Err ValueError.
Proof.
  destruct (local_search_trial_edges line_dist C_in_R1 [course_C]
              (rooms_dict [R1; R2]) 3 [] C_costed) as [_ H].
  apply H; [lia | simpl; lia].
Defined.

Lemma local_search_permutes_within_slots_witness :
  slot_rooms [course_C; course_D] C_in_R2_D_in_R1
  ≡ₚ slot_rooms [course_C; course_D] C_in_R1_D_in_R2.
Proof.
  exact (local_search_permutes_within_slots line_dist _ _ _ _ _ _ _
           C_D_distinct (rooms_dict_by_id [R1; R2]) local_search_swaps).
Defined.

Lemma genetic_rooms_free_and_large_witness :
  ∃ c r, c ∈ [course_A; course_B] ∧ r ∈ [R1; R2] ∧ course_id c = "B"
    ∧ room_id r = "R2"
    ∧ (course_size c ≤ room_capacity r)%Z
    ∧ room_schedule r !! course_timeslot c = None.
Proof.
  apply (genetic_rooms_free_and_large line_dist _ _ _ _ _ _ _ _ _ genetic_two_rooms
           "B" "R2").
  reflexivity.
Defined.

Lemma genetic_single_room_shared_witness :
  ∃ alloc st',
    genetic_allocate line_dist [course_C; course_D] [R2] 2 1 (4 # 5) (1 # 5) ([], [])
    = OK (alloc, st')
    ∧ alloc !! "C" = Some "R2" ∧ alloc !! "D" = Some "R2".
Proof.
  assert (Hrun : ∃ alloc st',
    genetic_allocate line_dist [course_C; course_D] [R2] 2 1 (4 # 5) (1 # 5) ([], [])
    = OK (alloc, st'))
    by (eexists _, _; vm_compute; reflexivity).
  destruct Hrun as (alloc & st' & Hrun). exists alloc, st'. split; [exact Hrun|].
  pose proof (genetic_single_room_shared line_dist _ _ _ _ _ _ R2 _ _ _ eq_refl Hrun)
    as H.
  split; [apply (H course_C); left | apply (H course_D); right; left].
Defined.

Lemma genetic_empty_population_value_error_witness :
  genetic_allocate line_dist [course_A; course_B] [R1; R2] 0 200 (4 # 5) (1 # 5) ([], [])
  = Err ValueError.
Proof. apply genetic_empty_population_value_error. lia. Defined.

Lemma genetic_returns_cheapest_individual_witness :
  ∃ alloc st' pop0 pop g1 best g2,
    genetic_allocate line_dist [course_C; course_D] [R1; R2] 4 1 (4 # 5) (1 # 5)
      ([], rng_draws) = OK (alloc, st')
    ∧ genetic_run line_dist [course_C; course_D] [R1; R2] 4 1 (4 # 5) (1 # 5)
        ([], rng_draws) = OK ((pop0, pop), g1)
    ∧ best ∈ pop
    ∧ to_mapping [course_C; course_D] [R1; R2] best g2 = OK (alloc, st')
    ∧ (alloc_cost line_dist (rooms_dict [R1; R2]) [course_C; course_D] alloc
       == exact_fitness line_dist [course_C; course_D] [R1; R2] best)%Q.
Proof.
  assert (Hrun : ∃ alloc st',
    genetic_allocate line_dist [course_C; course_D] [R1; R2] 4 1 (4 # 5) (1 # 5)
      ([], rng_draws) = OK (alloc, st'))
    by (eexists _, _; vm_compute; reflexivity).
  destruct Hrun as (alloc & st' & Hrun).
  destruct (genetic_returns_cheapest_individual line_dist _ _ _ _ _ _ _ _ _
              C_D_exact C_D_distinct R1_R2_identified Hrun)
    as (pop0 & pop & g1 & best & g2 & H1 & H2 & H3 & H4 & _).
  exists alloc, st', pop0, pop, g1, best, g2.
  split; [exact Hrun|]. split; [exact H1|]. split; [exact H2|].
  split; [exact H3 | exact H4].
Defined.

Lemma single_course_generation_copies_parents_witness :
  ∃ g st',
    evolve line_dist [course_A] [R1; R2] 2 0 0 [[0]; [1]]%nat ([], []) = OK (g, st')
    ∧ gen_offspring g = gen_parents g.
Proof.
  assert (Hrun : ∃ g st',
    evolve line_dist [course_A] [R1; R2] 2 0 0 [[0]; [1]]%nat ([], []) = OK (g, st'))
    by (eexists _, _; vm_compute; reflexivity).
  destruct Hrun as (g & st' & Hrun). exists g, st'. split; [exact Hrun|].
  assert (Hlen : (length [course_A] ≤ 1)%nat) by (simpl; lia).
  exact (single_course_generation_copies_parents line_dist _ _ _ _ _ _ _ _ _ Hlen Hrun).
Defined.

Lemma methods_local_keeps_constraints_witness :
  ∃ run st1,
    run_methods line_dist [course_C; course_D] [0; 1; 2]%nat three_rooms
      3 2 1 (4 # 5) (1 # 5) ([], []) = OK (run, st1)
    ∧ courses_fit [course_C; course_D]
        (.∈ gs_store (mr_greedy run) <$> [0; 1; 2]%nat) (mr_local run)
    ∧ no_double_booking [course_C; course_D] (mr_local run).
Proof.
  assert (Hrun : ∃ run st1,
    run_methods line_dist [course_C; course_D] [0; 1; 2]%nat three_rooms
      3 2 1 (4 # 5) (1 # 5) ([], []) = OK (run, st1))
    by (eexists _, _; vm_compute; reflexivity).
  destruct Hrun as (run & st1 & Hrun). exists run, st1. split; [exact Hrun|].
  destruct (methods_local_keeps_constraints line_dist _ _ _ _ _ _ _ _ _ _ _
              C_D_exact C_D_distinct three_rooms_identified Hrun) as (Hfit & Hndb & _).
  split; [exact Hfit | exact Hndb].
Defined.

Lemma methods_genetic_avoids_greedy_rooms_witness :
  ∃ run st1,
    run_methods line_dist [course_C; course_D] [0; 1; 2]%nat three_rooms
      3 2 1 (4 # 5) (1 # 5) ([], []) = OK (run, st1)
    ∧ gs_allocation (mr_greedy run) !! "C" ≠ mr_genetic run !! "C".
Proof.
  assert (Hrun : ∃ run st1,
    run_methods line_dist [course_C; course_D] [0; 1; 2]%nat three_rooms
      3 2 1 (4 # 5) (1 # 5) ([], []) = OK (run, st1))
    by (eexists _, _; vm_compute; reflexivity).
  destruct Hrun as (run & st1 & Hrun). exists run, st1. split; [exact Hrun|].
  destruct (methods_genetic_avoids_greedy_rooms line_dist _ _ _ _ _ _ _ _ _ _ _
              C_D_distinct Hrun course_C) as (a & b & _ & _ & _ & _ & _ & _ & _ & H).
  - left.
  - exact (H three_rooms_identified).
Defined.

Lemma greedy_and_cost_ignore_generator_witness :
  stateless (greedy_allocate line_dist [course_A; course_B] [0; 1]%nat two_rooms)
  ∧ stateless (cost_of_alloc line_dist (rooms_dict [R1; R2]) [course_A; course_B]
                 A_in_R1_B_in_R2).
Proof.
  destruct (greedy_and_cost_ignore_generator line_dist [course_A; course_B]
              [0; 1]%nat two_rooms (rooms_dict [R1; R2]) A_in_R1_B_in_R2 A_B_exact)
    as (H1 & H2 & _).
  split; [exact H1 | exact H2].
Defined.

Lemma greedy_succeeds_without_slot_conflicts_witness :
  ∃ alloc g',
    greedy_allocate line_dist [course_A; course_F] [0; 1]%nat two_rooms [] = OK (alloc, g')
    ∧ complete [course_A; course_F] alloc.
Proof.
  apply greedy_succeeds_without_slot_conflicts.
  - compute_done.
  - intros c [->|Hc]%elem_of_cons; [done|].
    apply list_elem_of_singleton in Hc as ->. done.
  - intros c [->|Hc]%elem_of_cons; [|apply list_elem_of_singleton in Hc as ->].
    + exists 0%nat. split; [left | reflexivity].
    + exists 1%nat. split; [right; left | reflexivity].
Defined.
